(** * hf_xet_downloader: the download helper's event protocol

    A shallow embedding of [crates/gglib-download/scripts/hf_xet_downloader.py]:
    the file-spec parser, the throttled JSON progress bar, the per-file
    download routine and the session driver with its exit codes.

    Conventions of the embedding.
    - A Python [str] is a [string]; a character is its code point, which is
      taken below 256.
    - A Python [float] is a binary64 [float]: a reading of
      [time.monotonic()] is the float the call returns, and the script's
      subtractions, products and comparisons of readings are those of
      [PrimFloat], rounding included.
    - The third-party libraries ([argparse], [huggingface_hub], [tqdm],
      [pathlib], the file system) are inputs: what they do is read from an
      [Env] record and from the shape of the command line.  Code of theirs
      that writes on stdout by itself is not part of the model. *)

From Stdlib Require Import ZArith Lia Ascii DecimalString Floats.
From stdpp Require Import base option list sorting strings gmap.

Set Warnings "-inexact-float".

Open Scope Z_scope.

(** ** Python strings *)

Module PyStr.

(** [str.isspace] on code points below 256, the set [str.strip()] removes. *)
Definition is_space (c : ascii) : bool :=
  let k := N_of_ascii c in
  (((9 <=? k) && (k <=? 13)) || ((28 <=? k) && (k <=? 32))
   || (k =? 133) || (k =? 160))%N.

(** [s.lstrip(chars)], with [chars] given as a predicate. *)
Fixpoint lstrip_by (p : ascii → bool) (s : string) : string :=
  match s with
  | EmptyString => EmptyString
  | String c r => if p c then lstrip_by p r else s
  end.

(** [s.rstrip(chars)]. *)
Fixpoint rstrip_by (p : ascii → bool) (s : string) : string :=
  match s with
  | EmptyString => EmptyString
  | String c r =>
      match rstrip_by p r with
      | EmptyString => if p c then EmptyString else String c EmptyString
      | r' => String c r'
      end
  end.

(** [s.strip()]. *)
Definition strip (s : string) : string := rstrip_by is_space (lstrip_by is_space s).

(** Membership of a character in the argument of [lstrip("/ ")]. *)
Definition in_chars (chars : string) (c : ascii) : bool :=
  bool_decide (c ∈ String.list_ascii_of_string chars).

(** [s.lstrip(chars)]. *)
Definition lstrip (chars s : string) : string := lstrip_by (in_chars chars) s.

(** [s.startswith(sep)]. *)
Fixpoint startswith (sep s : string) : bool :=
  match sep, s with
  | EmptyString, _ => true
  | String a sep', String b s' => bool_decide (a = b) && startswith sep' s'
  | String _ _, EmptyString => false
  end.

(** [sep in s]. *)
Fixpoint contains (sep s : string) : bool :=
  startswith sep s ||
  match s with
  | EmptyString => false
  | String _ r => contains sep r
  end.

(** [s[n:]]. *)
Fixpoint drop (n : nat) (s : string) : string :=
  match n, s with
  | O, _ => s
  | S n', String _ r => drop n' r
  | S _, EmptyString => EmptyString
  end.

(** The rightmost occurrence of a non-empty [sep] in [s], as the text before
    it and the text after it. *)
Fixpoint rpartition (sep s : string) : option (string * string) :=
  match s with
  | EmptyString => None
  | String c r =>
      match rpartition sep r with
      | Some (p, q) => Some (String c p, q)
      | None =>
          if startswith sep s then Some (EmptyString, drop (String.length sep) s)
          else None
      end
  end.

(** [s.rsplit(sep, 1)] for a non-empty [sep]: two pieces when [sep] occurs,
    the whole string otherwise. *)
Definition rsplit1 (sep s : string) : list string :=
  match rpartition sep s with
  | Some (p, q) => [p; q]
  | None => [s]
  end.

Definition is_digit (c : ascii) : bool :=
  let k := N_of_ascii c in ((48 <=? k) && (k <=? 57))%N.

Definition digit_value (c : ascii) : Z := Z.of_N (N_of_ascii c) - 48.

(** The digits of a decimal literal: groups of digits separated by single
    underscores.  Returns the value and the number of digits. *)
Fixpoint int_digits (acc : Z) (count : N) (after_digit : bool) (s : string)
  : option (Z * N) :=
  match s with
  | EmptyString => if after_digit then Some (acc, count) else None
  | String c r =>
      if is_digit c then int_digits (10 * acc + digit_value c) (count + 1)%N true r
      else if bool_decide (c = "_"%char) then
        if after_digit then int_digits acc count false r else None
      else None
  end.

(** [sys.get_int_max_str_digits()], at its default. *)
Definition int_max_str_digits : N := 4300.

(** The whitespace [int] skips around a literal: the ASCII blanks of the C
    locale, and the two blanks above 127, which it first maps to a space.
    The separators 28 to 31, which [strip] removes, are not among them. *)
Definition is_int_space (c : ascii) : bool :=
  let k := N_of_ascii c in
  (((9 <=? k) && (k <=? 13)) || (k =? 32) || (k =? 133) || (k =? 160))%N.

(** [int(s)]: surrounding whitespace, an optional sign, a decimal literal.
    [None] stands for [ValueError]. *)
Definition int (s : string) : option Z :=
  match rstrip_by is_int_space (lstrip_by is_int_space s) with
  | EmptyString => None
  | String c r as t =>
      let '(negative, body) :=
        if bool_decide (c = "-"%char) then (true, r)
        else if bool_decide (c = "+"%char) then (false, r)
        else (false, t) in
      match int_digits 0 0%N false body with
      | Some (v, count) =>
          if (int_max_str_digits <? count)%N then None
          else Some (if negative : bool then - v else v)
      | None => None
      end
  end.

(** Truthiness of a string. *)
Definition truthy (s : string) : bool :=
  match s with EmptyString => false | _ => true end.

End PyStr.

(** ** Exceptions and the process state *)

(** The exceptions the script can meet.  [Failure] is any other subclass of
    [Exception], carried by its [str()]. *)
Inductive exn :=
| SystemExit (code : Z)
| ValueError (msg : string)
| TypeError (msg : string)
| PackageNotFoundError (name : string)
| OverflowError (msg : string)
| Failure (msg : string).

(** [isinstance(e, Exception)]: [SystemExit] derives from [BaseException] only. *)
Definition is_Exception (e : exn) : bool :=
  match e with SystemExit _ => false | _ => true end.

(** [str(exc)] for the exceptions whose text the script prints. *)
Definition exn_str (e : exn) : string :=
  match e with
  | SystemExit _ => ""
  | ValueError msg | TypeError msg | PackageNotFoundError msg | OverflowError msg
  | Failure msg => msg
  end.

Inductive result (A : Type) :=
| Ok (a : A)
| Raise (e : exn).
Arguments Ok {A} a.
Arguments Raise {A} e.

(** ** Python floats *)

Module PyFloat.

(** [int(x)]: the integer part of a finite float, towards zero; [ValueError]
    for a NaN and [OverflowError] for an infinity. *)
Definition int (x : float) : result Z :=
  match Prim2SF x with
  | S754_zero _ => Ok 0
  | S754_finite negative m e =>
      let magnitude := if 0 <=? e then Z.pos m * 2 ^ e else Z.pos m / 2 ^ (- e) in
      Ok (if negative then - magnitude else magnitude)
  | S754_infinity _ => Raise (OverflowError "cannot convert float infinity to integer")
  | S754_nan => Raise (ValueError "cannot convert float NaN to integer")
  end.

End PyFloat.

(** A JSON value of a protocol message. *)
Inductive json :=
| JStr (s : string)
| JInt (z : Z).

Global Instance json_eq_dec : EqDecision json.
Proof. solve_decision. Defined.

(** A protocol message: the dict handed to [json.dumps], in insertion order.
    One message is one line of stdout. *)
Definition message := list (string * json).

(** A [pathlib.Path] built by the script. *)
Inductive Path :=
| Resolved (s : string)          (* Path(s).expanduser().resolve() *)
| Join (p : Path) (s : string)   (* p / s *)
| Parent (p : Path).             (* p.parent *)

(** A call that changes the file system. *)
Inductive FsAction :=
| Mkdir (p : Path)                       (* p.mkdir(parents=True, exist_ok=True) *)
| Replace (src : string) (dst : Path).   (* os.replace(src, dst) *)

(** The keyword arguments of one [hf_hub_download] call. *)
Record HubCall := {
  repo_id : string;
  filename : string;
  revision : string;
  repo_type : string;
  token : option string;
  cache_dir : option Path;
  local_dir : Path;
  force_download : bool;
  local_files_only : bool;
  resume_download : bool;
}.

(** The base class of the progress bar: the part of a [tqdm] object the
    script reads and writes. *)
Module tqdm.

Record t := {
  n : Z;
  total : option Z;
  disable : bool;
}.

(** The keyword arguments the library passes to the bar's constructor. *)
Record kwargs := {
  name : option string;
  desc : option string;
  kw_total : option Z;
  initial : Z;
  kw_disable : bool;
}.

(** [tqdm.__init__]: the counters it sets. *)
Definition __init__ (kw : kwargs) : t :=
  {| n := initial kw; total := kw_total kw; disable := kw_disable kw |}.

(** [tqdm.update]: no accounting at all when the bar is disabled. *)
Definition update (self : t) (k : Z) : t :=
  if disable self then self
  else {| n := n self + k; total := total self; disable := disable self |}.

End tqdm.

(** The two readings of [time.monotonic()] one [_emit] call can take: [now]
    in [_emit] itself, [later] in [record_progress_emit]. *)
Record Clock := {
  now : float;
  later : float;
}.

(** A [JsonProgressBar] object. *)
Record Bar := {
  base : tqdm.t;
  _label : string;
  _last_emit : float;
}.

(** One observable effect of the process. *)
Inductive Effect :=
| Out (m : message)      (* a protocol line on stdout *)
| OutHelp                (* the help text of argparse, on stdout *)
| Err (line : string)    (* text on stderr *)
| Hub (c : HubCall)      (* a call of hf_hub_download *)
| Fs (a : FsAction).     (* a call that changes the file system *)

(** The state of the process: the effects so far, oldest first, the module's
    global, the environment variables and the live progress bars. *)
Record World := {
  log : list Effect;
  _LAST_PROGRESS_EMIT : float;
  environ : gmap string string;
  bars : gmap nat Bar;
}.

Definition set_log (f : list Effect → list Effect) (w : World) : World :=
  {| log := f (log w); _LAST_PROGRESS_EMIT := _LAST_PROGRESS_EMIT w;
     environ := environ w; bars := bars w |}.

Definition set_LAST_PROGRESS_EMIT (t : float) (w : World) : World :=
  {| log := log w; _LAST_PROGRESS_EMIT := t;
     environ := environ w; bars := bars w |}.

Definition set_environ (f : gmap string string → gmap string string) (w : World) : World :=
  {| log := log w; _LAST_PROGRESS_EMIT := _LAST_PROGRESS_EMIT w;
     environ := f (environ w); bars := bars w |}.

Definition set_bars (f : gmap nat Bar → gmap nat Bar) (w : World) : World :=
  {| log := log w; _LAST_PROGRESS_EMIT := _LAST_PROGRESS_EMIT w;
     environ := environ w; bars := f (bars w) |}.

Definition out_of (e : Effect) : option message :=
  match e with Out m => Some m | _ => None end.
Definition err_of (e : Effect) : option string :=
  match e with Err l => Some l | _ => None end.
Definition hub_of (e : Effect) : option HubCall :=
  match e with Hub c => Some c | _ => None end.
Definition fs_of (e : Effect) : option FsAction :=
  match e with Fs a => Some a | _ => None end.

(** The protocol lines written to stdout, the text written to stderr, the
    transfers started and the file-system calls made, each in order. *)
Definition stdout (w : World) : list message := omap out_of (log w).
Definition stderr (w : World) : list string := omap err_of (log w).
Definition hub_calls (w : World) : list HubCall := omap hub_of (log w).
Definition fs_calls (w : World) : list FsAction := omap fs_of (log w).

(** ** Computations: state of the process, and exceptions *)

Definition M (A : Type) : Type := World → result A * World.

Definition ret {A} (a : A) : M A := λ w, (Ok a, w).

Definition raise {A} (e : exn) : M A := λ w, (Raise e, w).

Definition bind {A B} (c : M A) (k : A → M B) : M B :=
  λ w, match c w with
       | (Ok a, w') => k a w'
       | (Raise e, w') => (Raise e, w')
       end.

(** [try: c], handing the outcome to the handler that follows. *)
Definition try {A} (c : M A) : M (result A) :=
  λ w, let '(r, w') := c w in (Ok r, w').

Definition modify (f : World → World) : M unit := λ w, (Ok (), f w).

(** The outcome of a pure computation, as a step of the process. *)
Definition of_result {A} (r : result A) : M A :=
  match r with
  | Ok a => ret a
  | Raise e => raise e
  end.

Global Instance M_ret : MRet M := @ret.
Global Instance M_bind : MBind M := λ A B k c, bind c k.

(** [sys.stdout.write(json.dumps(message, ...) + "\n")] and the flush. *)
Definition effect (e : Effect) : M unit := modify (set_log (λ l, l ++ [e])).

Definition write_stdout (m : message) : M unit := effect (Out m).

(** [sys.stderr.write(line)]. *)
Definition write_stderr (line : string) : M unit := effect (Err line).

(** [str(z)] of an integer. *)
Definition str_of_Z (z : Z) : string := NilZero.string_of_int (Z.to_int z).

(** ** The event sink *)

Definition MIN_PROGRESS_INTERVAL_S : float := 0.2%float.

Definition record_progress_emit (t : float) : M unit :=
  modify (set_LAST_PROGRESS_EMIT t).

(** [emit(status, **payload)].  [status] is an ordinary parameter, so a
    keyword argument of that name binds to it as well: such a call raises
    [TypeError] before the body runs. *)
Definition emit (status : string) (payload : list (string * json)) : M unit :=
  if bool_decide ("status" ∈ payload.*1) then
    raise (TypeError "emit() got multiple values for argument 'status'")
  else
    write_stdout (("status", JStr status) :: payload).

(** ** File specs *)

Record FileSpec := {
  path : string;
  size : option Z;
}.

Definition display_name (self : FileSpec) : string := path self.

(** The body of the [for separator in ("::", "=")] loop: the first separator
    found in [raw] decides, and the loop breaks there. *)
Fixpoint split_spec (separators : list string) (raw : string)
  : result (string * option Z) :=
  match separators with
  | [] => Ok (raw, None)
  | separator :: rest =>
      if PyStr.contains separator raw then
        match PyStr.rsplit1 separator raw with
        | [candidate_path; candidate_size] =>
            Ok (candidate_path, PyStr.int candidate_size)
        | _ => Raise (ValueError "not enough values to unpack (expected 2, got 1)")
        end
      else split_spec rest raw
  end.

(** The [for raw in raw_values] loop of [parse_file_specs], [specs] being the
    list built so far, and the check that follows it. *)
Fixpoint parse_loop (raw_values : list string) (specs : list FileSpec)
  : result (list FileSpec) :=
  match raw_values with
  | [] =>
      match specs with
      | [] => Raise (ValueError "At least one --file argument is required")
      | _ => Ok specs
      end
  | raw :: rest =>
      let raw := PyStr.strip raw in
      if negb (PyStr.truthy raw) then parse_loop rest specs
      else
        match split_spec ["::"; "="] raw with
        | Raise e => Raise e
        | Ok (path, size) =>
            let normalized_path := PyStr.lstrip "/ " path in
            if negb (PyStr.truthy normalized_path) then
              Raise (ValueError ("Invalid file specification: '" +:+ raw +:+ "'"))
            else
              parse_loop rest (specs ++ [{| path := normalized_path; size := size |}])
        end
  end.

Definition parse_file_specs (raw_values : list string) : result (list FileSpec) :=
  parse_loop raw_values [].

(** ** The progress bar *)

(** [a or b] on an optional string. *)
Definition or_str (a : option string) (b : string) : string :=
  match a with
  | Some s => if PyStr.truthy s then s else b
  | None => b
  end.

(** [int(total or 0)]. *)
Definition total_or_0 (total : option Z) : Z := default 0 total.

Module JsonProgressBar.

Definition _emit (self : Bar) (force : bool) (clk : Clock) : M Bar :=
  if negb force && (now clk - _last_emit self <? MIN_PROGRESS_INTERVAL_S)%float then
    mret self
  else
    emit "progress"
      [("file", JStr (_label self));
       ("downloaded", JInt (tqdm.n (base self)));
       ("total", JInt (total_or_0 (tqdm.total (base self))))];;
    let self := {| base := base self; _label := _label self; _last_emit := now clk |} in
    record_progress_emit (later clk);;
    mret self.

(** [desc_attr] is what [getattr(self, "desc", None)] finds once the base
    initialiser has run. *)
Definition __init__ (kw : tqdm.kwargs) (desc_attr : option string) (clk : Clock)
  : M Bar :=
  let desc := or_str (tqdm.desc kw) "" in
  let self :=
    {| base := tqdm.__init__ kw;
       _label := or_str desc_attr (or_str (Some desc) "");
       _last_emit := 0%float |} in
  _emit self true clk.

Definition update (self : Bar) (k : Z) (clk : Clock) : M Bar :=
  let self :=
    if tqdm.disable (base self) then
      {| base := {| tqdm.n := tqdm.n (base self) + k;
                    tqdm.total := tqdm.total (base self);
                    tqdm.disable := tqdm.disable (base self) |};
         _label := _label self; _last_emit := _last_emit self |}
    else
      {| base := tqdm.update (base self) k;
         _label := _label self; _last_emit := _last_emit self |} in
  _emit self false clk.

End JsonProgressBar.

(** What the transfer library does with the bar class it was given: it
    builds a bar, or calls [update] on one it built.  [i] names the object. *)
Inductive BarCall :=
| New (i : nat) (kw : tqdm.kwargs) (desc_attr : option string) (clk : Clock)
| Update (i : nat) (k : Z) (clk : Clock).

Definition bar_call (c : BarCall) : M unit :=
  match c with
  | New i kw desc_attr clk =>
      b ← JsonProgressBar.__init__ kw desc_attr clk;
      modify (set_bars (insert i b))
  | Update i k clk =>
      λ w, match bars w !! i with
           | Some self =>
               (b ← JsonProgressBar.update self k clk;
                modify (set_bars (insert i b))) w
           | None => (Ok (), w)
           end
  end.

Fixpoint bar_calls (cs : list BarCall) : M unit :=
  match cs with
  | [] => mret ()
  | c :: rest => bar_call c;; bar_calls rest
  end.

(** A run of [update] calls on one bar, each with the clock it meets. *)
Fixpoint updates (self : Bar) (ks : list (Z * Clock)) : M Bar :=
  match ks with
  | [] => mret self
  | (k, clk) :: rest => b ← JsonProgressBar.update self k clk; updates b rest
  end.

(** ** The environment *)

(** What one [hf_hub_download] call does: the calls it makes on the bar class,
    then a returned path ([inl]) or an exception, by its [str()] ([inr]). *)
Record Transfer := {
  calls : list BarCall;
  outcome : string + string;
}.

Record Env := {
  (** [None]: the import succeeds; [Some exc]: it raises, with [str(exc)]. *)
  import_huggingface_hub : option string;
  import_tqdm : option string;
  import_hf_xet : option string;
  (** [importlib.metadata.version]; [None] is [PackageNotFoundError]. *)
  version : string → option string;
  (** The [k]-th call of [hf_hub_download]. *)
  hf_hub_download : nat → HubCall → Transfer;
  (** The [k]-th file-system call; [Some msg]: it raises [OSError]. *)
  fs : nat → FsAction → option string;
  (** [Path(s).expanduser().resolve()]: [Some msg] when it raises (no home
      directory for the user of a leading [~user], say), with [str(exc)]. *)
  resolve : string → option string;
  (** [str(path)]. *)
  fspath : Path → string;
  (** The [started] and [finished] readings of the [k]-th [download_file]. *)
  monotonic : nat → float * float;
  (** The environment variables the process starts with. *)
  os_environ : gmap string string;
}.

(** The command line as [argparse] reads it: how it is taken, and the value
    of each option that was given. *)
Module Argv.

(** [Help]: [-h] or [--help] is met before any argument is rejected; argparse
    prints its help on stdout and exits with status 0, whatever else the
    command line holds.  [Malformed]: an argument is rejected (an option
    without its value, an unknown option, a positional argument) and no
    [-h] is met before; usage and error go to stderr, the exit status is 2.
    [Plain]: neither. *)
Inductive Syntax := Plain | Help | Malformed.

Record t := {
  syntax : Syntax;
  repo_id : option string;
  revision : option string;
  repo_type : option string;
  dest : option string;
  cache_dir : option string;
  token : option string;
  files : list string;
  force : bool;
  local_only : bool;
  probe : bool;
}.
End Argv.

(** The [argparse.Namespace] of a successful [parse_args]. *)
Module Namespace.
Record t := {
  repo_id : string;
  revision : string;
  repo_type : string;
  dest : string;
  cache_dir : option string;
  token : option string;
  files : list string;
  force : bool;
  local_only : bool;
  probe : bool;
}.
End Namespace.

(** [parser.parse_args()].  The parser is built with the default [-h]
    option; [--repo-id], [--dest] and [--file] are declared [required=True]:
    when one is missing argparse prints its usage on stderr and exits with
    status 2. *)
Definition parse_args (argv : Argv.t) : M Namespace.t :=
  match Argv.syntax argv with
  | Argv.Help => effect OutHelp;; raise (SystemExit 0)
  | Argv.Malformed =>
      write_stderr "error: argument rejected";;
      raise (SystemExit 2)
  | Argv.Plain =>
      match Argv.repo_id argv, Argv.dest argv, Argv.files argv with
      | Some repo_id, Some dest, _ :: _ =>
          mret {| Namespace.repo_id := repo_id;
                  Namespace.revision := default "main" (Argv.revision argv);
                  Namespace.repo_type := default "model" (Argv.repo_type argv);
                  Namespace.dest := dest;
                  Namespace.cache_dir := Argv.cache_dir argv;
                  Namespace.token := Argv.token argv;
                  Namespace.files := Argv.files argv;
                  Namespace.force := Argv.force argv;
                  Namespace.local_only := Argv.local_only argv;
                  Namespace.probe := Argv.probe argv |}
      | _, _, _ =>
          write_stderr "error: the following arguments are required";;
          raise (SystemExit 2)
      end
  end.

(** [os.environ.setdefault(key, value)]. *)
Definition setdefault (key value : string) : M unit :=
  modify (set_environ (λ m, match m !! key with
                            | Some _ => m
                            | None => <[key := value]> m
                            end)).

Definition require_hf_xet (env : Env) : M string :=
  match import_hf_xet env with
  | Some exc =>
      emit "unavailable" [("reason", JStr ("hf_xet not available: " +:+ exc))];;
      raise (SystemExit 90)
  | None =>
      match version env "hf_xet" with
      | Some v => mret v
      | None => mret "unknown"
      end
  end.

(** A file-system call: logged, then it raises or returns as the
    environment says. *)
Definition fs_call (env : Env) (a : FsAction) : M unit :=
  λ w, let k := length (fs_calls w) in
       (effect (Fs a);;
        match fs env k a with
        | Some msg => raise (Failure msg)
        | None => mret ()
        end) w.

Definition ensure_dest_dir (env : Env) (path : Path) : M unit :=
  fs_call env (Mkdir path).

(** The call of [hf_hub_download] with [tqdm_class=JsonProgressBar]. *)
Definition hf_hub_download_call (env : Env) (c : HubCall) : M string :=
  λ w, let t := hf_hub_download env (length (hub_calls w)) c in
       (effect (Hub c);;
        bar_calls (calls t);;
        match outcome t with
        | inl downloaded_path => mret downloaded_path
        | inr msg => raise (Failure msg)
        end) w.

(** [downloaded_path != destination_path]: the library returns a [str], the
    destination is a [Path], and the two never compare equal. *)
Definition str_ne_path (downloaded_path : string) (destination_path : Path) : bool :=
  true.

(** The keyword arguments [download_file] hands to [hf_hub_download]. *)
Definition hub_request (spec : FileSpec) (args : Namespace.t)
    (dest_root : Path) (cache_dir : option Path) (hf_token : option string)
  : HubCall :=
  {| repo_id := Namespace.repo_id args;
     filename := path spec;
     revision := Namespace.revision args;
     repo_type := Namespace.repo_type args;
     token := hf_token;
     cache_dir := cache_dir;
     local_dir := dest_root;
     force_download := Namespace.force args;
     local_files_only := Namespace.local_only args;
     resume_download := true |}.

Definition download_file (env : Env) (spec : FileSpec) (args : Namespace.t)
    (dest_root : Path) (cache_dir : option Path) (hf_token : option string)
  : M unit :=
  λ w,
    let '(started, finished) := monotonic env (length (hub_calls w)) in
    (let destination_path := Join dest_root (path spec) in
     ensure_dest_dir env (Parent destination_path);;
     downloaded_path ←
       hf_hub_download_call env (hub_request spec args dest_root cache_dir hf_token);
     (if str_ne_path downloaded_path destination_path then
        ensure_dest_dir env (Parent destination_path);;
        fs_call env (Replace downloaded_path destination_path)
      else mret ());;
     duration_ms ← of_result (PyFloat.int ((finished - started) * 1000)%float);
     write_stderr
       ("Downloaded " +:+ display_name spec +:+ " in " +:+ str_of_Z duration_ms +:+ "ms"))
    w.

(** The [for spec in file_specs] loop of [main]: [Some 65] when it returns
    from inside the loop, [None] when it runs to its end. *)
Fixpoint download_all (env : Env) (file_specs : list FileSpec) (args : Namespace.t)
    (dest_root : Path) (cache_dir : option Path) (hf_token : option string)
  : M (option Z) :=
  match file_specs with
  | [] => mret None
  | spec :: rest =>
      r ← try (download_file env spec args dest_root cache_dir hf_token);
      match r with
      | Ok _ => download_all env rest args dest_root cache_dir hf_token
      | Raise exc =>
          if is_Exception exc then
            emit "error"
              [("message",
                JStr ("Failed to download " +:+ display_name spec +:+ ": " +:+ exn_str exc))];;
            mret (Some 65)
          else raise exc
      end
  end.

(** [Path(s).expanduser().resolve()]. *)
Definition resolve_path (env : Env) (s : string) : M Path :=
  match resolve env s with
  | Some msg => raise (Failure msg)
  | None => mret (Resolved s)
  end.

(** What [Path(args.dest).expanduser().resolve()] returns when it returns. *)
Definition dest_root_of (args : Namespace.t) : Path := Resolved (Namespace.dest args).

(** What [Path(args.cache_dir).expanduser().resolve() if args.cache_dir else
    None] returns when it returns. *)
Definition cache_dir_of (args : Namespace.t) : option Path :=
  match Namespace.cache_dir args with
  | Some d => if PyStr.truthy d then Some (Resolved d) else None
  | None => None
  end.

(** [args.token or None]. *)
Definition hf_token_of (args : Namespace.t) : option string :=
  match Namespace.token args with
  | Some t => if PyStr.truthy t then Some t else None
  | None => None
  end.

Definition main (env : Env) (argv : Argv.t) : M Z :=
  args ← parse_args argv;
  setdefault "HF_HUB_DISABLE_TELEMETRY" "1";;
  setdefault "HF_HUB_DISABLE_SYMLINKS_WARNING" "1";;
  hf_xet_version ← require_hf_xet env;
  hub_version ←
    match version env "huggingface_hub" with
    | Some v => mret v
    | None => raise (PackageNotFoundError "huggingface_hub")
    end;
  if Namespace.probe args then
    emit "probe"
      [("status", JStr "ok");
       ("huggingface_hub", JStr hub_version);
       ("hf_xet", JStr hf_xet_version)];;
    mret 0
  else
    match parse_file_specs (Namespace.files args) with
    | Raise (ValueError msg) =>
        emit "error" [("message", JStr msg)];;
        mret 64
    | Raise exc => raise exc
    | Ok file_specs =>
        dest_root ← resolve_path env (Namespace.dest args);
        cache_dir ←
          match Namespace.cache_dir args with
          | Some d =>
              if PyStr.truthy d then p ← resolve_path env d; mret (Some p)
              else mret None
          | None => mret None
          end;
        let hf_token := hf_token_of args in
        write_stderr
          ("Downloading from " +:+ Namespace.repo_id args +:+ "@"
           +:+ Namespace.revision args +:+ " to " +:+ fspath env dest_root);;
        r ← download_all env file_specs args dest_root cache_dir hf_token;
        match r with
        | Some code => mret code
        | None => emit "complete" [];; mret 0
        end
    end.

(** The module body: the two guarded imports, then [sys.exit(main())]. *)
Definition script (env : Env) (argv : Argv.t) : M Z :=
  match import_huggingface_hub env with
  | Some exc =>
      write_stderr ("huggingface_hub is required but could not be imported: " +:+ exc);;
      raise (SystemExit 97)
  | None =>
      match import_tqdm env with
      | Some exc =>
          write_stderr ("tqdm is required but missing: " +:+ exc);;
          raise (SystemExit 98)
      | None =>
          code ← main env argv;
          raise (SystemExit code)
      end
  end.

Definition initial_world (env : Env) : World :=
  {| log := []; _LAST_PROGRESS_EMIT := 0%float; environ := os_environ env; bars := ∅ |}.

(** The process: its exit status and its final state.  An exception other
    than [SystemExit] reaches the interpreter, which prints a traceback on
    stderr and exits with status 1. *)
Definition run (env : Env) (argv : Argv.t) : Z * World :=
  match script env argv (initial_world env) with
  | (Ok code, w) => (code, w)
  | (Raise (SystemExit code), w) => (code, w)
  | (Raise exc, w) =>
      (1, set_log (λ l, l ++ [Err ("Traceback (most recent call last): " +:+ exn_str exc)]) w)
  end.

(** ** What the claims speak of *)

(** [sep] occurs in [s] at offset [i]. *)
Definition occurs_at (sep s : string) (i : nat) : Prop :=
  ∃ a b, s = a +:+ sep +:+ b ∧ String.length a = i.

(** [p] and [q] are the two sides of the last occurrence of [sep] in [s]. *)
Definition split_at_last (sep s p q : string) : Prop :=
  s = p +:+ sep +:+ q ∧ ∀ i, occurs_at sep s i → (i ≤ String.length p)%nat.

(** [r] is [s] without its longest prefix made of characters in [chars]. *)
Definition without_leading (chars : string) (s r : string) : Prop :=
  (∃ pre, s = pre +:+ r
          ∧ Forall (λ c, c ∈ String.list_ascii_of_string chars)
                   (String.list_ascii_of_string pre))
  ∧ match r with
    | EmptyString => True
    | String c _ => c ∉ String.list_ascii_of_string chars
    end.

(** The entries the parser keeps: each one stripped, the blank ones dropped. *)
Definition kept_entries (raw_values : list string) : list string :=
  filter (λ raw, raw ≠ EmptyString) (PyStr.strip <$> raw_values).

(** What the parser makes of one kept entry. *)
Definition entry_parsed (raw : string) (spec : FileSpec) : Prop :=
  path spec ≠ EmptyString ∧
  ((∃ p q, split_at_last "::" raw p q
           ∧ without_leading "/ " p (path spec) ∧ size spec = PyStr.int q)
   ∨ ((∀ i, ¬ occurs_at "::" raw i)
      ∧ ∃ p q, split_at_last "=" raw p q
               ∧ without_leading "/ " p (path spec) ∧ size spec = PyStr.int q)
   ∨ ((∀ i, ¬ occurs_at "::" raw i) ∧ (∀ i, ¬ occurs_at "=" raw i)
      ∧ without_leading "/ " raw (path spec) ∧ size spec = None)).

(** The path of a kept entry is empty once normalized. *)
Definition normalizes_to_empty (raw : string) : Prop :=
  ∃ p sz, split_spec ["::"; "="] raw = Ok (p, sz) ∧ PyStr.lstrip "/ " p = EmptyString.

(** The file-spec list is invalid: nothing is left once the blank entries are
    dropped, or an entry normalizes to an empty path. *)
Definition invalid_file_specs (raw_values : list string) : Prop :=
  kept_entries raw_values = [] ∨ Exists normalizes_to_empty (kept_entries raw_values).

(** The value of a key of a message. *)
Fixpoint field (key : string) (m : message) : option json :=
  match m with
  | [] => None
  | (k, v) :: rest => if decide (k = key) then Some v else field key rest
  end.

Definition status_of (m : message) : option json := field "status" m.

Definition progress_event (file : string) (downloaded total : Z) : message :=
  [("status", JStr "progress"); ("file", JStr file);
   ("downloaded", JInt downloaded); ("total", JInt total)].

Definition error_event (msg : string) : message :=
  [("status", JStr "error"); ("message", JStr msg)].

Definition unavailable_event (reason : string) : message :=
  [("status", JStr "unavailable"); ("reason", JStr reason)].

Definition complete_event : message := [("status", JStr "complete")].

Definition is_progress (m : message) : Prop := status_of m = Some (JStr "progress").

(** The messages of a given status, in order. *)
Definition with_status (st : string) (l : list message) : list message :=
  filter (λ m, status_of m = Some (JStr st)) l.

(** The progress event a bar reports in its current state. *)
Definition bar_event (b : Bar) : message :=
  progress_event (_label b) (tqdm.n (base b)) (total_or_0 (tqdm.total (base b))).

(** The comparison of [_emit]: the difference of the reading [t] and the
    reading [last] of the last emission, as the script computes it, is below
    the minimum interval. *)
Definition too_soon (last t : float) : bool :=
  (t - last <? MIN_PROGRESS_INTERVAL_S)%float.

(** The throttle test of [_emit]: the call is not forced and less than the
    minimum interval has passed since the bar's last emission. *)
Definition throttled (self : Bar) (force : bool) (clk : Clock) : bool :=
  negb force && too_soon (_last_emit self) (now clk).

(** The bar once it has emitted at the reading [t]. *)
Definition emitted_at (b : Bar) (t : float) : Bar :=
  {| base := base b; _label := _label b; _last_emit := t |}.

(** The world once a message went out and the global was stamped. *)
Definition after_emit (m : message) (t : float) (w : World) : World :=
  set_LAST_PROGRESS_EMIT t (set_log (λ l, l ++ [Out m]) w).

(** The effects of a computation: what it appended to the log. *)
Definition effects_of {A} (c : M A) (w : World) : list Effect :=
  drop (length (log w)) (log (c w).2).

(** The arguments parse: the required options are there. *)
Definition parsed (argv : Argv.t) (args : Namespace.t) : Prop :=
  ∀ w, parse_args argv w = (Ok args, w).

(** A download session opens: every dependency imports, the version of
    [huggingface_hub] resolves, the arguments parse and ask for no probe. *)
Definition session_opens (env : Env) (argv : Argv.t) (args : Namespace.t) : Prop :=
  import_huggingface_hub env = None ∧ import_tqdm env = None
  ∧ import_hf_xet env = None ∧ is_Some (version env "huggingface_hub")
  ∧ parsed argv args ∧ Namespace.probe args = false.

(** The failure of [main] to resolve its directories: that of [--dest], else
    that of a non-empty [--cache-dir], by its text; [None] when both
    resolve. *)
Definition resolution_failure (env : Env) (args : Namespace.t) : option string :=
  match resolve env (Namespace.dest args) with
  | Some msg => Some msg
  | None =>
      match Namespace.cache_dir args with
      | Some d => if PyStr.truthy d then resolve env d else None
      | None => None
      end
  end.

(** A download session gets under way: it opens, and the directories of the
    command line resolve. *)
Definition session_starts (env : Env) (argv : Argv.t) (args : Namespace.t) : Prop :=
  session_opens env argv args ∧ resolution_failure env args = None.

(** The request [main] makes for one file. *)
Definition request (args : Namespace.t) (spec : FileSpec) : HubCall :=
  hub_request spec args (dest_root_of args) (cache_dir_of args) (hf_token_of args).

(** The duration [download_file] reports for its [k]-th call, in
    milliseconds; it raises when the product is no finite float. *)
Definition duration_ms (env : Env) (k : nat) : result Z :=
  PyFloat.int (((monotonic env k).2 - (monotonic env k).1) * 1000)%float.

Definition duration_failure (env : Env) (k : nat) : option string :=
  match duration_ms env k with
  | Ok _ => None
  | Raise e => Some (exn_str e)
  end.

(** The failure of a file's transfer when [f] file-system calls and [k]
    library calls were made before it: the text of the first of its steps
    that raises (making the destination directory, the library call, making
    the directory again, the move into place, the conversion of the
    duration); [None] when every step succeeds. *)
Definition step_failure (env : Env) (args : Namespace.t) (f k : nat) (spec : FileSpec)
  : option string :=
  let destination_path := Join (dest_root_of args) (path spec) in
  match fs env f (Mkdir (Parent destination_path)) with
  | Some msg => Some msg
  | None =>
      match outcome (hf_hub_download env k (request args spec)) with
      | inr msg => Some msg
      | inl downloaded_path =>
          match fs env (f + 1) (Mkdir (Parent destination_path)) with
          | Some msg => Some msg
          | None =>
              match fs env (f + 2) (Replace downloaded_path destination_path) with
              | Some msg => Some msg
              | None => duration_failure env k
              end
          end
      end
  end.

(** The failure of the [k]-th file of a session whose earlier files all went
    through, each with its three file-system calls. *)
Definition file_failure (env : Env) (args : Namespace.t) (k : nat) (spec : FileSpec)
  : option string :=
  step_failure env args (3 * k) k spec.

(** The bar after the accounting of [update(k)], before it reports. *)
Definition counted (self : Bar) (k : Z) : Bar :=
  {| base := {| tqdm.n := tqdm.n (base self) + k;
                tqdm.total := tqdm.total (base self);
                tqdm.disable := tqdm.disable (base self) |};
     _label := _label self; _last_emit := _last_emit self |}.

(** The bar a constructor call sets up, before its first report. *)
Definition fresh_bar (kw : tqdm.kwargs) (desc_attr : option string) : Bar :=
  {| base := tqdm.__init__ kw;
     _label := or_str desc_attr (or_str (tqdm.desc kw) "");
     _last_emit := 0 |}.

(** The object a call of the library addresses. *)
Definition owner (c : BarCall) : nat :=
  match c with New i _ _ _ | Update i _ _ => i end.

(** What a call does to the bar it addresses, and the messages it sends. *)
Definition bar_step (c : BarCall) (ob : option Bar) : option Bar * list message :=
  match c with
  | New _ kw desc_attr clk =>
      let b := fresh_bar kw desc_attr in
      (Some (emitted_at b (now clk)), [bar_event b])
  | Update _ k clk =>
      match ob with
      | None => (None, [])
      | Some self =>
          let b := counted self k in
          if throttled b false clk then (Some b, [])
          else (Some (emitted_at b (now clk)), [bar_event b])
      end
  end.

(** The store of bars after a call. *)
Definition store_after (c : BarCall) (σ : gmap nat Bar) : gmap nat Bar :=
  match (bar_step c (σ !! owner c)).1 with
  | Some b => <[owner c := b]> σ
  | None => σ
  end.

(** The messages a run of calls sends, from a given store of bars. *)
Fixpoint bar_events (cs : list BarCall) (σ : gmap nat Bar) : list message :=
  match cs with
  | [] => []
  | c :: rest => (bar_step c (σ !! owner c)).2 ++ bar_events rest (store_after c σ)
  end.

(** The messages each call of a run sends, with the object that sent them. *)
Fixpoint emissions (cs : list BarCall) (w : World) : list (nat * list Effect) :=
  match cs with
  | [] => []
  | c :: rest => (owner c, effects_of (bar_call c) w) :: emissions rest (bar_call c w).2
  end.

(** The life of one bar: its construction, then a run of updates. *)
Definition bar_life (kw : tqdm.kwargs) (desc_attr : option string) (clk : Clock)
    (ks : list (Z * Clock)) : M Bar :=
  b ← JsonProgressBar.__init__ kw desc_attr clk; updates b ks.

(** The readings of the clock at which a run of updates was seen to emit. *)
Fixpoint emission_readings (self : Bar) (ks : list (Z * Clock)) (w : World)
  : list float :=
  match ks with
  | [] => []
  | (k, clk) :: rest =>
      match JsonProgressBar.update self k clk w with
      | (Ok b, w') =>
          match effects_of (JsonProgressBar.update self k clk) w with
          | [] => emission_readings b rest w'
          | _ => now clk :: emission_readings b rest w'
          end
      | (Raise _, _) => []
      end
  end.

(** The reading at which a bar last emitted, over its life so far: seen on
    the output, the construction counting as the first emission. *)
Definition previous_emission (kw : tqdm.kwargs) (desc_attr : option string)
    (clk : Clock) (ks : list (Z * Clock)) (w : World) : float :=
  match JsonProgressBar.__init__ kw desc_attr clk w with
  | (Ok b, w') => default (now clk) (last (emission_readings b ks w'))
  | (Raise _, _) => now clk
  end.

(** The bytes a run of updates reports. *)
Definition total_bytes (ks : list (Z * Clock)) : Z := foldr (λ kc acc, kc.1 + acc) 0 ks.

(** The [downloaded] counts carried by the progress events among some effects. *)
Definition downloads (l : list Effect) : list Z :=
  omap (λ e, match out_of e ≫= field "downloaded" with
             | Some (JInt z) => Some z
             | _ => None
             end) l.

(** The [total] values carried by the progress events among some effects. *)
Definition totals (l : list Effect) : list Z :=
  omap (λ e, match out_of e ≫= field "total" with
             | Some (JInt z) => Some z
             | _ => None
             end) l.

(** The byte count after each update of a run that starts at [n0]. *)
Fixpoint running_totals (n0 : Z) (ks : list (Z * Clock)) : list Z :=
  match ks with
  | [] => []
  | (k, _) :: rest => (n0 + k) :: running_totals (n0 + k) rest
  end.

(** The transfers started and the messages sent, as they interleave. *)
Definition transfers_and_events (l : list Effect) : list Effect :=
  omap (λ e, match e with Out _ | Hub _ => Some e | _ => None end) l.

(** The part of the log one file accounts for: its transfer is started, then
    progress events follow. *)
Definition file_block (args : Namespace.t) (spec : FileSpec) (block : list Effect) : Prop :=
  ∃ evs, block = Hub (request args spec) :: (Out <$> evs) ∧ Forall is_progress evs.

(** The whole of the log one file accounts for when it goes through: its
    destination directory is made, its transfer is started, progress events
    follow, the directory is made again, a path the library returned for
    this file's request is moved onto the file's destination, and the
    closing diagnostic is written. *)
Definition file_run (env : Env) (args : Namespace.t) (spec : FileSpec)
    (block : list Effect) : Prop :=
  let destination_path := Join (dest_root_of args) (path spec) in
  ∃ evs k src d,
    outcome (hf_hub_download env k (request args spec)) = inl src
    ∧ duration_ms env k = Ok d
    ∧ Forall is_progress evs
    ∧ block = [Fs (Mkdir (Parent destination_path)); Hub (request args spec)]
              ++ (Out <$> evs)
              ++ [Fs (Mkdir (Parent destination_path));
                  Fs (Replace src destination_path);
                  Err ("Downloaded " +:+ display_name spec +:+ " in "
                       +:+ str_of_Z d +:+ "ms")].

(** The destinations of the moves among the file-system calls [l], in the
    order of the calls. *)
Definition moved_onto (l : list FsAction) : list Path :=
  omap (λ a, match a with Replace _ dst => Some dst | Mkdir _ => None end) l.

(** What the script writes on stdout, in order: the protocol lines, and the
    help text of argparse. *)
Definition written_on_stdout (w : World) : list Effect :=
  omap (λ e, match e with Out _ | OutHelp => Some e | _ => None end) (log w).

(** The message of the [error] event for a file whose transfer failed. *)
Definition failure_message (spec : FileSpec) (msg : string) : string :=
  "Failed to download " +:+ path spec +:+ ": " +:+ msg.

(** A required option is missing from a command line that argparse takes
    otherwise. *)
Definition missing_required (argv : Argv.t) : Prop :=
  Argv.syntax argv = Argv.Plain
  ∧ (Argv.repo_id argv = None ∨ Argv.dest argv = None ∨ Argv.files argv = []).

(** argparse rejects the command line. *)
Definition usage_error (argv : Argv.t) : Prop :=
  Argv.syntax argv = Argv.Malformed ∨ missing_required argv.

(** Every file of the plan transfers. *)
Definition all_transfer (env : Env) (args : Namespace.t) (specs : list FileSpec) : Prop :=
  ∀ j s, specs !! j = Some s → file_failure env args j s = None.

(** The plan's first failing file is [spec], with the text [msg]; [pre] are
    the files before it. *)
Definition first_failure (env : Env) (args : Namespace.t)
    (pre : list FileSpec) (spec : FileSpec) (msg : string) : Prop :=
  all_transfer env args pre ∧ file_failure env args (length pre) spec = Some msg.

(** The progress events of one [download_file]: none when the destination
    directory cannot be made, else those of the calls the library makes on
    the bar class. *)
Definition file_events (env : Env) (args : Namespace.t) (spec : FileSpec) (w : World)
  : list message :=
  match fs env (length (fs_calls w))
          (Mkdir (Parent (Join (dest_root_of args) (path spec)))) with
  | Some _ => []
  | None =>
      bar_events (calls (hf_hub_download env (length (hub_calls w)) (request args spec)))
        (bars w)
  end.

(** ** Sample inputs *)

(** The reading [t] milliseconds after the clock's origin, in seconds. *)
Definition ms (t : Z) : float := (PrimFloat.of_uint63 (Uint63.of_Z t) / 1000)%float.

Definition at_ms (t : Z) : Clock := {| now := ms t; later := ms t |}.

(** A path rendered for the diagnostics. *)
Fixpoint sample_fspath (p : Path) : string :=
  match p with
  | Resolved s => s
  | Join p s => sample_fspath p +:+ "/" +:+ s
  | Parent p => sample_fspath p +:+ "/.."
  end.

(** A library that builds one bar of 100 bytes, reports them all 50 ms
    later, and returns. *)
Definition quick_transfer (c : HubCall) : Transfer :=
  {| calls :=
       [New 0 {| tqdm.name := None; tqdm.desc := Some (filename c);
                 tqdm.kw_total := Some 100; tqdm.initial := 0;
                 tqdm.kw_disable := true |}
            None (at_ms 1000);
        Update 0 100 (at_ms 1050)];
     outcome := inl ("/dest/" +:+ filename c) |}.

Definition sample_env : Env :=
  {| import_huggingface_hub := None;
     import_tqdm := None;
     import_hf_xet := None;
     version := λ _, Some "1.0";
     hf_hub_download := λ _ c, quick_transfer c;
     fs := λ _ _, None;
     resolve := λ _, None;
     fspath := sample_fspath;
     monotonic := λ _, (ms 1000, ms 1060);
     os_environ := ∅ |}.

Definition sample_argv (files : list string) : Argv.t :=
  {| Argv.syntax := Argv.Plain;
     Argv.repo_id := Some "org/model"; Argv.revision := None;
     Argv.repo_type := None; Argv.dest := Some "/dest";
     Argv.cache_dir := None; Argv.token := None; Argv.files := files;
     Argv.force := false; Argv.local_only := false; Argv.probe := false |}.

(** The keyword arguments the sample library passes for a file of 100 bytes. *)
Definition sample_kwargs : tqdm.kwargs :=
  {| tqdm.name := Some "huggingface_hub.http_get"; tqdm.desc := Some "a.bin";
     tqdm.kw_total := Some 100; tqdm.initial := 0; tqdm.kw_disable := false |}.

(** The namespace [argparse] makes of [sample_argv files]. *)
Definition sample_args (files : list string) : Namespace.t :=
  {| Namespace.repo_id := "org/model"; Namespace.revision := "main";
     Namespace.repo_type := "model"; Namespace.dest := "/dest";
     Namespace.cache_dir := None; Namespace.token := None;
     Namespace.files := files; Namespace.force := false;
     Namespace.local_only := false; Namespace.probe := false |}.

(** The sample command line with [-h] in front. *)
Definition help_argv : Argv.t :=
  {| Argv.syntax := Argv.Help;
     Argv.repo_id := None; Argv.revision := None;
     Argv.repo_type := None; Argv.dest := None;
     Argv.cache_dir := None; Argv.token := None; Argv.files := [];
     Argv.force := false; Argv.local_only := false; Argv.probe := false |}.

(** The sample command line for [a.bin], with [--dest ~nosuchuser/x]. *)
Definition homeless_argv : Argv.t :=
  {| Argv.syntax := Argv.Plain;
     Argv.repo_id := Some "org/model"; Argv.revision := None;
     Argv.repo_type := None; Argv.dest := Some "~nosuchuser/x";
     Argv.cache_dir := None; Argv.token := None; Argv.files := ["a.bin"];
     Argv.force := false; Argv.local_only := false; Argv.probe := false |}.

Definition homeless_args : Namespace.t :=
  {| Namespace.repo_id := "org/model"; Namespace.revision := "main";
     Namespace.repo_type := "model"; Namespace.dest := "~nosuchuser/x";
     Namespace.cache_dir := None; Namespace.token := None;
     Namespace.files := ["a.bin"]; Namespace.force := false;
     Namespace.local_only := false; Namespace.probe := false |}.

(** The sample environment, on a system that has no user [nosuchuser]. *)
Definition homeless_env : Env :=
  {| import_huggingface_hub := None;
     import_tqdm := None;
     import_hf_xet := None;
     version := λ _, Some "1.0";
     hf_hub_download := λ _ c, quick_transfer c;
     fs := λ _ _, None;
     resolve := λ s,
       if PyStr.startswith "~nosuchuser" s
       then Some "Could not determine home directory."
       else None;
     fspath := sample_fspath;
     monotonic := λ _, (ms 1000, ms 1060);
     os_environ := ∅ |}.


(** The sample environment, with a library that does not know the size of
    the file when it builds the bar. *)
Definition hintless_env : Env :=
  {| import_huggingface_hub := None;
     import_tqdm := None;
     import_hf_xet := None;
     version := λ _, Some "1.0";
     hf_hub_download := λ _ c,
       {| calls :=
            [New 0 {| tqdm.name := None; tqdm.desc := Some (filename c);
                      tqdm.kw_total := None; tqdm.initial := 0;
                      tqdm.kw_disable := true |}
                 None (at_ms 1000)];
          outcome := inl ("/dest/" +:+ filename c) |};
     fs := λ _ _, None;
     resolve := λ _, None;
     fspath := sample_fspath;
     monotonic := λ _, (ms 1000, ms 1060);
     os_environ := ∅ |}.

(** The sample command line, asking for a probe. *)
Definition probe_argv : Argv.t :=
  {| Argv.syntax := Argv.Plain;
     Argv.repo_id := Some "org/model"; Argv.revision := None;
     Argv.repo_type := None; Argv.dest := Some "/dest";
     Argv.cache_dir := None; Argv.token := None; Argv.files := ["a.bin"];
     Argv.force := false; Argv.local_only := false; Argv.probe := true |}.

Definition probe_args : Namespace.t :=
  {| Namespace.repo_id := "org/model"; Namespace.revision := "main";
     Namespace.repo_type := "model"; Namespace.dest := "/dest";
     Namespace.cache_dir := None; Namespace.token := None;
     Namespace.files := ["a.bin"]; Namespace.force := false;
     Namespace.local_only := false; Namespace.probe := true |}.

(** ** Further vocabulary *)

(** [c] keeps the relation [R] between the state it starts from and the one
    it ends in. *)
Definition keeps (R : World → World → Prop) {A} (c : M A) : Prop :=
  ∀ w, R w (c w).2.

(** From [w] to [w'] the environment variables stay as they are and the log
    only grows, by effects that satisfy [Q]. *)
Definition grows_by (Q : Effect → Prop) (w w' : World) : Prop :=
  environ w' = environ w ∧ ∃ l, log w' = log w ++ l ∧ Forall Q l.

(** An effect that belongs to the plan: a transfer of one of its files as
    [main] requests it, the making of that file's destination directory, the
    move of the download onto that file's destination.  Protocol lines and
    diagnostics are left free; the help text is no part of it. *)
Definition of_plan (args : Namespace.t) (specs : list FileSpec) (e : Effect) : Prop :=
  match e with
  | Out _ | Err _ => True
  | OutHelp => False
  | Hub c => ∃ spec, spec ∈ specs ∧ c = request args spec
  | Fs (Mkdir p) =>
      ∃ spec, spec ∈ specs ∧ p = Parent (Join (dest_root_of args) (path spec))
  | Fs (Replace _ dst) =>
      ∃ spec, spec ∈ specs ∧ dst = Join (dest_root_of args) (path spec)
  end.

(** [m.setdefault(key, value)] on the map of environment variables. *)
Definition setdefault_map (key value : string) (m : gmap string string)
  : gmap string string :=
  match m !! key with
  | Some _ => m
  | None => <[key := value]> m
  end.

(** The environment variables once [main] has set its two defaults. *)
Definition session_environ (m : gmap string string) : gmap string string :=
  setdefault_map "HF_HUB_DISABLE_SYMLINKS_WARNING" "1"
    (setdefault_map "HF_HUB_DISABLE_TELEMETRY" "1" m).

(** The event that ends a protocol stream, if any. *)
Definition terminal_of (code : Z) (term : list message) : Prop :=
  (code = 0 ∧ term = [complete_event])
  ∨ ((code = 64 ∨ code = 65) ∧ ∃ msg, term = [error_event msg])
  ∨ (code = 90 ∧ ∃ reason, term = [unavailable_event reason])
  ∨ ((code = 1 ∨ code = 2 ∨ code = 97 ∨ code = 98) ∧ term = []).

(** The clock readings at which a bar emitted over its life: its
    construction, then the updates seen to emit. *)
Definition life_readings (kw : tqdm.kwargs) (desc_attr : option string)
    (clk : Clock) (ks : list (Z * Clock)) (w : World) : list float :=
  match JsonProgressBar.__init__ kw desc_attr clk w with
  | (Ok b, w') => now clk :: emission_readings b ks w'
  | (Raise _, _) => []
  end.

(** The reading [b] passes the throttle test after an emission at [a]: the
    difference the script computes is not below the minimum interval. *)
Definition spaced (a b : float) : Prop := too_soon a b = false.

(** The label a bar takes at its construction. *)
Definition label_of (kw : tqdm.kwargs) (desc_attr : option string) : string :=
  or_str desc_attr (or_str (tqdm.desc kw) "").

(** The state of the process once [main] has read its arguments and set its
    two environment defaults, with [l] for log. *)
Definition started_world (env : Env) (l : list Effect) : World :=
  {| log := l; _LAST_PROGRESS_EMIT := 0%float;
     environ := session_environ (os_environ env); bars := ∅ |}.

(** What [main] does once the plan is parsed: the loop over the files, then
    the [complete] event if the loop ran to its end. *)
Definition session_loop (env : Env) (args : Namespace.t) (specs : list FileSpec) : M Z :=
  download_all env specs args (dest_root_of args) (cache_dir_of args) (hf_token_of args)
  ≫= λ r, match r with
          | Some code => mret code
          | None => emit "complete" [];; mret 0
          end.

(** The diagnostic that opens a session. *)
Definition opening_line (env : Env) (args : Namespace.t) : string :=
  "Downloading from " +:+ Namespace.repo_id args +:+ "@"
  +:+ Namespace.revision args +:+ " to " +:+ fspath env (dest_root_of args).

(** The diagnostic that closes a download that took [d] milliseconds. *)
Definition closing_line (spec : FileSpec) (d : Z) : string :=
  "Downloaded " +:+ display_name spec +:+ " in " +:+ str_of_Z d +:+ "ms".

(** The effects of one [download_file], step by step, each step taken only
    if the one before it did not raise. *)
Definition file_steps (env : Env) (args : Namespace.t) (spec : FileSpec) (w : World)
  : list Effect :=
  let destination_path := Join (dest_root_of args) (path spec) in
  let f := length (fs_calls w) in
  let k := length (hub_calls w) in
  Fs (Mkdir (Parent destination_path)) ::
  match fs env f (Mkdir (Parent destination_path)) with
  | Some _ => []
  | None =>
      Hub (request args spec) :: (Out <$> file_events env args spec w) ++
      match outcome (hf_hub_download env k (request args spec)) with
      | inr _ => []
      | inl downloaded_path =>
          Fs (Mkdir (Parent destination_path)) ::
          match fs env (f + 1) (Mkdir (Parent destination_path)) with
          | Some _ => []
          | None =>
              Fs (Replace downloaded_path destination_path) ::
              match fs env (f + 2) (Replace downloaded_path destination_path) with
              | Some _ => []
              | None =>
                  match duration_ms env k with
                  | Ok d => [Err (closing_line spec d)]
                  | Raise _ => []
                  end
              end
          end
      end
  end.

(** ** The version-sync script

    [scripts/sync_versions.py].  A file is held as the text [read()] returns;
    paths are relative to the root the script changes to.  The regular
    expressions of the script are written out as the searches they make:
    [\s] is [str.isspace], [^] under [re.MULTILINE] is the start of the text
    or the place after a line feed.  In the comments below [Q] stands for
    the double quote, so [[^Q]] is any character but the double quote, line
    feeds included.  The text a file is opened with for writing is the text
    a later [read()] returns: the texts the script writes come from
    [read()] and [json.dumps], which hold no carriage return for the
    newline translation to change. *)

Module SyncVersions.

Definition dquote : ascii := "034"%char.

Definition newline : ascii := "010"%char.

(** [\s*] at the head of [s]: the whitespace it takes, and what follows. *)
Fixpoint span_space (s : string) : string * string :=
  match s with
  | EmptyString => (EmptyString, EmptyString)
  | String c r =>
      if PyStr.is_space c then
        let '(ws, rest) := span_space r in (String c ws, rest)
      else (EmptyString, s)
  end.

(** [[^Q]*] followed by [Q]: the text before the first double quote of [s],
    and what follows the quote. *)
Fixpoint until_quote (s : string) : option (string * string) :=
  match s with
  | EmptyString => None
  | String c r =>
      if bool_decide (c = dquote) then Some (EmptyString, r)
      else
        match until_quote r with
        | Some (v, rest) => Some (String c v, rest)
        | None => None
        end
  end.

(** [version\s*=\s*Q[^Q]+Q] matched at the head of [s]: the text up to the
    opening quote (group 1 of the substitution), the quoted value, and what
    follows the closing quote. *)
Definition assignment_here (s : string) : option (string * string * string) :=
  if PyStr.startswith "version" s then
    let '(ws1, r1) := span_space (PyStr.drop 7 s) in
    match r1 with
    | String "="%char r2 =>
        let '(ws2, r3) := span_space r2 in
        match r3 with
        | String c r4 =>
            if bool_decide (c = dquote) then
              match until_quote r4 with
              | Some (String v0 v, rest) =>
                  Some ("version" +:+ ws1 +:+ "=" +:+ ws2, String v0 v, rest)
              | _ => None
              end
            else None
        | EmptyString => None
        end
    | _ => None
    end
  else None.

(** The leftmost match of [^version\s*=\s*Q[^Q]+Q] in [s], [bol] telling
    whether [s] starts a line: the text before the match, then the three
    parts of the match. *)
Fixpoint find_assignment (bol : bool) (s : string)
  : option (string * string * string * string) :=
  match (if bol then assignment_here s else None) with
  | Some (key, value, rest) => Some (EmptyString, key, value, rest)
  | None =>
      match s with
      | EmptyString => None
      | String c r =>
          match find_assignment (bool_decide (c = newline)) r with
          | Some (before, key, value, rest) => Some (String c before, key, value, rest)
          | None => None
          end
      end
  end.

(** [version\.workspace\s*=\s*true] matched at the head of [s]. *)
Definition workspace_here (s : string) : bool :=
  PyStr.startswith "version.workspace" s &&
  let '(_, r1) := span_space (PyStr.drop 17 s) in
  match r1 with
  | String "="%char r2 => let '(_, r3) := span_space r2 in PyStr.startswith "true" r3
  | _ => false
  end.

(** [re.search(r'^version\.workspace\s*=\s*true', s, re.MULTILINE)] finds a
    match. *)
Fixpoint uses_workspace (bol : bool) (s : string) : bool :=
  (bol && workspace_here s) ||
  match s with
  | EmptyString => false
  | String c r => uses_workspace (bool_decide (c = newline)) r
  end.

(** The first occurrence of a non-empty [sep] in [s]: the text before it and
    the text after it. *)
Fixpoint partition (sep s : string) : option (string * string) :=
  if PyStr.startswith sep s then Some (EmptyString, PyStr.drop (String.length sep) s)
  else
    match s with
    | EmptyString => None
    | String c r =>
        match partition sep r with
        | Some (p, q) => Some (String c p, q)
        | None => None
        end
    end.

(** The search of [get_workspace_version]:
    [\[workspace\.package\].*?^version\s*=\s*Q([^Q]+)Q] under [re.MULTILINE]
    and [re.DOTALL].  The match starts at the first header; the lazy [.*?]
    stops at the first assignment that follows it. *)
Definition search_workspace_version (content : string) : option string :=
  match partition "[workspace.package]" content with
  | Some (_, after) =>
      match find_assignment false after with
      | Some (_, _, value, _) => Some value
      | None => None
      end
  | None => None
  end.

(** What the script prints, line by line. *)
Inductive Line :=
| Skipped (path : string)        (* "  (/) {path} (uses workspace.version)" *)
| Synced (path : string)         (* "  (v) {path}" *)
| NotFound                       (* "(x) Could not find version in [workspace.package]" *)
| Syncing (version : string)     (* "Syncing version {version} to package files..." *)
| Heading (title : string)       (* an empty line, then the title *)
| AllSynced (version : string)   (* an empty line, then "(v) All files synced to version ..." *)
| Done.                          (* "Done!" *)

(** A value [json.load] returns.  The members of an object are in the order
    of the dict, with distinct keys; a number is kept as its text. *)
#[local] Unset Elimination Schemes.
Inductive Json :=
| JNull
| JBool (b : bool)
| JNumber (text : string)
| JString (s : string)
| JArray (items : list Json)
| JObject (members : list (string * Json)).
#[local] Set Elimination Schemes.

(** What the script takes from its libraries and its surroundings. *)
Record Lib := {
  (** [json.load]; it raises on a text that is no JSON. *)
  json_load : string → result Json;
  (** [json.dumps(data, indent=2)]. *)
  json_dumps : Json → string;
  (** [re]'s reading of a replacement text that holds a backslash, group 1
      being given; it raises on a bad escape. *)
  expand_escapes : string → string → result string;
  (** [glob.glob('crates/*/Cargo.toml')]. *)
  glob_crates : list string;
}.

Record State := {
  files : gmap string string;
  printed : list Line;
}.

Definition M (A : Type) : Type := State → result A * State.

Global Instance M_ret : MRet M := λ A a st, (Ok a, st).

Global Instance M_bind : MBind M :=
  λ A B k c st,
    match c st with
    | (Ok a, st') => k a st'
    | (Raise e, st') => (Raise e, st')
    end.

Definition raise {A} (e : exn) : M A := λ st, (Raise e, st).

(** [print(line)], on a stdout that can encode the line.  The lines of the
    report carry the glyphs U+2713, U+2298 and U+274C; a stdout whose
    encoding lacks them, on which [print] raises [UnicodeEncodeError], is
    outside what is modelled here. *)
Definition print (line : Line) : M unit :=
  λ st, (Ok (), {| files := files st; printed := printed st ++ [line] |}).

(** [with open(path, 'r') as f: f.read()]. *)
Definition read (path : string) : M string :=
  λ st, match files st !! path with
        | Some content => (Ok content, st)
        | None => (Raise (Failure "FileNotFoundError"), st)
        end.

(** [with open(path, 'w') as f: f.write(content)].  [files] holds, for each
    path, the text a [read()] returns: what the newline translation of text
    mode does to the line ends of the bytes on disk (a CR LF file is written
    back with the line ends of the platform) is not modelled. *)
Definition write (path content : string) : M unit :=
  λ st, (Ok (), {| files := <[path := content]> (files st); printed := printed st |}).

Definition get_workspace_version : M (option string) :=
  content ← read "Cargo.toml";
  mret (search_workspace_version content).

Definition check_cargo_toml_needs_sync (path : string) : M bool :=
  content ← read path;
  if uses_workspace true content then mret false
  else mret (bool_decide (is_Some (find_assignment true content))).

(** The replacement text [\1Q{version}Q], expanded for a match whose group 1
    is [key]. *)
Definition expand (lib : Lib) (key version : string) : result string :=
  match
    (if PyStr.contains "\" version then expand_escapes lib key version else Ok version)
  with
  | Ok text => Ok (key +:+ String dquote text +:+ String dquote EmptyString)
  | Raise e => Raise e
  end.

(** [re.sub(pattern, template, content, count=1, flags=re.MULTILINE)], the
    pattern being that of [find_assignment] with the text up to the opening
    quote as group 1: the first match is replaced, the rest is kept. *)
Definition sub_version (lib : Lib) (version content : string) : result string :=
  match find_assignment true content with
  | Some (before, key, _, rest) =>
      match expand lib key version with
      | Ok text => Ok (before +:+ text +:+ rest)
      | Raise e => Raise e
      end
  | None =>
      match expand lib EmptyString version with
      | Ok _ => Ok content
      | Raise e => Raise e
      end
  end.

Definition update_cargo_toml (lib : Lib) (path version : string) : M unit :=
  needs_sync ← check_cargo_toml_needs_sync path;
  if negb needs_sync then print (Skipped path)
  else
    content ← read path;
    match sub_version lib version content with
    | Raise e => raise e
    | Ok new_content => write path new_content;; print (Synced path)
    end.

(** [members[key] = value] on the members of a dict that has the key. *)
Fixpoint set_item (key : string) (value : Json) (members : list (string * Json))
  : list (string * Json) :=
  match members with
  | [] => []
  | (k, v) :: rest =>
      if decide (k = key) then (k, value) :: rest
      else (k, v) :: set_item key value rest
  end.

(** [if 'version' in data: data['version'] = version]. *)
Definition set_version (data : Json) (version : string) : result Json :=
  match data with
  | JObject members =>
      if bool_decide ("version" ∈ members.*1)
      then Ok (JObject (set_item "version" (JString version) members))
      else Ok data
  | JArray items =>
      if existsb (λ x, match x with
                       | JString s => bool_decide (s = "version")
                       | _ => false
                       end) items
      then Raise (TypeError "list indices must be integers or slices, not str")
      else Ok data
  | JString s =>
      if PyStr.contains "version" s
      then Raise (TypeError "'str' object does not support item assignment")
      else Ok data
  | JNull | JBool _ | JNumber _ => Raise (TypeError "argument is not iterable")
  end.

Definition update_json (lib : Lib) (path version : string) : M unit :=
  content ← read path;
  match json_load lib content with
  | Raise e => raise e
  | Ok data =>
      match set_version data version with
      | Raise e => raise e
      | Ok data =>
          write path (json_dumps lib data +:+ String newline EmptyString);;
          print (Synced path)
      end
  end.

(** [a <= b] on strings, character by character. *)
Fixpoint str_le (a b : string) : bool :=
  match a, b with
  | EmptyString, _ => true
  | String _ _, EmptyString => false
  | String x a', String y b' =>
      if (N_of_ascii x <? N_of_ascii y)%N then true
      else if (N_of_ascii y <? N_of_ascii x)%N then false
      else str_le a' b'
  end.

Fixpoint insert_sorted (x : string) (l : list string) : list string :=
  match l with
  | [] => [x]
  | y :: rest => if str_le x y then x :: l else y :: insert_sorted x rest
  end.

(** [sorted(l)] on a list of strings. *)
Definition sorted (l : list string) : list string := foldr insert_sorted [] l.

(** The [for toml in ...] loop of [main]. *)
Fixpoint update_all (lib : Lib) (tomls : list string) (version : string) : M unit :=
  match tomls with
  | [] => mret ()
  | toml :: rest => update_cargo_toml lib toml version;; update_all lib rest version
  end.

Definition main (lib : Lib) : M unit :=
  version ← get_workspace_version;
  match version with
  | None | Some EmptyString => print NotFound;; raise (SystemExit 1)
  | Some version =>
      print (Syncing version);;
      let crate_tomls := glob_crates lib in
      print (Heading "Workspace crates:");;
      update_all lib (sorted crate_tomls) version;;
      print (Heading "Tauri crate (excluded from workspace):");;
      update_cargo_toml lib "src-tauri/Cargo.toml" version;;
      print (Heading "JSON files:");;
      update_json lib "package.json" version;;
      update_json lib "src-tauri/tauri.conf.json" version;;
      print (AllSynced version);;
      print Done
  end.

End SyncVersions.

(** *** Vocabulary for the statements about the sync script *)

(** [s] between double quotes. *)
Definition quoted (s : string) : string :=
  String SyncVersions.dquote (s +:+ String SyncVersions.dquote EmptyString).

(** Every character of [s] is one that [\s] matches. *)
Definition all_space (s : string) : Prop :=
  Forall (λ c, PyStr.is_space c = true) (String.list_ascii_of_string s).

(** [s] holds no double quote. *)
Definition no_quote (s : string) : Prop :=
  SyncVersions.dquote ∉ String.list_ascii_of_string s.

(** [key] is a text that [version\s*=\s*] matches in full. *)
Definition assignment_key (key : string) : Prop :=
  ∃ ws1 ws2, key = "version" +:+ ws1 +:+ "=" +:+ ws2 ∧ all_space ws1 ∧ all_space ws2.

(** [key] is a text that [version\.workspace\s*=\s*true] matches in full. *)
Definition inheritance (key : string) : Prop :=
  ∃ ws1 ws2,
    key = "version.workspace" +:+ ws1 +:+ "=" +:+ ws2 +:+ "true"
    ∧ all_space ws1 ∧ all_space ws2.

(** A line starts where [before] ends. *)
Definition line_start (before : string) : Prop :=
  before = EmptyString ∨ ∃ b, before = b +:+ String SyncVersions.newline EmptyString.

(** [content] has the header [[workspace.package]] and, on a later line, an
    assignment of the non-empty text [v] to [version]. *)
Definition version_line_after_header (content v : string) : Prop :=
  ∃ pre mid key post,
    content = pre +:+ "[workspace.package]" +:+ mid
              +:+ String SyncVersions.newline (key +:+ quoted v +:+ post)
    ∧ assignment_key key ∧ v ≠ EmptyString ∧ no_quote v.

(** The member of an object under [key], if there is one. *)
Fixpoint member (key : string) (members : list (string * SyncVersions.Json))
  : option SyncVersions.Json :=
  match members with
  | [] => None
  | (k, v) :: rest => if decide (k = key) then Some v else member key rest
  end.

(** [content] has, where [before] ends, a line that starts with an
    assignment of the non-empty text [v] to [version]; [rest] follows its
    closing quote. *)
Definition assignment_at (content before key v rest : string) : Prop :=
  content = before +:+ key +:+ quoted v +:+ rest
  ∧ line_start before ∧ assignment_key key ∧ v ≠ EmptyString ∧ no_quote v.

(** The assignment at [before] is the first one of [content]. *)
Definition first_assignment (content before key v rest : string) : Prop :=
  assignment_at content before key v rest
  ∧ ∀ before' key' v' rest',
      assignment_at content before' key' v' rest' →
      (String.length before ≤ String.length before')%nat.

(** [content] has a line that starts with [version.workspace = true]. *)
Definition inherits (content : string) : Prop :=
  ∃ before key rest,
    content = before +:+ key +:+ rest ∧ line_start before ∧ inheritance key.

(** What a step may do to the tree and the report: change the text of files
    among [targets], and add lines. *)
Definition within (targets : list string) (st st' : SyncVersions.State) : Prop :=
  dom (SyncVersions.files st') =@{gset string} dom (SyncVersions.files st)
  ∧ (∀ p, p ∉ targets → SyncVersions.files st' !! p = SyncVersions.files st !! p)
  ∧ ∃ lines, SyncVersions.printed st' = SyncVersions.printed st ++ lines.

(** The files [main] is written to update. *)
Definition main_targets (lib : SyncVersions.Lib) : list string :=
  SyncVersions.glob_crates lib
  ++ ["src-tauri/Cargo.toml"; "package.json"; "src-tauri/tauri.conf.json"].

(** The JSON files [main] updates. *)
Definition json_targets : list string := ["package.json"; "src-tauri/tauri.conf.json"].

(** A manifest in which [update_cargo_toml] finds nothing to change: it is
    one the function skips, or its first assignment holds [version]. *)
Definition settled (version content : string) : Prop :=
  negb (SyncVersions.uses_workspace true content)
  && bool_decide (is_Some (SyncVersions.find_assignment true content)) = false
  ∨ ∃ before key rest,
      SyncVersions.find_assignment true content = Some (before, key, version, rest).

Definition settled_at (version : string) (fs : gmap string string) (path : string)
  : Prop :=
  ∃ content, fs !! path = Some content ∧ settled version content.

(** A JSON file in which [update_json] finds nothing to change: it is the
    text the function writes for the value it reads. *)
Definition json_settled_at (lib : SyncVersions.Lib) (version : string)
    (fs : gmap string string) (path : string) : Prop :=
  ∃ content data,
    fs !! path = Some content
    ∧ SyncVersions.json_load lib content = Ok data
    ∧ SyncVersions.set_version data version = Ok data
    ∧ SyncVersions.json_dumps lib data +:+ String SyncVersions.newline EmptyString
      = content.

(** [json.load] reads back what [update_json] writes for the JSON files of
    [st]: the law of the library, at the values a run meets. *)
Definition reads_back (lib : SyncVersions.Lib) (version : string)
    (st : SyncVersions.State) : Prop :=
  ∀ path content data data',
    path ∈ json_targets →
    SyncVersions.files st !! path = Some content →
    SyncVersions.json_load lib content = Ok data →
    SyncVersions.set_version data version = Ok data' →
    SyncVersions.json_load lib
      (SyncVersions.json_dumps lib data' +:+ String SyncVersions.newline EmptyString)
    = Ok data'.

(** A step that succeeds and changes no file when the files are [fs]. *)
Definition quiet (fs : gmap string string) (c : SyncVersions.M unit) : Prop :=
  ∀ st, SyncVersions.files st = fs →
    ∃ lines,
      c st = (Ok (), {| SyncVersions.files := fs;
                        SyncVersions.printed := SyncVersions.printed st ++ lines |}).
(** ** Sample manifests *)

(** The lines of a text, each ended by a line feed. *)
Fixpoint text (lines : list string) : string :=
  match lines with
  | [] => EmptyString
  | l :: rest => l +:+ String SyncVersions.newline (text rest)
  end.

(** A workspace manifest at version 1.2.3. *)
Definition root_manifest : string :=
  text ["[workspace]";
        "members = [" +:+ quoted "crates/*" +:+ "]";
        "";
        "[workspace.package]";
        "edition = " +:+ quoted "2021";
        "version = " +:+ quoted "1.2.3"].

(** A workspace manifest that names no version. *)
Definition bare_manifest : string :=
  text ["[workspace]";
        "members = [" +:+ quoted "crates/*" +:+ "]"].

(** A crate that takes its version from the workspace. *)
Definition inheriting_manifest : string :=
  text ["[package]";
        "name = " +:+ quoted "gglib-core";
        "version.workspace = true"].

(** A crate with a version of its own, and a dependency with one. *)
Definition pinned_manifest : string :=
  text ["[package]";
        "name = " +:+ quoted "app";
        "version   =  " +:+ quoted "0.9.0";
        "";
        "[dependencies.serde]";
        "version = " +:+ quoted "1"].

(** The members of a package description. *)
Definition sample_package : list (string * SyncVersions.Json) :=
  [("name", SyncVersions.JString "app");
   ("version", SyncVersions.JString "0.9.0");
   ("private", SyncVersions.JBool true)].

(** A stand-in for [json.dumps] on an object of strings and booleans. *)
Definition sample_dumps (d : SyncVersions.Json) : string :=
  let scalar v :=
    match v with
    | SyncVersions.JString s => quoted s
    | SyncVersions.JBool true => "true"
    | SyncVersions.JBool false => "false"
    | SyncVersions.JNumber t => t
    | _ => "null"
    end in
  match d with
  | SyncVersions.JObject members =>
      "{" +:+ foldr (λ '(k, v) acc, quoted k +:+ ": " +:+ scalar v +:+ "; " +:+ acc)
                    "}" members
  | v => scalar v
  end.

(** A stand-in for [json.load]: the members [sample_dumps] writes, read up
    to the closing brace. *)
Fixpoint sample_members (fuel : nat) (s : string)
  : option (list (string * SyncVersions.Json)) :=
  match fuel with
  | O => None
  | S fuel =>
      if PyStr.startswith "}" s then Some []
      else
        match s with
        | String c r =>
            if bool_decide (c = SyncVersions.dquote) then
              match SyncVersions.until_quote r with
              | Some (k, r1) =>
                  if PyStr.startswith ": " r1 then
                    let r2 := PyStr.drop 2 r1 in
                    let scalar :=
                      if PyStr.startswith "true" r2
                      then Some (SyncVersions.JBool true, PyStr.drop 4 r2)
                      else if PyStr.startswith "false" r2
                      then Some (SyncVersions.JBool false, PyStr.drop 5 r2)
                      else
                        match r2 with
                        | String c2 r3 =>
                            if bool_decide (c2 = SyncVersions.dquote) then
                              match SyncVersions.until_quote r3 with
                              | Some (v, r4) => Some (SyncVersions.JString v, r4)
                              | None => None
                              end
                            else None
                        | EmptyString => None
                        end in
                    match scalar with
                    | Some (v, r5) =>
                        if PyStr.startswith "; " r5 then
                          match sample_members fuel (PyStr.drop 2 r5) with
                          | Some members => Some ((k, v) :: members)
                          | None => None
                          end
                        else None
                    | None => None
                    end
                  else None
              | None => None
              end
            else None
        | EmptyString => None
        end
  end.

Definition sample_load (s : string) : result SyncVersions.Json :=
  match s with
  | String "{" r =>
      match sample_members (S (String.length r)) r with
      | Some members => Ok (SyncVersions.JObject members)
      | None => Raise (ValueError "JSONDecodeError")
      end
  | _ => Raise (ValueError "JSONDecodeError")
  end.

Definition sample_lib : SyncVersions.Lib :=
  {| SyncVersions.json_load := sample_load;
     SyncVersions.json_dumps := sample_dumps;
     SyncVersions.expand_escapes := λ _ _, Raise (Failure "bad escape");
     SyncVersions.glob_crates := ["crates/b/Cargo.toml"; "crates/a/Cargo.toml"] |}.

Definition sample_state : SyncVersions.State :=
  {| SyncVersions.files :=
       {[ "Cargo.toml" := root_manifest;
          "crates/a/Cargo.toml" := inheriting_manifest;
          "crates/b/Cargo.toml" := pinned_manifest;
          "src-tauri/Cargo.toml" := pinned_manifest;
          "package.json" := sample_dumps (SyncVersions.JObject sample_package);
          "src-tauri/tauri.conf.json" := "{}" ]};
     SyncVersions.printed := [] |}.

(** The same tree with a workspace manifest that names no version. *)
Definition bare_state : SyncVersions.State :=
  {| SyncVersions.files := <["Cargo.toml" := bare_manifest]> (SyncVersions.files sample_state);
     SyncVersions.printed := [] |}.
(** ** The parser *)

(** The string operations on a few inputs. *)
Example strip_entry : PyStr.strip "  /a.txt " = "/a.txt".
Proof. reflexivity. Qed.

Example lstrip_slashes_and_spaces : PyStr.lstrip "/ " "/ /a b" = "a b".
Proof. reflexivity. Qed.

Example rsplit1_last_occurrence : PyStr.rsplit1 "::" "a::b::5" = ["a::b"; "5"].
Proof. reflexivity. Qed.

Example rsplit1_overlap : PyStr.rsplit1 "::" "a:::5" = ["a:"; "5"].
Proof. reflexivity. Qed.

Example rsplit1_absent : PyStr.rsplit1 "=" "a.txt" = ["a.txt"].
Proof. reflexivity. Qed.

Example int_plain : PyStr.int "1024" = Some 1024.
Proof. reflexivity. Qed.

Example int_sign_blank_underscore : PyStr.int " -1_000" = Some (-1000).
Proof. reflexivity. Qed.

Example int_rejects :
  PyStr.int "" = None ∧ PyStr.int "12a" = None ∧ PyStr.int "1__0" = None
  ∧ PyStr.int "_1" = None ∧ PyStr.int "1_" = None ∧ PyStr.int "- 1" = None
  ∧ PyStr.int "1.5" = None.
Proof. repeat split; reflexivity. Qed.

Section Strings.

Implicit Types s sep p q : string.

Lemma startswith_app sep s :
  PyStr.startswith sep s = true ↔ ∃ b, s = sep +:+ b.
Proof.
  revert s. induction sep as [|a sep IH]; intros s; simpl.
  - split; [eauto | done].
  - destruct s as [|b s]; simpl.
    + split; [done | intros [? ?]; done].
    + rewrite andb_true_iff, bool_decide_eq_true, IH. split.
      * intros [-> [r ->]]. eauto.
      * intros [r [= -> ->]]. eauto.
Qed.

Lemma drop_app sep b : PyStr.drop (String.length sep) (sep +:+ b) = b.
Proof. induction sep; simpl; auto. Qed.

Lemma occurs_at_0 sep s : occurs_at sep s 0 ↔ PyStr.startswith sep s = true.
Proof.
  rewrite startswith_app. unfold occurs_at. split.
  - intros ([|??] & b & -> & Hl); [eauto | done].
  - intros [b ->]. by exists EmptyString, b.
Qed.

Lemma occurs_at_S sep c s i : occurs_at sep (String c s) (S i) ↔ occurs_at sep s i.
Proof.
  unfold occurs_at. split.
  - intros ([|c' a] & b & Heq & Hl); [done|].
    simpl in *. injection Heq as -> ->. exists a, b. split; [done | lia].
  - intros (a & b & -> & <-). by exists (String c a), b.
Qed.

Lemma occurs_at_empty sep i : sep ≠ EmptyString → ¬ occurs_at sep EmptyString i.
Proof.
  intros Hsep (a & b & Heq & _). destruct a; [destruct sep|]; done.
Qed.

Lemma contains_occurs sep s :
  sep ≠ EmptyString → PyStr.contains sep s = true ↔ ∃ i, occurs_at sep s i.
Proof.
  intros Hsep. induction s as [|c s IH].
  - simpl. rewrite orb_false_r, <- occurs_at_0. split; [eauto|].
    intros [i Hi]. by apply occurs_at_empty in Hi.
  - cbn [PyStr.contains]. rewrite orb_true_iff, IH, <- occurs_at_0. split.
    + intros [H | [i H]]; [eauto|]. exists (S i). by apply occurs_at_S.
    + intros [[|i] H]; [by left|]. right. exists i. by apply occurs_at_S in H.
Qed.

Lemma rpartition_None sep s :
  sep ≠ EmptyString → PyStr.rpartition sep s = None ↔ ∀ i, ¬ occurs_at sep s i.
Proof.
  intros Hsep. induction s as [|c s IH].
  - simpl. split; [|done]. intros _ i. by apply occurs_at_empty.
  - cbn [PyStr.rpartition]. destruct (PyStr.rpartition sep s) as [[p q]|].
    + split; [done|]. intros Hno. exfalso.
      assert (¬ ∀ i, ¬ occurs_at sep s i) as Hn by (rewrite <- IH; done).
      apply Hn. intros i Hi. apply (Hno (S i)). by apply occurs_at_S.
    + destruct (PyStr.startswith sep (String c s)) eqn:Hst.
      * split; [done|]. intros Hno. exfalso. apply (Hno 0%nat). by apply occurs_at_0.
      * split; [|done]. intros _ [|i] Hi.
        -- apply occurs_at_0 in Hi. congruence.
        -- apply occurs_at_S in Hi. revert Hi. by apply IH.
Qed.

Lemma rpartition_Some sep s p q :
  sep ≠ EmptyString → PyStr.rpartition sep s = Some (p, q) → split_at_last sep s p q.
Proof.
  intros Hsep. revert p q. induction s as [|c s IH]; intros p q; [done|].
  cbn [PyStr.rpartition]. destruct (PyStr.rpartition sep s) as [[p' q']|] eqn:Hr.
  - intros [= <- <-]. destruct (IH _ _ eq_refl) as [-> Hlast]. split; [done|].
    intros [|i] Hi; simpl; [lia|]. apply occurs_at_S in Hi. apply Hlast in Hi. lia.
  - destruct (PyStr.startswith sep (String c s)) eqn:Hst; [|done].
    intros [= <- <-]. apply startswith_app in Hst as [b Hb]. split.
    + rewrite Hb, drop_app. done.
    + intros [|i] Hi; simpl; [lia|]. apply occurs_at_S in Hi.
      exfalso. revert Hi. by apply rpartition_None.
Qed.

Lemma lstrip_without_leading chars s :
  without_leading chars s (PyStr.lstrip chars s).
Proof.
  unfold PyStr.lstrip. induction s as [|c s IH]; simpl.
  - split; [|done]. exists EmptyString. split; [done | constructor].
  - unfold PyStr.in_chars at 1. case_bool_decide as Hc.
    + destruct IH as [(pre & Hpre & Hall) Hhd]. split; [|done].
      exists (String c pre). split; [exact (f_equal (String c) Hpre)|]. simpl. by constructor.
    + split; [|done]. exists EmptyString. split; [done | constructor].
Qed.

Lemma truthy_false s : PyStr.truthy s = false ↔ s = EmptyString.
Proof. destruct s; simpl; split; done. Qed.

End Strings.

Section Parser.

Implicit Types raw : string.
Implicit Types specs acc : list FileSpec.

Lemma sep1_nonempty : "::" ≠ EmptyString.
Proof. done. Qed.

Lemma sep2_nonempty : "=" ≠ EmptyString.
Proof. done. Qed.

(** The unpacking of [rsplit]'s result never fails: the split is only taken
    when the separator occurs. *)
Lemma split_spec_Ok raw :
  ∃ p sz, split_spec ["::"; "="] raw = Ok (p, sz)
    ∧ ((∃ q, split_at_last "::" raw p q ∧ sz = PyStr.int q)
       ∨ ((∀ i, ¬ occurs_at "::" raw i)
          ∧ ∃ q, split_at_last "=" raw p q ∧ sz = PyStr.int q)
       ∨ ((∀ i, ¬ occurs_at "::" raw i) ∧ (∀ i, ¬ occurs_at "=" raw i)
          ∧ p = raw ∧ sz = None)).
Proof.
  cbn [split_spec]. unfold PyStr.rsplit1.
  destruct (PyStr.contains "::" raw) eqn:Hc1.
  - apply contains_occurs in Hc1; [|done].
    destruct (PyStr.rpartition "::" raw) as [[p q]|] eqn:Hr.
    + exists p, (PyStr.int q). split; [done|]. left. exists q.
      split; [|done]. by apply rpartition_Some.
    + exfalso. destruct Hc1 as [i Hi]. revert Hi. by apply rpartition_None.
  - assert (∀ i, ¬ occurs_at "::" raw i) as Hno1.
    { intros i Hi. assert (PyStr.contains "::" raw = true); [|congruence].
      apply contains_occurs; [done | eauto]. }
    destruct (PyStr.contains "=" raw) eqn:Hc2.
    + apply contains_occurs in Hc2; [|done].
      destruct (PyStr.rpartition "=" raw) as [[p q]|] eqn:Hr.
      * exists p, (PyStr.int q). split; [done|]. right; left. split; [done|].
        exists q. split; [|done]. by apply rpartition_Some.
      * exfalso. destruct Hc2 as [i Hi]. revert Hi. by apply rpartition_None.
    + exists raw, None. split; [done|]. right; right. repeat split; try done.
      intros i Hi. assert (PyStr.contains "=" raw = true); [|congruence].
      apply contains_occurs; [done | eauto].
Qed.

Lemma kept_entries_cons raw rest :
  kept_entries (raw :: rest) =
    if PyStr.truthy (PyStr.strip raw) then PyStr.strip raw :: kept_entries rest
    else kept_entries rest.
Proof.
  unfold kept_entries. rewrite fmap_cons, filter_cons.
  destruct (PyStr.strip raw); case_decide; simpl; done.
Qed.

Lemma parse_loop_Ok raw_values acc specs :
  parse_loop raw_values acc = Ok specs →
  ∃ new, specs = acc ++ new
    ∧ Forall2 entry_parsed (kept_entries raw_values) new
    ∧ Forall (λ raw, ¬ normalizes_to_empty raw) (kept_entries raw_values).
Proof.
  revert acc. induction raw_values as [|raw rest IH]; intros acc; cbn [parse_loop].
  - destruct acc; [done|]. intros [= <-]. exists []. rewrite app_nil_r.
    repeat split; constructor.
  - rewrite kept_entries_cons.
    destruct (PyStr.truthy (PyStr.strip raw)) eqn:Htr; cbn [negb]; [|apply IH].
    destruct (split_spec_Ok (PyStr.strip raw)) as (p & sz & Hsplit & Hcases).
    rewrite Hsplit.
    destruct (PyStr.truthy (PyStr.lstrip "/ " p)) eqn:Hn; cbn [negb]; [|done].
    intros Hloop. apply IH in Hloop as (new & -> & Hnew & Hnon).
    eexists (_ :: new). split; [by rewrite <- app_assoc|]. split.
    + constructor; [|done]. split; simpl.
      { intros Hp. by rewrite Hp in Hn. }
      pose proof (lstrip_without_leading "/ " p) as Hstrip.
      destruct Hcases as [(q & ? & ->) | [(? & q & ? & ->) | (? & ? & -> & ->)]].
      * left. by exists p, q.
      * right; left. split; [done|]. by exists p, q.
      * right; right. done.
    + constructor; [|done]. intros (p' & sz' & Hs' & Hempty).
      rewrite Hsplit in Hs'. injection Hs' as <- <-. by rewrite Hempty in Hn.
Qed.

Lemma parse_loop_Raise raw_values acc e :
  parse_loop raw_values acc = Raise e →
  ∃ msg, e = ValueError msg
    ∧ ((acc = [] ∧ kept_entries raw_values = [])
       ∨ Exists normalizes_to_empty (kept_entries raw_values)).
Proof.
  revert acc. induction raw_values as [|raw rest IH]; intros acc; cbn [parse_loop].
  - destruct acc; [|done]. intros [= <-]. eauto.
  - rewrite kept_entries_cons.
    destruct (PyStr.truthy (PyStr.strip raw)) eqn:Htr; cbn [negb]; [|apply IH].
    destruct (split_spec_Ok (PyStr.strip raw)) as (p & sz & Hsplit & _).
    rewrite Hsplit.
    destruct (PyStr.truthy (PyStr.lstrip "/ " p)) eqn:Hn; cbn [negb].
    + intros Hloop. apply IH in Hloop as (msg & -> & [[Hacc _] | Hex]).
      * by destruct acc.
      * exists msg. split; [done|]. right. by constructor.
    + intros [= <-]. eexists. split; [done|]. right. constructor.
      exists p, sz. split; [done|]. by apply truthy_false.
Qed.

Lemma parse_loop_nonempty raw_values acc : parse_loop raw_values acc ≠ Ok [].
Proof.
  revert acc. induction raw_values as [|raw rest IH]; intros acc; cbn [parse_loop].
  - by destruct acc.
  - destruct (negb _); [apply IH|].
    destruct (split_spec _ _) as [[p sz]|]; [|done].
    destruct (negb _); [done | apply IH].
Qed.

(** Parsing fails exactly on the invalid lists, and then with [ValueError]. *)
Lemma parse_file_specs_invalid raw_values :
  invalid_file_specs raw_values ↔ ∃ msg, parse_file_specs raw_values = Raise (ValueError msg).
Proof.
  unfold parse_file_specs, invalid_file_specs. split.
  - intros Hinv. destruct (parse_loop raw_values []) as [specs|e] eqn:Hloop.
    + exfalso. pose proof Hloop as Hloop'.
      apply parse_loop_Ok in Hloop' as (new & -> & Hall & Hnon).
      destruct Hinv as [Hkept | Hex].
      * rewrite Hkept in Hall. apply Forall2_nil_inv_l in Hall as ->.
        by apply parse_loop_nonempty in Hloop.
      * apply Exists_exists in Hex as (raw & Hin & Hraw).
        rewrite Forall_forall in Hnon. by apply (Hnon raw).
    + apply parse_loop_Raise in Hloop as (msg & -> & _). eauto.
  - intros [msg Hloop]. apply parse_loop_Raise in Hloop as (_ & _ & [[_ ?] | ?]); eauto.
Qed.

End Parser.

(** C6, as amended.  When parsing succeeds, the specs come in input order,
    one for each entry that is not blank once trimmed; an entry is split at
    the last occurrence of the first delimiter it contains, ["::"] before
    ["="]; the path is the text before the delimiter (the whole entry when
    there is none) without its leading ['/'] and [' '] characters; the size
    is what [int] makes of the text after the delimiter, unset when [int]
    rejects it or when there is no delimiter. *)
Theorem parse_file_specs_entries (raw_values : list string) (specs : list FileSpec) :
  parse_file_specs raw_values = Ok specs →
  specs ≠ [] ∧ Forall2 entry_parsed (kept_entries raw_values) specs.
Proof.
  unfold parse_file_specs. intros Hloop. split.
  - intros ->. by apply parse_loop_nonempty in Hloop.
  - by apply parse_loop_Ok in Hloop as (new & -> & Hall & _).
Qed.

(** The two entries the spec gives as examples, a blank one between them, and
    an entry whose size does not parse. *)
Lemma parse_file_specs_entries_witness :
  parse_file_specs ["a/b.txt::1024"; "   "; "  /a.txt "; "w=1=x"]
  = Ok [{| path := "a/b.txt"; size := Some 1024 |};
        {| path := "a.txt"; size := None |};
        {| path := "w=1"; size := None |}]
  ∧ Forall2 entry_parsed
      (kept_entries ["a/b.txt::1024"; "   "; "  /a.txt "; "w=1=x"])
      [{| path := "a/b.txt"; size := Some 1024 |};
       {| path := "a.txt"; size := None |};
       {| path := "w=1"; size := None |}].
Proof.
  split; [reflexivity|].
  apply (parse_file_specs_entries ["a/b.txt::1024"; "   "; "  /a.txt "; "w=1=x"]).
  reflexivity.
Defined.

(** C6 fails as stated: the entry ["/<TAB>a.txt"] parses to a path that still
    starts with whitespace, the tab after the slash. *)
Lemma parse_keeps_tab_after_slash :
  parse_file_specs [String "/" (String "009" "a.txt")]
  = Ok [{| path := String "009" "a.txt"; size := None |}]
  ∧ PyStr.is_space "009" = true.
Proof. split; reflexivity. Qed.

(** ** The progress bar *)

Section ProgressBar.

Implicit Types b self : Bar.
Implicit Types w : World.

Lemma emit_progress file downloaded total w :
  emit "progress"
    [("file", JStr file); ("downloaded", JInt downloaded); ("total", JInt total)] w
  = (Ok (), set_log (λ l, l ++ [Out (progress_event file downloaded total)]) w).
Proof. reflexivity. Qed.

Lemma _emit_unfold self force clk w :
  JsonProgressBar._emit self force clk w =
    if throttled self force clk then (Ok self, w)
    else (Ok (emitted_at self (now clk)), after_emit (bar_event self) (later clk) w).
Proof.
  unfold JsonProgressBar._emit, throttled, too_soon.
  destruct (negb force && _); reflexivity.
Qed.


Lemma __init___unfold kw desc_attr clk w :
  JsonProgressBar.__init__ kw desc_attr clk w =
    (Ok (emitted_at (fresh_bar kw desc_attr) (now clk)),
     after_emit (bar_event (fresh_bar kw desc_attr)) (later clk) w).
Proof.
  unfold JsonProgressBar.__init__.
  assert (or_str (Some (or_str (tqdm.desc kw) "")) "" = or_str (tqdm.desc kw) "") as ->.
  { unfold or_str. destruct (tqdm.desc kw) as [[|??]|]; reflexivity. }
  apply _emit_unfold.
Qed.

Lemma counted_eq self k :
  (if tqdm.disable (base self)
   then counted self k
   else {| base := tqdm.update (base self) k;
           _label := _label self; _last_emit := _last_emit self |})
  = counted self k.
Proof.
  unfold tqdm.update, counted. destruct (tqdm.disable (base self)) eqn:Hd; reflexivity.
Qed.

Lemma update_unfold self k clk w :
  JsonProgressBar.update self k clk w =
    if throttled (counted self k) false clk then (Ok (counted self k), w)
    else (Ok (emitted_at (counted self k) (now clk)),
          after_emit (bar_event (counted self k)) (later clk) w).
Proof.
  unfold JsonProgressBar.update. fold (counted self k).
  rewrite counted_eq. apply _emit_unfold.
Qed.

Lemma effects_of_app {A} (c : M A) w l :
  log (c w).2 = log w ++ l → effects_of c w = l.
Proof. unfold effects_of. intros ->. by rewrite drop_app_length. Qed.

Lemma effects_of_nil {A} (c : M A) w :
  log (c w).2 = log w → effects_of c w = [].
Proof. intros H. apply effects_of_app. by rewrite app_nil_r. Qed.

Lemma log_after_emit m t w : log (after_emit m t w) = log w ++ [Out m].
Proof. reflexivity. Qed.

Lemma update_effects self k clk w :
  effects_of (JsonProgressBar.update self k clk) w =
    if throttled (counted self k) false clk then []
    else [Out (bar_event (counted self k))].
Proof.
  destruct (throttled _ _ _) eqn:Ht.
  - apply effects_of_nil. by rewrite update_unfold, Ht.
  - apply effects_of_app. by rewrite update_unfold, Ht.
Qed.

Lemma __init___effects kw desc_attr clk w :
  effects_of (JsonProgressBar.__init__ kw desc_attr clk) w =
    [Out (bar_event (fresh_bar kw desc_attr))].
Proof. apply effects_of_app. by rewrite __init___unfold. Qed.


Lemma bind_Ok {A B} (c : M A) (k : A → M B) w a w' :
  c w = (Ok a, w') → (c ≫= k) w = k a w'.
Proof. unfold mbind, M_bind, bind. by intros ->. Qed.

Lemma bind_Raise {A B} (c : M A) (k : A → M B) w e w' :
  c w = (Raise e, w') → (c ≫= k) w = (Raise e, w').
Proof. unfold mbind, M_bind, bind. by intros ->. Qed.

Lemma updates_cons self k clk rest w :
  updates self ((k, clk) :: rest) w =
    if throttled (counted self k) false clk then updates (counted self k) rest w
    else updates (emitted_at (counted self k) (now clk)) rest
           (after_emit (bar_event (counted self k)) (later clk) w).
Proof.
  cbn [updates]. destruct (throttled _ _ _) eqn:Ht;
    (erewrite bind_Ok; [reflexivity|]); by rewrite update_unfold, Ht.
Qed.

(** A run of updates never raises; it only appends to the log. *)
Lemma updates_Ok self ks w :
  ∃ b' w' l, updates self ks w = (Ok b', w') ∧ log w' = log w ++ l.
Proof.
  revert self w. induction ks as [|[k clk] rest IH]; intros self w.
  - exists self, w, []. by rewrite app_nil_r.
  - rewrite updates_cons. destruct (throttled _ _ _); [apply IH|].
    edestruct IH as (b' & w' & l & -> & Hl). do 3 eexists. split; [done|].
    rewrite Hl, log_after_emit, <- app_assoc. done.
Qed.

Lemma emission_readings_cons self k clk rest w :
  emission_readings self ((k, clk) :: rest) w =
    if throttled (counted self k) false clk
    then emission_readings (counted self k) rest w
    else now clk :: emission_readings (emitted_at (counted self k) (now clk)) rest
                      (after_emit (bar_event (counted self k)) (later clk) w).
Proof.
  cbn [emission_readings]. rewrite update_effects, update_unfold.
  by destruct (throttled _ _ _).
Qed.

(** The private timestamp is the reading of the bar's latest emission. *)
Lemma updates_last_emit self ks w b' w' :
  updates self ks w = (Ok b', w') →
  _last_emit b' = default (_last_emit self) (last (emission_readings self ks w)).
Proof.
  revert self w. induction ks as [|[k clk] rest IH]; intros self w.
  - by intros [= <- <-].
  - rewrite updates_cons, emission_readings_cons.
    destruct (throttled _ _ _); intros Hrun; apply IH in Hrun; rewrite Hrun; [done|].
    rewrite last_cons. by destruct (last _).
Qed.

Lemma updates_counts self ks w b' w' :
  updates self ks w = (Ok b', w') →
  tqdm.n (base b') = tqdm.n (base self) + total_bytes ks
  ∧ tqdm.total (base b') = tqdm.total (base self)
  ∧ tqdm.disable (base b') = tqdm.disable (base self)
  ∧ _label b' = _label self.
Proof.
  revert self w. induction ks as [|[k clk] rest IH]; intros self w.
  - intros [= <- <-]. simpl. split; [lia | done].
  - rewrite updates_cons.
    destruct (throttled _ _ _); intros Hrun; apply IH in Hrun as (Hn & Ht & Hd & Hl);
      simpl in *; rewrite Hn, Ht, Hd, Hl; (split; [lia | done]).
Qed.


(** Updates that all come within the interval of the last emission send
    nothing. *)
Lemma updates_quiet self ks w :
  Forall (λ kc : Z * Clock, too_soon (_last_emit self) (now kc.2) = true) ks →
  log (updates self ks w).2 = log w.
Proof.
  revert self. induction ks as [|[k clk] rest IH]; intros self Hq; [done|].
  apply Forall_cons in Hq as [Hk Hrest]. rewrite updates_cons.
  unfold throttled. cbn [negb andb counted _last_emit snd] in *. rewrite Hk. by apply IH.
Qed.

Lemma bar_life_unfold kw desc_attr clk ks w :
  bar_life kw desc_attr clk ks w =
    updates (emitted_at (fresh_bar kw desc_attr) (now clk)) ks
      (after_emit (bar_event (fresh_bar kw desc_attr)) (later clk) w).
Proof. unfold bar_life. erewrite bind_Ok; [done|]. apply __init___unfold. Qed.

End ProgressBar.

(** C2, as amended.  For every bar and every non-forced call of [update], a
    progress event goes out if and only if the time since the reading at
    which this bar last emitted, computed as the script computes it (the
    float difference of the two readings), is not below the minimum interval
    0.2; and a run of updates for which it is below sends no event at all.
    [previous_emission] is read off the output of the bar's life so far, its
    construction included. *)
Theorem update_emits_iff_interval_elapsed
    (kw : tqdm.kwargs) (desc_attr : option string) (clk0 : Clock)
    (ks : list (Z * Clock)) (k : Z) (clk : Clock) (quiet : list (Z * Clock))
    (w : World) :
  let prev := previous_emission kw desc_attr clk0 ks w in
  Forall (λ kc : Z * Clock, too_soon prev (now kc.2) = true) quiet →
  ∃ b w1,
    bar_life kw desc_attr clk0 ks w = (Ok b, w1)
    ∧ effects_of (JsonProgressBar.update b k clk) w1 =
        (if too_soon prev (now clk) then [] else [Out (bar_event (counted b k))])
    ∧ effects_of (updates b quiet) w1 = [].
Proof.
  intros prev Hquiet.
  destruct (updates_Ok (emitted_at (fresh_bar kw desc_attr) (now clk0)) ks
              (after_emit (bar_event (fresh_bar kw desc_attr)) (later clk0) w))
    as (b & w1 & l & Hrun & _).
  assert (_last_emit b = prev) as Hprev.
  { apply updates_last_emit in Hrun. rewrite Hrun.
    unfold prev, previous_emission. by rewrite __init___unfold. }
  exists b, w1. split; [by rewrite bar_life_unfold|]. split.
  - rewrite update_effects. unfold throttled.
    cbn [negb andb counted _last_emit]. by rewrite Hprev.
  - apply effects_of_nil, updates_quiet. by rewrite Hprev.
Qed.

(** A bar built at 1000 ms that emits again at 1250 ms: updates at 1300 ms
    and 1449 ms stay silent, the one at 1500 ms reports. *)
Lemma update_emits_iff_interval_elapsed_witness :
  ∃ b w1,
    bar_life sample_kwargs None (at_ms 1000)
      [(10, at_ms 1100); (10, at_ms 1250)] (initial_world sample_env) = (Ok b, w1)
    ∧ effects_of (JsonProgressBar.update b 1 (at_ms 1500)) w1 =
        [Out (progress_event "a.bin" 21 100)]
    ∧ effects_of (updates b [(5, at_ms 1300); (5, at_ms 1449)]) w1 = [].
Proof.
  destruct (update_emits_iff_interval_elapsed sample_kwargs None (at_ms 1000)
              [(10, at_ms 1100); (10, at_ms 1250)] 1 (at_ms 1500)
              [(5, at_ms 1300); (5, at_ms 1449)] (initial_world sample_env))
    as (b & w1 & Hrun & Hemit & Hquiet).
  - repeat constructor.
  - exists b, w1. split; [exact Hrun|]. split; [|exact Hquiet].
    rewrite Hemit. vm_compute in Hrun. injection Hrun as <- _. reflexivity.
Defined.

(** C2 fails as stated: 1.25 and 1.45 are the readings of a clock 1250 ms
    and 1450 ms after its origin, 200 ms apart; their difference as the
    script computes it, in floats, is below 0.2, and an update at the second
    reading after an emission at the first sends no event. *)
Lemma update_is_silent_after_200_ms :
  ms 1250 = 1.25%float ∧ ms 1450 = 1.45%float
  ∧ (1.45 - 1.25 <? MIN_PROGRESS_INTERVAL_S)%float = true
  ∧ ∃ b w1,
      bar_life sample_kwargs None (at_ms 1000)
        [(10, at_ms 1100); (10, at_ms 1250)] (initial_world sample_env) = (Ok b, w1)
      ∧ stdout w1 = [progress_event "a.bin" 0 100; progress_event "a.bin" 20 100]
      ∧ _last_emit b = 1.25%float
      ∧ effects_of (JsonProgressBar.update b 1 (at_ms 1450)) w1 = [].
Proof.
  split; [reflexivity|]. split; [reflexivity|]. split; [reflexivity|].
  do 2 eexists. split; [vm_compute; reflexivity|]. repeat split; reflexivity.
Qed.

(** ** Byte accounting *)

Section Accounting.

Implicit Types self b : Bar.
Implicit Types ks : list (Z * Clock).

Lemma downloads_bar_event b : downloads [Out (bar_event b)] = [tqdm.n (base b)].
Proof. reflexivity. Qed.

Lemma downloads_app l1 l2 : downloads (l1 ++ l2) = downloads l1 ++ downloads l2.
Proof. apply omap_app. Qed.

Lemma updates_downloads self ks w :
  ∃ b' w' l,
    updates self ks w = (Ok b', w') ∧ log w' = log w ++ l
    ∧ downloads l `sublist_of` running_totals (tqdm.n (base self)) ks.
Proof.
  revert self w. induction ks as [|[k clk] rest IH]; intros self w.
  - exists self, w, []. rewrite app_nil_r. done.
  - rewrite updates_cons. cbn [running_totals]. destruct (throttled _ _ _).
    + destruct (IH (counted self k) w) as (b' & w' & l & Hrun & Hlog & Hsub).
      exists b', w', l. split; [done|]. split; [done|]. by apply sublist_cons.
    + edestruct IH as (b' & w' & l & Hrun & Hlog & Hsub).
      exists b', w', (Out (bar_event (counted self k)) :: l).
      split; [exact Hrun|]. split.
      * rewrite Hlog, log_after_emit, <- app_assoc. done.
      * change (Out ?m :: l) with ([Out m] ++ l).
        rewrite downloads_app, downloads_bar_event. simpl. by apply sublist_skip.
Qed.

Lemma running_totals_sorted ks n0 ds :
  Forall (λ kc : Z * Clock, 0 ≤ kc.1) ks →
  ds `sublist_of` running_totals n0 ks →
  Forall (λ d, n0 ≤ d) ds ∧ Sorted Z.le ds.
Proof.
  intros Hks. revert n0 ds. induction Hks as [|[k clk] rest Hk Hrest IH]; intros n0 ds.
  - simpl. intros ->%sublist_nil_r. split; constructor.
  - cbn [running_totals]. simpl in Hk.
    intros [Hsub | (ds' & -> & Hsub)]%sublist_cons_r.
    + apply IH in Hsub as [Hlow Hsorted]. split; [|done].
      eapply Forall_impl; [exact Hlow|]. simpl. lia.
    + apply IH in Hsub as [Hlow Hsorted]. split.
      * constructor; [lia|]. eapply Forall_impl; [exact Hlow|]. simpl. lia.
      * constructor; [done|]. destruct Hlow; constructor. done.
Qed.

End Accounting.

(** C10. Every call of [update(k)] adds exactly [k] to the bar's byte count,
    in disabled mode too (where the base class keeps no count at all); over
    a run of updates with [k ≥ 0] the [downloaded] values of the progress
    events sent are running totals of the bytes reported, each the count
    after the update that sent it, and they never decrease. *)
Theorem update_counts_every_byte (self : Bar) (ks : list (Z * Clock)) (w : World) :
  Forall (λ kc : Z * Clock, 0 ≤ kc.1) ks →
  (∀ k clk w0, ∃ b1 w1,
      JsonProgressBar.update self k clk w0 = (Ok b1, w1)
      ∧ tqdm.n (base b1) = tqdm.n (base self) + k)
  ∧ (tqdm.disable (base self) = true →
     ∀ k, tqdm.n (tqdm.update (base self) k) = tqdm.n (base self))
  ∧ ∃ b' w',
      updates self ks w = (Ok b', w')
      ∧ tqdm.n (base b') = tqdm.n (base self) + total_bytes ks
      ∧ downloads (effects_of (updates self ks) w)
          `sublist_of` running_totals (tqdm.n (base self)) ks
      ∧ Sorted Z.le (downloads (effects_of (updates self ks) w)).
Proof.
  intros Hks. split; [|split].
  - intros k clk w0. rewrite update_unfold. destruct (throttled _ _ _); eauto.
  - intros Hd k. unfold tqdm.update. by rewrite Hd.
  - destruct (updates_downloads self ks w) as (b' & w' & l & Hrun & Hlog & Hsub).
    exists b', w'. split; [done|]. split; [by eapply updates_counts|].
    assert (effects_of (updates self ks) w = l) as ->.
    { apply effects_of_app. by rewrite Hrun. }
    split; [done|]. by eapply running_totals_sorted.
Qed.

(** A disabled bar fed 40 then 60 bytes, 300 ms apart: both updates report,
    with 40 and then 100 bytes. *)
Lemma update_counts_every_byte_witness :
  let self :=
    {| base := {| tqdm.n := 0; tqdm.total := Some 100; tqdm.disable := true |};
       _label := "a.bin"; _last_emit := ms 1000 |} in
  let ks := [(40, at_ms 1300); (60, at_ms 1600)] in
  downloads (effects_of (updates self ks) (initial_world sample_env)) = [40; 100]
  ∧ Sorted Z.le (downloads (effects_of (updates self ks) (initial_world sample_env))).
Proof.
  intros self ks. split; [reflexivity|].
  destruct (update_counts_every_byte self ks (initial_world sample_env))
    as (_ & _ & b' & w' & _ & _ & _ & Hsorted).
  - repeat constructor; done.
  - exact Hsorted.
Defined.

(** ** Bars do not see each other *)

Section Isolation.

Implicit Types c : BarCall.
Implicit Types w : World.

(** A call of the library never raises; it touches the bar it addresses and
    nothing else of the store, and what it sends is decided by that bar. *)
Lemma bar_call_step c w :
  ∃ w', bar_call c w = (Ok (), w')
    ∧ log w' = log w ++ (Out <$> (bar_step c (bars w !! owner c)).2)
    ∧ bars w' = store_after c (bars w)
    ∧ bars w' !! owner c = (bar_step c (bars w !! owner c)).1
    ∧ ∀ j, j ≠ owner c → bars w' !! j = bars w !! j.
Proof.
  unfold store_after.
  destruct c as [i kw desc_attr clk | i k clk]; cbn [bar_call owner bar_step].
  - erewrite bind_Ok by apply __init___unfold. eexists. split; [reflexivity|].
    cbn. split; [done|]. split; [done|]. split; [by rewrite lookup_insert_eq|].
    intros j Hj. by rewrite lookup_insert_ne.
  - destruct (bars w !! i) as [self|] eqn:Hi.
    + pose proof (update_unfold self k clk w) as Hup.
      destruct (throttled _ _ _); erewrite bind_Ok by exact Hup;
        (eexists; split; [reflexivity|]); cbn.
      * rewrite app_nil_r. split; [done|]. split; [done|].
        split; [by rewrite lookup_insert_eq|].
        intros j Hj. by rewrite lookup_insert_ne.
      * split; [done|]. split; [done|]. split; [by rewrite lookup_insert_eq|].
        intros j Hj. by rewrite lookup_insert_ne.
    + exists w. cbn. rewrite app_nil_r. done.
Qed.

Lemma bar_call_effects c w :
  effects_of (bar_call c) w = Out <$> (bar_step c (bars w !! owner c)).2.
Proof.
  destruct (bar_call_step c w) as (w' & Hrun & Hlog & _).
  apply effects_of_app. by rewrite Hrun.
Qed.

Lemma bar_call_other c w j :
  j ≠ owner c → bars (bar_call c w).2 !! j = bars w !! j.
Proof.
  destruct (bar_call_step c w) as (w' & Hrun & _ & _ & _ & Hother).
  rewrite Hrun. apply Hother.
Qed.

Lemma bar_call_owner c w :
  bars (bar_call c w).2 !! owner c = (bar_step c (bars w !! owner c)).1.
Proof.
  destruct (bar_call_step c w) as (w' & Hrun & _ & _ & Hown & _). by rewrite Hrun.
Qed.

End Isolation.

(** C9. The timestamp that throttles a bar is the bar's own: what the calls
    on bar [i] send is the same whether they run alone or interleaved with
    calls on other bars, and whatever the other bars, the module's global
    timestamp and the log hold when they start. *)
Theorem emitters_do_not_interfere (i : nat) (cs : list BarCall) (w w' : World) :
  bars w !! i = bars w' !! i →
  filter (λ e : nat * list Effect, e.1 = i) (emissions cs w)
  = emissions (filter (λ c, owner c = i) cs) w'.
Proof.
  revert w w'. induction cs as [|c rest IH]; intros w w' Hi; [done|].
  cbn [emissions]. rewrite !filter_cons. cbn [fst]. case_decide as Hc.
  - cbn [emissions]. f_equal.
    + rewrite !bar_call_effects, Hc. by rewrite Hi.
    + apply IH. subst i. rewrite !bar_call_owner. by rewrite Hi.
  - apply IH. rewrite bar_call_other by done. exact Hi.
Qed.

(** Two bars built 10 ms apart and updated in turn: bar 0 sends the same
    messages as when its two calls run alone. *)
Lemma emitters_do_not_interfere_witness :
  let cs :=
    [New 0 sample_kwargs None (at_ms 1000);
     New 1 sample_kwargs (Some "b.bin") (at_ms 1010);
     Update 1 5 (at_ms 1215);
     Update 0 7 (at_ms 1250);
     Update 1 5 (at_ms 1260)] in
  filter (λ e : nat * list Effect, e.1 = 0%nat) (emissions cs (initial_world sample_env))
  = emissions [New 0 sample_kwargs None (at_ms 1000); Update 0 7 (at_ms 1250)]
      (initial_world sample_env).
Proof.
  intros cs.
  exact (emitters_do_not_interfere 0 cs (initial_world sample_env)
           (initial_world sample_env) eq_refl).
Defined.

(** ** One download *)

Section Download.

Context (env : Env).

Implicit Types w : World.
Implicit Types evs : list message.

Lemma bar_step_progress c ob : Forall is_progress (bar_step c ob).2.
Proof.
  destruct c as [i kw desc_attr clk | i k clk]; cbn [bar_step].
  - by repeat constructor.
  - destruct ob as [self|]; [|constructor].
    destruct (throttled _ _ _); by repeat constructor.
Qed.

Lemma bar_events_progress cs σ : Forall is_progress (bar_events cs σ).
Proof.
  revert σ. induction cs as [|c rest IH]; intros σ; [constructor|].
  cbn [bar_events]. apply Forall_app. split; [apply bar_step_progress | apply IH].
Qed.

(** The library's calls on the bars never raise; what they send is decided
    by the calls and the bars. *)
Lemma bar_calls_run cs w :
  ∃ w', bar_calls cs w = (Ok (), w')
    ∧ log w' = log w ++ (Out <$> bar_events cs (bars w)).
Proof.
  revert w. induction cs as [|c rest IH]; intros w.
  - exists w. by rewrite app_nil_r.
  - destruct (bar_call_step c w) as (w1 & Hc & Hlog1 & Hbars1 & _).
    destruct (IH w1) as (w' & Hrest & Hlog).
    exists w'. cbn [bar_calls bar_events]. erewrite bind_Ok by exact Hc.
    split; [done|]. rewrite Hlog, Hlog1, Hbars1, fmap_app, app_assoc. done.
Qed.

Lemma omap_out_Out evs : omap out_of (Out <$> evs) = evs.
Proof. induction evs as [|m evs IH]; [done|]. cbn. by rewrite IH. Qed.

Lemma omap_hub_Out evs : omap hub_of (Out <$> evs) = [].
Proof. by induction evs. Qed.

Lemma omap_fs_Out evs : omap fs_of (Out <$> evs) = [].
Proof. by induction evs. Qed.

Lemma fs_call_unfold a w :
  fs_call env a w =
    (match fs env (length (fs_calls w)) a with
     | Some msg => Raise (Failure msg)
     | None => Ok ()
     end, set_log (λ l, l ++ [Fs a]) w).
Proof. unfold fs_call. by destruct (fs env _ a). Qed.

Lemma hf_hub_download_call_run c w :
  ∃ w',
    hf_hub_download_call env c w =
      (match outcome (hf_hub_download env (length (hub_calls w)) c) with
       | inl downloaded_path => Ok downloaded_path
       | inr msg => Raise (Failure msg)
       end, w')
    ∧ log w' = log w ++ Hub c
               :: (Out <$> bar_events (calls (hf_hub_download env (length (hub_calls w)) c))
                             (bars w)).
Proof.
  unfold hf_hub_download_call.
  destruct (bar_calls_run (calls (hf_hub_download env (length (hub_calls w)) c))
              (set_log (λ l, l ++ [Hub c]) w)) as (w' & Hbars & Hlog).
  exists w'. split.
  - erewrite bind_Ok by reflexivity. erewrite bind_Ok by exact Hbars.
    by destruct (outcome _).
  - rewrite Hlog. cbn. by rewrite <- app_assoc.
Qed.

Lemma tae_app l1 l2 :
  transfers_and_events (l1 ++ l2) = transfers_and_events l1 ++ transfers_and_events l2.
Proof. apply omap_app. Qed.

Lemma tae_Out evs : transfers_and_events (Out <$> evs) = Out <$> evs.
Proof.
  induction evs as [|m evs IH]; [done|].
  rewrite fmap_cons. change (transfers_and_events (Out m :: (Out <$> evs)))
    with (Out m :: transfers_and_events (Out <$> evs)). by rewrite IH.
Qed.

Lemma tae_Fs a l : transfers_and_events (Fs a :: l) = transfers_and_events l.
Proof. reflexivity. Qed.

Lemma tae_Err line l : transfers_and_events (Err line :: l) = transfers_and_events l.
Proof. reflexivity. Qed.

Lemma tae_Hub c l : transfers_and_events (Hub c :: l) = Hub c :: transfers_and_events l.
Proof. reflexivity. Qed.

Lemma tae_cons_Out m l : transfers_and_events (Out m :: l) = Out m :: transfers_and_events l.
Proof. reflexivity. Qed.

Lemma tae_nil : transfers_and_events [] = [].
Proof. reflexivity. Qed.

Lemma log_set_log f w : log (set_log f w) = f (log w).
Proof. reflexivity. Qed.

Lemma fs_count_snoc w w' a :
  log w' = log w ++ [Fs a] → length (fs_calls w') = S (length (fs_calls w)).
Proof.
  unfold fs_calls. intros ->. rewrite omap_app, length_app. simpl. lia.
Qed.

Lemma hub_count_snoc_fs w w' a :
  log w' = log w ++ [Fs a] → hub_calls w' = hub_calls w.
Proof. unfold hub_calls. intros ->. rewrite omap_app. simpl. by rewrite app_nil_r. Qed.

Lemma of_result_unfold {A} (r : result A) w : of_result r w = (r, w).
Proof. by destruct r. Qed.

(** One [download_file]: it fails exactly as [step_failure] says, with an
    exception the loop of [main] catches, and its effects are the steps of
    [file_steps]. *)
Lemma download_file_run spec args w :
  ∃ r w',
    download_file env spec args (dest_root_of args) (cache_dir_of args)
      (hf_token_of args) w = (r, w')
    ∧ match step_failure env args (length (fs_calls w)) (length (hub_calls w)) spec with
      | Some msg => ∃ e, r = Raise e ∧ is_Exception e = true ∧ exn_str e = msg
      | None => r = Ok ()
      end
    ∧ log w' = log w ++ file_steps env args spec w.
Proof.
  unfold download_file, step_failure, file_steps, duration_failure, duration_ms,
    closing_line, file_events, ensure_dest_dir.
  fold (request args spec).
  set (k := length (hub_calls w)). set (f := length (fs_calls w)).
  destruct (monotonic env k) as [started finished]. cbn [fst snd].
  set (dst := Join (dest_root_of args) (path spec)).
  set (evs := bar_events (calls (hf_hub_download env k (request args spec))) (bars w)).
  set (w1 := set_log (λ l, l ++ [Fs (Mkdir (Parent dst))]) w).
  pose proof (fs_call_unfold (Mkdir (Parent dst)) w) as H1. fold f w1 in H1.
  destruct (fs env f (Mkdir (Parent dst))) as [msg|].
  { erewrite bind_Raise by exact H1. do 2 eexists. split; [reflexivity|].
    split; [by eexists|done]. }
  erewrite bind_Ok by exact H1.
  destruct (hf_hub_download_call_run (request args spec) w1) as (w2 & H2 & Hlog2).
  assert (hub_calls w1 = hub_calls w) as Hh1
    by (by apply (hub_count_snoc_fs w w1 (Mkdir (Parent dst)))).
  rewrite Hh1 in H2, Hlog2. fold k in H2, Hlog2.
  change (bars w1) with (bars w) in Hlog2. fold evs in Hlog2.
  assert (log w2 = log w ++ Fs (Mkdir (Parent dst)) :: Hub (request args spec) :: (Out <$> evs))
    as Hlog2'.
  { rewrite Hlog2. unfold w1. rewrite log_set_log. by rewrite <- app_assoc. }
  assert (length (fs_calls w2) = (f + 1)%nat) as Hf2.
  { unfold fs_calls. rewrite Hlog2', omap_app, length_app. cbn.
    rewrite omap_fs_Out. fold (fs_calls w). fold f. simpl. lia. }
  destruct (outcome (hf_hub_download env k (request args spec))) as [p|msg].
  2:{ erewrite bind_Raise by exact H2. do 2 eexists. split; [reflexivity|].
      split; [by eexists|]. by rewrite Hlog2', app_nil_r. }
  erewrite bind_Ok by exact H2. unfold str_ne_path.
  set (w3 := set_log (λ l, l ++ [Fs (Mkdir (Parent dst))]) w2).
  pose proof (fs_call_unfold (Mkdir (Parent dst)) w2) as H3. rewrite Hf2 in H3. fold w3 in H3.
  assert (log w3 = log w ++ Fs (Mkdir (Parent dst)) :: Hub (request args spec)
                     :: (Out <$> evs) ++ [Fs (Mkdir (Parent dst))]) as Hlog3.
  { unfold w3. rewrite log_set_log, Hlog2'. by rewrite <- app_assoc. }
  destruct (fs env (f + 1) (Mkdir (Parent dst))) as [msg|].
  { erewrite bind_Raise; [|erewrite bind_Raise by exact H3; reflexivity].
    do 2 eexists. split; [reflexivity|]. split; [by eexists|]. by rewrite Hlog3. }
  set (w4 := set_log (λ l, l ++ [Fs (Replace p dst)]) w3).
  pose proof (fs_call_unfold (Replace p dst) w3) as H4.
  rewrite (fs_count_snoc w2 w3 (Mkdir (Parent dst)) eq_refl), Hf2 in H4.
  replace (S (f + 1)) with (f + 2)%nat in H4 by lia. fold w4 in H4.
  assert (log w4 = log w ++ Fs (Mkdir (Parent dst)) :: Hub (request args spec)
                     :: (Out <$> evs) ++ [Fs (Mkdir (Parent dst)); Fs (Replace p dst)])
    as Hlog4.
  { unfold w4. rewrite log_set_log, Hlog3. rewrite <- app_assoc. cbn. by rewrite <- app_assoc. }
  destruct (fs env (f + 2) (Replace p dst)) as [msg|].
  { erewrite bind_Raise; [|erewrite bind_Ok by exact H3; exact H4].
    do 2 eexists. split; [reflexivity|]. split; [by eexists|]. by rewrite Hlog4. }
  erewrite bind_Ok; [|erewrite bind_Ok by exact H3; exact H4].
  pose proof (of_result_unfold (PyFloat.int ((finished - started) * 1000)%float) w4) as H5.
  destruct (PyFloat.int ((finished - started) * 1000)%float) as [d|e] eqn:Hd.
  - erewrite bind_Ok by exact H5. do 2 eexists. split; [reflexivity|]. split; [done|].
    cbn [snd write_stderr effect modify]. rewrite log_set_log, Hlog4.
    rewrite <- app_assoc. cbn. rewrite <- app_assoc. done.
  - erewrite bind_Raise by exact H5. do 2 eexists. split; [reflexivity|].
    split; [|by rewrite Hlog4].
    exists e. split; [done|]. split; [|done].
    unfold PyFloat.int in Hd. destruct (Prim2SF _); by inversion Hd.
Qed.

Lemma download_file_steps spec args w :
  effects_of (download_file env spec args (dest_root_of args) (cache_dir_of args)
                (hf_token_of args)) w
  = file_steps env args spec w.
Proof.
  destruct (download_file_run spec args w) as (r & w' & Hrun & _ & Hlog).
  apply effects_of_app. by rewrite Hrun.
Qed.

(** The transfer starts and the events among the steps of a download. *)
Lemma file_steps_tae spec args w :
  transfers_and_events (file_steps env args spec w) =
    match fs env (length (fs_calls w))
            (Mkdir (Parent (Join (dest_root_of args) (path spec)))) with
    | Some _ => []
    | None => Hub (request args spec) :: (Out <$> file_events env args spec w)
    end.
Proof.
  unfold file_steps. rewrite tae_Fs.
  destruct (fs env (length (fs_calls w)) _); [done|].
  rewrite tae_Hub, tae_app, tae_Out. f_equal.
  rewrite <- (app_nil_r (Out <$> _)) at 2. f_equal.
  destruct (outcome _); [|done]. rewrite tae_Fs.
  destruct (fs env (length (fs_calls w) + 1) _); [done|]. rewrite tae_Fs.
  destruct (fs env (length (fs_calls w) + 2) _); [done|].
  by destruct (duration_ms _ _).
Qed.

(** The steps of a download that goes through: the destination directory,
    the transfer and its events, the directory again, the move into place,
    the closing diagnostic. *)
Lemma file_steps_ok spec args w :
  step_failure env args (length (fs_calls w)) (length (hub_calls w)) spec = None →
  ∃ src d,
    outcome (hf_hub_download env (length (hub_calls w)) (request args spec)) = inl src
    ∧ duration_ms env (length (hub_calls w)) = Ok d
    ∧ file_steps env args spec w =
        [Fs (Mkdir (Parent (Join (dest_root_of args) (path spec)))); Hub (request args spec)]
        ++ (Out <$> file_events env args spec w)
        ++ [Fs (Mkdir (Parent (Join (dest_root_of args) (path spec))));
            Fs (Replace src (Join (dest_root_of args) (path spec)));
            Err (closing_line spec d)].
Proof.
  unfold step_failure, file_steps, duration_failure.
  destruct (fs env (length (fs_calls w)) _); [done|].
  destruct (outcome _) as [p|]; [|done].
  destruct (fs env (length (fs_calls w) + 1) _); [done|].
  destruct (fs env (length (fs_calls w) + 2) _); [done|].
  destruct (duration_ms _ _) as [d|]; [|done].
  intros _. by exists p, d.
Qed.

Lemma file_events_progress spec args w : Forall is_progress (file_events env args spec w).
Proof.
  unfold file_events. destruct (fs env _ _); [constructor | apply bar_events_progress].
Qed.

End Download.

(** ** The session *)

Section Session.

Context (env : Env) (args : Namespace.t).

Implicit Types w : World.
Implicit Types specs pre post : list FileSpec.

Local Abbreviation download_all' specs :=
  (download_all env specs args (dest_root_of args) (cache_dir_of args) (hf_token_of args)).

Lemma try_unfold {A} (c : M A) w r w' : c w = (r, w') → try c w = (Ok r, w').
Proof. unfold try. by intros ->. Qed.

Lemma counts_after w w' l k :
  length (hub_calls w) = k → length (fs_calls w) = (3 * k)%nat →
  log w' = log w ++ l →
  (∃ c evs, transfers_and_events l = Hub c :: (Out <$> evs)) →
  length (omap fs_of l) = 3%nat →
  length (hub_calls w') = S k ∧ length (fs_calls w') = (3 * S k)%nat.
Proof.
  intros Hk Hf Hlog (c & evs & Htae) Hfs. unfold hub_calls, fs_calls in *.
  rewrite Hlog, !omap_app, !length_app, Hk, Hf, Hfs. split; [|lia].
  assert (omap hub_of l = omap hub_of (transfers_and_events l)) as ->.
  { clear. induction l as [|[] l IH]; cbn; by rewrite ?IH. }
  rewrite Htae. cbn. rewrite omap_hub_Out. simpl. lia.
Qed.

(** A file of a session that goes through. *)
Lemma file_ok s w k :
  length (hub_calls w) = k → length (fs_calls w) = (3 * k)%nat →
  file_failure env args k s = None →
  ∃ w' l evs,
    download_file env s args (dest_root_of args) (cache_dir_of args)
      (hf_token_of args) w = (Ok (), w')
    ∧ log w' = log w ++ l
    ∧ Forall is_progress evs
    ∧ transfers_and_events l = Hub (request args s) :: (Out <$> evs)
    ∧ length (omap fs_of l) = 3%nat
    ∧ file_run env args s l.
Proof.
  intros Hk Hf Hok.
  destruct (download_file_run env s args w) as (r & w' & Hrun & Hr & Hlog).
  assert (step_failure env args (length (fs_calls w)) (length (hub_calls w)) s = None)
    as Hok' by (by rewrite Hk, Hf).
  rewrite Hok' in Hr. subst r.
  destruct (file_steps_ok env s args w Hok') as (src & d & Hsrc & Hd & Hsteps).
  exists w', (file_steps env args s w), (file_events env args s w).
  split; [done|]. split; [done|]. split; [apply file_events_progress|].
  split; [|split].
  - rewrite file_steps_tae. unfold step_failure in Hok'.
    by destruct (fs env (length (fs_calls w)) _).
  - rewrite Hsteps, !omap_app, omap_fs_Out. done.
  - exists (file_events env args s w), (length (hub_calls w)), src, d.
    split; [done|]. split; [done|]. split; [apply file_events_progress | done].
Qed.

(** A plan whose files all go through: the loop runs to its end, one block
    of the log per file, in the order of the plan. *)
Lemma download_all_ok specs w k :
  length (hub_calls w) = k → length (fs_calls w) = (3 * k)%nat →
  (∀ j s, specs !! j = Some s → file_failure env args (k + j) s = None) →
  ∃ w' runs blocks,
    download_all' specs w = (Ok None, w')
    ∧ log w' = log w ++ concat runs
    ∧ Forall2 (file_run env args) specs runs
    ∧ transfers_and_events (concat runs) = concat blocks
    ∧ Forall2 (file_block args) specs blocks
    ∧ length (hub_calls w') = (k + length specs)%nat
    ∧ length (fs_calls w') = (3 * (k + length specs))%nat.
Proof.
  revert w k. induction specs as [|s rest IH]; intros w k Hk Hf Hall.
  - exists w, [], []. rewrite app_nil_r, Nat.add_0_r. repeat split; done || constructor.
  - destruct (file_ok s w k Hk Hf)
      as (w1 & l1 & evs & Hrun & Hlog1 & Hprog & Htae & Hfs & Hfull).
    { pose proof (Hall 0%nat s eq_refl) as H0. by rewrite Nat.add_0_r in H0. }
    destruct (counts_after w w1 l1 k Hk Hf Hlog1) as [Hk1 Hf1]; [eauto | done |].
    destruct (IH w1 (S k) Hk1 Hf1)
      as (w' & runs & blocks & Hrest & Hlog & Hruns & Htae' & Hblocks & Hk' & Hf').
    { intros j s' Hj. replace (S k + j)%nat with (k + S j)%nat by lia. by apply Hall. }
    exists w', (l1 :: runs), ((Hub (request args s) :: (Out <$> evs)) :: blocks).
    cbn [download_all]. erewrite bind_Ok by (apply try_unfold; exact Hrun).
    split; [exact Hrest|]. split; [by rewrite Hlog, Hlog1, concat_cons, app_assoc|].
    split; [by constructor|].
    split; [by rewrite !concat_cons, tae_app, Htae, Htae'|].
    split; [constructor; [by exists evs | done]|].
    cbn [length]. split; [rewrite Hk' | rewrite Hf']; lia.
Qed.

Lemma emit_error msg w :
  emit "error" [("message", JStr msg)] w
  = (Ok (), set_log (λ l, l ++ [Out (error_event msg)]) w).
Proof. reflexivity. Qed.

(** A plan whose first failure is at [spec]: the files before it get their
    blocks, [spec] gets at most the start of one, then the [error] event
    goes out and the loop is left. *)
Lemma download_all_fail pre spec post msg w k :
  length (hub_calls w) = k → length (fs_calls w) = (3 * k)%nat →
  (∀ j s, pre !! j = Some s → file_failure env args (k + j) s = None) →
  file_failure env args (k + length pre) spec = Some msg →
  ∃ w' l blocks tail,
    download_all' (pre ++ spec :: post) w = (Ok (Some 65), w')
    ∧ log w' = log w ++ l
    ∧ transfers_and_events l =
        concat blocks ++ tail ++ [Out (error_event (failure_message spec msg))]
    ∧ Forall2 (file_block args) pre blocks
    ∧ (tail = [] ∨ file_block args spec tail).
Proof.
  revert w k. induction pre as [|s rest IH]; intros w k Hk Hf Hall Hfail.
  - rewrite Nat.add_0_r in Hfail. cbn [app].
    destruct (download_file_run env spec args w) as (r & w1 & Hrun & Hr & Hlog1).
    rewrite Hk, Hf in Hr. fold (file_failure env args k spec) in Hr.
    rewrite Hfail in Hr. destruct Hr as (e & -> & He & Hmsg).
    exists (set_log (λ l, l ++ [Out (error_event (failure_message spec msg))]) w1),
      (file_steps env args spec w ++ [Out (error_event (failure_message spec msg))]), [],
      (transfers_and_events (file_steps env args spec w)).
    cbn [download_all]. erewrite bind_Ok by (apply try_unfold; exact Hrun).
    cbv beta iota. rewrite He, Hmsg. erewrite bind_Ok by apply emit_error.
    split; [reflexivity|]. split; [by rewrite log_set_log, Hlog1, app_assoc|].
    split; [by rewrite tae_app|]. split; [constructor|].
    rewrite file_steps_tae. destruct (fs env _ _); [by left | right].
    eexists. split; [reflexivity|]. apply file_events_progress.
  - destruct (file_ok s w k Hk Hf) as (w1 & l1 & evs & Hrun & Hlog1 & Hprog & Htae & Hfs & _).
    { pose proof (Hall 0%nat s eq_refl) as H0. by rewrite Nat.add_0_r in H0. }
    destruct (counts_after w w1 l1 k Hk Hf Hlog1) as [Hk1 Hf1]; [eauto | done |].
    destruct (IH w1 (S k) Hk1 Hf1) as (w' & l & blocks & tail & Hrest & Hlog & Htae' & Hblocks & Htail).
    { intros j s' Hj. replace (S k + j)%nat with (k + S j)%nat by lia. by apply Hall. }
    { cbn [length] in Hfail. by replace (S k + length rest)%nat with (k + S (length rest))%nat by lia. }
    exists w', (l1 ++ l), ((Hub (request args s) :: (Out <$> evs)) :: blocks), tail.
    cbn [app download_all]. erewrite bind_Ok by (apply try_unfold; exact Hrun).
    split; [exact Hrest|]. split; [by rewrite Hlog, Hlog1, app_assoc|].
    split; [by rewrite tae_app, Htae, Htae', concat_cons, <- app_assoc|].
    split; [constructor; [by exists evs | done] | done].
Qed.


Lemma emit_complete w :
  emit "complete" [] w = (Ok (), set_log (λ l, l ++ [Out complete_event]) w).
Proof. reflexivity. Qed.

Lemma require_hf_xet_ok w :
  import_hf_xet env = None → ∃ v, require_hf_xet env w = (Ok v, w).
Proof.
  intros Hx. unfold require_hf_xet. rewrite Hx.
  destruct (version env "hf_xet"); eauto.
Qed.

(** The directories of the command line resolve. *)
Lemma resolve_dirs_ok w :
  resolution_failure env args = None →
  resolve_path env (Namespace.dest args) w = (Ok (dest_root_of args), w)
  ∧ (match Namespace.cache_dir args with
     | Some d => if PyStr.truthy d then p ← resolve_path env d; mret (Some p)
                 else mret None
     | None => mret None
     end) w = (Ok (cache_dir_of args), w).
Proof.
  unfold resolution_failure, resolve_path, cache_dir_of.
  destruct (resolve env (Namespace.dest args)); [done|]. split; [done|].
  destruct (Namespace.cache_dir args) as [d|]; [|done].
  destruct (PyStr.truthy d); [|done]. by destruct (resolve env d).
Qed.

(** One of them does not: the exception leaves [main]. *)
Lemma resolve_dirs_fail msg w :
  resolution_failure env args = Some msg →
  (dest_root ← resolve_path env (Namespace.dest args);
   match Namespace.cache_dir args with
   | Some d => if PyStr.truthy d then p ← resolve_path env d; mret (Some p)
               else mret None
   | None => mret None
   end) w = (Raise (Failure msg), w).
Proof.
  unfold resolution_failure, resolve_path.
  destruct (resolve env (Namespace.dest args)) as [m|]; [by intros [= ->]|].
  destruct (Namespace.cache_dir args) as [d|]; [|done].
  destruct (PyStr.truthy d); [|done].
  destruct (resolve env d) as [m|]; [by intros [= ->] | done].
Qed.

(** The steps of [main] before the file specs are parsed, in a session that
    opens: they write nothing. *)
Lemma main_opens argv :
  session_opens env argv args →
  ∃ w0,
    log w0 = []
    ∧ main env argv (initial_world env)
      = (match parse_file_specs (Namespace.files args) with
         | Raise (ValueError msg) =>
             emit "error" [("message", JStr msg)];;
             mret 64
         | Raise exc => raise exc
         | Ok file_specs =>
             dest_root ← resolve_path env (Namespace.dest args);
             cache_dir ←
               match Namespace.cache_dir args with
               | Some d =>
                   if PyStr.truthy d then p ← resolve_path env d; mret (Some p)
                   else mret None
               | None => mret None
               end;
             write_stderr
               ("Downloading from " +:+ Namespace.repo_id args +:+ "@"
                +:+ Namespace.revision args +:+ " to " +:+ fspath env dest_root);;
             r ← download_all env file_specs args dest_root cache_dir (hf_token_of args);
             match r with
             | Some code => mret code
             | None => emit "complete" [];; mret 0
             end
         end) w0.
Proof.
  intros (_ & _ & Hxet & [v Hv] & Hparsed & Hprobe). unfold main.
  erewrite bind_Ok by apply Hparsed.
  erewrite bind_Ok by reflexivity. erewrite bind_Ok by reflexivity.
  edestruct require_hf_xet_ok as [vx Hvx]; [done|]. erewrite bind_Ok by exact Hvx.
  rewrite Hv. erewrite bind_Ok by reflexivity. rewrite Hprobe.
  eexists. split; [|reflexivity]. reflexivity.
Qed.

(** Up to the loop, a session that starts only writes its opening
    diagnostic. *)
Lemma main_session argv specs :
  session_starts env argv args →
  parse_file_specs (Namespace.files args) = Ok specs →
  ∃ w0,
    log w0 = [Err ("Downloading from " +:+ Namespace.repo_id args +:+ "@"
                   +:+ Namespace.revision args +:+ " to "
                   +:+ fspath env (dest_root_of args))]
    ∧ main env argv (initial_world env)
      = (download_all' specs ≫= λ r,
           match r with
           | Some code => mret code
           | None => emit "complete" [];; mret 0
           end) w0.
Proof.
  intros [Hopen Hres] Hspecs.
  destruct (main_opens argv Hopen) as (w0 & Hlog0 & ->). rewrite Hspecs.
  destruct (resolve_dirs_ok w0 Hres) as [Hdest Hcache].
  erewrite bind_Ok by exact Hdest. erewrite bind_Ok by exact Hcache.
  erewrite bind_Ok by reflexivity. eexists. split; [|reflexivity].
  rewrite log_set_log, Hlog0. reflexivity.
Qed.

(** A session that opens with usable file specs and a directory that does
    not resolve: the exception leaves [main] before anything is written. *)
Lemma main_unresolved argv specs msg :
  session_opens env argv args →
  parse_file_specs (Namespace.files args) = Ok specs →
  resolution_failure env args = Some msg →
  ∃ w0, log w0 = [] ∧ main env argv (initial_world env) = (Raise (Failure msg), w0).
Proof.
  intros Hopen Hspecs Hres.
  destruct (main_opens argv Hopen) as (w0 & Hlog0 & ->). rewrite Hspecs.
  exists w0. split; [done|].
  pose proof (resolve_dirs_fail msg w0 Hres) as Hfail.
  unfold resolution_failure, resolve_path in *.
  destruct (resolve env (Namespace.dest args)) as [m|]; [by simplify_eq|].
  erewrite bind_Ok by reflexivity.
  erewrite bind_Ok in Hfail by reflexivity.
  by erewrite bind_Raise by exact Hfail.
Qed.

Lemma run_main argv r w :
  import_huggingface_hub env = None → import_tqdm env = None →
  main env argv (initial_world env) = (r, w) →
  run env argv =
    match r with
    | Ok code | Raise (SystemExit code) => (code, w)
    | Raise exc =>
        (1, set_log (λ l, l ++ [Err ("Traceback (most recent call last): "
                                     +:+ exn_str exc)]) w)
    end.
Proof.
  intros Hhub Htqdm Hmain. unfold run, script. rewrite Hhub, Htqdm.
  destruct r as [code|exc].
  - by erewrite bind_Ok by exact Hmain.
  - by erewrite bind_Raise by exact Hmain.
Qed.

Lemma blocks_hub specs blocks :
  Forall2 (file_block args) specs blocks →
  omap hub_of (concat blocks) = request args <$> specs
  ∧ Forall is_progress (omap out_of (concat blocks)).
Proof.
  induction 1 as [|s block specs blocks (evs & -> & Hprog) _ [IHh IHo]]; [done|].
  rewrite concat_cons, !omap_app. cbn. rewrite omap_hub_Out, omap_out_Out, IHh.
  split; [done|]. by apply Forall_app.
Qed.

Lemma omap_tae {B} (f : Effect → option B) l :
  (∀ a, f (Fs a) = None) → (∀ line, f (Err line) = None) → f OutHelp = None →
  omap f (transfers_and_events l) = omap f l.
Proof.
  intros Hfs Herr Hhelp. unfold transfers_and_events.
  induction l as [|[] l IH]; cbn in *; rewrite ?Hfs, ?Herr, ?Hhelp, ?IH; done.
Qed.

Lemma stdout_tae w : stdout w = omap out_of (transfers_and_events (log w)).
Proof. unfold stdout. by rewrite omap_tae. Qed.

Lemma hub_calls_tae w : hub_calls w = omap hub_of (transfers_and_events (log w)).
Proof. unfold hub_calls. by rewrite omap_tae. Qed.

Lemma with_status_progress st evs :
  st ≠ "progress" → Forall is_progress evs → with_status st evs = [].
Proof.
  intros Hst. unfold with_status. induction 1 as [|m evs Hm _ IH]; [done|].
  rewrite filter_cons, IH. rewrite decide_False; [done|].
  rewrite Hm. intros [= ?]. done.
Qed.

End Session.

Lemma session_counts (w0 : World) line :
  log w0 = [Err line] →
  length (hub_calls w0) = 0%nat ∧ length (fs_calls w0) = (3 * 0)%nat.
Proof. unfold hub_calls, fs_calls. by intros ->. Qed.

Lemma filename_request args (specs : list FileSpec) :
  filename <$> (request args <$> specs) = path <$> specs.
Proof. by rewrite <- list_fmap_compose. Qed.

(** The shape of a session whose files all transfer. *)
Lemma session_all_transfer
    (env : Env) (argv : Argv.t) (args : Namespace.t) (specs : list FileSpec) :
  session_starts env argv args →
  parse_file_specs (Namespace.files args) = Ok specs →
  all_transfer env args specs →
  ∃ runs blocks,
    (run env argv).1 = 0
    ∧ log (run env argv).2
      = Err (opening_line env args) :: concat runs ++ [Out complete_event]
    ∧ Forall2 (file_run env args) specs runs
    ∧ transfers_and_events (log (run env argv).2) = concat blocks ++ [Out complete_event]
    ∧ Forall2 (file_block args) specs blocks.
Proof.
  intros Hstart Hspecs Hall.
  destruct (main_session env args argv specs Hstart Hspecs) as (w0 & Hlog0 & Hmain).
  destruct (session_counts w0 _ Hlog0) as [Hk Hf].
  destruct (download_all_ok env args specs w0 0 Hk Hf Hall)
    as (w' & runs & blocks & Hloop & Hlog & Hruns & Htae & Hblocks & _).
  erewrite bind_Ok in Hmain by exact Hloop. cbv beta iota in Hmain.
  erewrite bind_Ok in Hmain by apply emit_complete.
  destruct Hstart as [(Hhub & Htqdm & _) _].
  rewrite (run_main env argv _ _ Hhub Htqdm Hmain). cbn [fst snd].
  exists runs, blocks. split; [done|].
  rewrite log_set_log, Hlog, Hlog0. split; [done|]. split; [done|]. split; [|done].
  rewrite !tae_app, Htae. done.
Qed.

(** The moves of a plan whose files all go through are onto the
    destinations of its files, in the order of the plan. *)
Lemma runs_moved_onto env args (specs : list FileSpec) (runs : list (list Effect)) :
  Forall2 (file_run env args) specs runs →
  moved_onto (omap fs_of (concat runs))
  = (λ spec, Join (dest_root_of args) (path spec)) <$> specs.
Proof.
  induction 1 as [|s run specs runs (evs & k & src & d & _ & _ & _ & ->) _ IH]; [done|].
  rewrite concat_cons, omap_app. unfold moved_onto in *.
  rewrite omap_app, IH, !omap_app, omap_fs_Out. done.
Qed.

(** The shape of a session whose first failure is at [spec]. *)
Lemma session_first_failure
    (env : Env) (argv : Argv.t) (args : Namespace.t)
    (pre : list FileSpec) (spec : FileSpec) (post : list FileSpec) (msg : string) :
  session_starts env argv args →
  parse_file_specs (Namespace.files args) = Ok (pre ++ spec :: post) →
  first_failure env args pre spec msg →
  ∃ blocks tail,
    (run env argv).1 = 65
    ∧ transfers_and_events (log (run env argv).2)
      = concat blocks ++ tail ++ [Out (error_event (failure_message spec msg))]
    ∧ Forall2 (file_block args) pre blocks
    ∧ (tail = [] ∨ file_block args spec tail).
Proof.
  intros Hstart Hspecs [Hall Hfail].
  destruct (main_session env args argv _ Hstart Hspecs) as (w0 & Hlog0 & Hmain).
  destruct (session_counts w0 _ Hlog0) as [Hk Hf].
  destruct (download_all_fail env args pre spec post msg w0 0 Hk Hf Hall Hfail)
    as (w' & l & blocks & tail & Hloop & Hlog & Htae & Hblocks & Htail).
  erewrite bind_Ok in Hmain by exact Hloop.
  destruct Hstart as [(Hhub & Htqdm & _) _].
  rewrite (run_main env argv _ _ Hhub Htqdm Hmain). cbn [fst snd].
  exists blocks, tail. split; [done|]. split; [|done].
  rewrite Hlog, Hlog0, !tae_app, Htae. done.
Qed.

Lemma tail_block args spec tail :
  tail = [] ∨ file_block args spec tail →
  Forall is_progress (omap out_of tail)
  ∧ omap hub_of tail `prefix_of` [request args spec].
Proof.
  intros [-> | (evs & -> & Hp)].
  - split; [constructor | apply prefix_nil].
  - cbn. rewrite omap_out_Out, omap_hub_Out. done.
Qed.

(** C5. When every file of the plan transfers, the files are taken one at a
    time in the order of the plan: after the opening diagnostic the log is
    one run per file (its destination directory is made, its transfer is
    started, its progress events follow, the directory is made again, the
    path the library returned is moved onto the file's destination, the
    closing diagnostic is written), each run ended before the next begins,
    so that transfers and moves happen in plan order; then a single
    [complete] event is sent, it is the last line of the protocol stream,
    and the process exits 0. *)
Theorem all_files_transfer_in_order
    (env : Env) (argv : Argv.t) (args : Namespace.t) (specs : list FileSpec) :
  session_starts env argv args →
  parse_file_specs (Namespace.files args) = Ok specs →
  all_transfer env args specs →
  ∃ runs blocks,
    (run env argv).1 = 0
    ∧ log (run env argv).2
      = Err (opening_line env args) :: concat runs ++ [Out complete_event]
    ∧ Forall2 (file_run env args) specs runs
    ∧ transfers_and_events (log (run env argv).2) = concat blocks ++ [Out complete_event]
    ∧ Forall2 (file_block args) specs blocks
    ∧ filename <$> hub_calls (run env argv).2 = path <$> specs
    ∧ moved_onto (fs_calls (run env argv).2)
      = (λ spec, Join (dest_root_of args) (path spec)) <$> specs
    ∧ with_status "complete" (stdout (run env argv).2) = [complete_event]
    ∧ last (stdout (run env argv).2) = Some complete_event.
Proof.
  intros Hstart Hspecs Hall.
  destruct (session_all_transfer env argv args specs Hstart Hspecs Hall)
    as (runs & blocks & Hcode & Hlog & Hruns & Hshape & Hblocks).
  destruct (blocks_hub args specs blocks Hblocks) as [Hhubs Hprog].
  exists runs, blocks. split; [done|]. split; [done|]. split; [done|].
  split; [done|]. split; [done|].
  rewrite hub_calls_tae, stdout_tae, Hshape, !omap_app, Hhubs. cbn.
  split; [by rewrite app_nil_r, filename_request|]. split; [|split; [|by rewrite last_snoc]].
  - unfold fs_calls. rewrite Hlog. cbn. rewrite omap_app. cbn. rewrite app_nil_r.
    by apply (runs_moved_onto env).
  - unfold with_status. rewrite filter_app.
    fold (with_status "complete" (omap out_of (concat blocks))).
    by rewrite with_status_progress.
Qed.

(** Two files against the sample library: the whole log, file after file in
    the order of the plan, closed by [complete]. *)
Lemma all_files_transfer_in_order_witness :
  log (run sample_env (sample_argv ["a.bin"; " /b.bin::12"])).2
  = [Err "Downloading from org/model@main to /dest";
     Fs (Mkdir (Parent (Join (Resolved "/dest") "a.bin")));
     Hub (request (sample_args ["a.bin"; " /b.bin::12"]) {| path := "a.bin"; size := None |});
     Out (progress_event "a.bin" 0 100);
     Fs (Mkdir (Parent (Join (Resolved "/dest") "a.bin")));
     Fs (Replace "/dest/a.bin" (Join (Resolved "/dest") "a.bin"));
     Err "Downloaded a.bin in 60ms";
     Fs (Mkdir (Parent (Join (Resolved "/dest") "b.bin")));
     Hub (request (sample_args ["a.bin"; " /b.bin::12"])
            {| path := "b.bin"; size := Some 12 |});
     Out (progress_event "b.bin" 0 100);
     Fs (Mkdir (Parent (Join (Resolved "/dest") "b.bin")));
     Fs (Replace "/dest/b.bin" (Join (Resolved "/dest") "b.bin"));
     Err "Downloaded b.bin in 60ms";
     Out complete_event]
  ∧ stdout (run sample_env (sample_argv ["a.bin"; " /b.bin::12"])).2
    = [progress_event "a.bin" 0 100; progress_event "b.bin" 0 100; complete_event]
  ∧ ∃ runs blocks,
      (run sample_env (sample_argv ["a.bin"; " /b.bin::12"])).1 = 0
      ∧ log (run sample_env (sample_argv ["a.bin"; " /b.bin::12"])).2
        = Err (opening_line sample_env (sample_args ["a.bin"; " /b.bin::12"]))
          :: concat runs ++ [Out complete_event]
      ∧ Forall2 (file_run sample_env (sample_args ["a.bin"; " /b.bin::12"]))
          [{| path := "a.bin"; size := None |}; {| path := "b.bin"; size := Some 12 |}]
          runs
      ∧ transfers_and_events (log (run sample_env (sample_argv ["a.bin"; " /b.bin::12"])).2)
        = concat blocks ++ [Out complete_event]
      ∧ Forall2 (file_block (sample_args ["a.bin"; " /b.bin::12"]))
          [{| path := "a.bin"; size := None |}; {| path := "b.bin"; size := Some 12 |}]
          blocks
      ∧ filename <$> hub_calls (run sample_env (sample_argv ["a.bin"; " /b.bin::12"])).2
        = ["a.bin"; "b.bin"]
      ∧ moved_onto (fs_calls (run sample_env (sample_argv ["a.bin"; " /b.bin::12"])).2)
        = [Join (Resolved "/dest") "a.bin"; Join (Resolved "/dest") "b.bin"]
      ∧ with_status "complete" (stdout (run sample_env (sample_argv ["a.bin"; " /b.bin::12"])).2)
        = [complete_event]
      ∧ last (stdout (run sample_env (sample_argv ["a.bin"; " /b.bin::12"])).2)
        = Some complete_event.
Proof.
  split; [reflexivity|]. split; [reflexivity|].
  apply (all_files_transfer_in_order sample_env (sample_argv ["a.bin"; " /b.bin::12"])
           (sample_args ["a.bin"; " /b.bin::12"])
           [{| path := "a.bin"; size := None |}; {| path := "b.bin"; size := Some 12 |}]).
  - repeat split; try reflexivity. by eexists.
  - reflexivity.
  - intros [|[|j]] s Hs; simplify_eq/=; reflexivity.
Defined.



(** ** Exit codes *)

Section ExitCodes.

Context (env : Env) (argv : Argv.t).

Lemma run_without_huggingface_hub exc :
  import_huggingface_hub env = Some exc →
  run env argv =
    (97, set_log (λ l, l ++ [Err ("huggingface_hub is required but could not be imported: "
                                  +:+ exc)]) (initial_world env)).
Proof. intros H. unfold run, script. by rewrite H. Qed.

Lemma run_without_tqdm exc :
  import_huggingface_hub env = None → import_tqdm env = Some exc →
  run env argv =
    (98, set_log (λ l, l ++ [Err ("tqdm is required but missing: " +:+ exc)])
           (initial_world env)).
Proof. intros H1 H2. unfold run, script. by rewrite H1, H2. Qed.

Lemma parse_args_missing w :
  missing_required argv →
  parse_args argv w =
    (Raise (SystemExit 2),
     set_log (λ l, l ++ [Err "error: the following arguments are required"]) w).
Proof.
  unfold parse_args. intros [-> [H | [H | H]]]; rewrite H.
  - reflexivity.
  - by destruct (Argv.repo_id argv).
  - by destruct (Argv.repo_id argv), (Argv.dest argv).
Qed.

Lemma parse_args_usage w :
  usage_error argv →
  ∃ line, parse_args argv w = (Raise (SystemExit 2), set_log (λ l, l ++ [Err line]) w).
Proof.
  intros [H | H].
  - unfold parse_args. rewrite H. by eexists.
  - rewrite parse_args_missing by done. by eexists.
Qed.

Lemma parse_args_help w :
  Argv.syntax argv = Argv.Help →
  parse_args argv w = (Raise (SystemExit 0), set_log (λ l, l ++ [OutHelp]) w).
Proof. unfold parse_args. by intros ->. Qed.

(** The command line asks for help, is rejected, or parses. *)
Lemma parse_args_cases :
  Argv.syntax argv = Argv.Help ∨ usage_error argv ∨ ∃ args, parsed argv args.
Proof.
  unfold usage_error, missing_required, parsed, parse_args.
  destruct (Argv.syntax argv); [|by left|by right; left; left].
  destruct (Argv.repo_id argv); [|by right; left; right; split; [|left]].
  destruct (Argv.dest argv); [|by right; left; right; split; [|right; left]].
  destruct (Argv.files argv) eqn:Hfiles; [by right; left; right; split; [|right; right]|].
  right; right. eexists. intros w. reflexivity.
Qed.

Lemma parsed_plain args : parsed argv args → Argv.syntax argv = Argv.Plain.
Proof.
  intros Hp. specialize (Hp (initial_world env)). unfold parse_args in Hp.
  by destruct (Argv.syntax argv).
Qed.

Lemma run_usage :
  import_huggingface_hub env = None → import_tqdm env = None →
  usage_error argv →
  (run env argv).1 = 2 ∧ ∃ line, log (run env argv).2 = [Err line].
Proof.
  intros Hhub Htqdm Hmiss.
  destruct (parse_args_usage (initial_world env) Hmiss) as [line Hline].
  erewrite run_main; [| done | done |].
  2:{ unfold main. erewrite bind_Raise by exact Hline. reflexivity. }
  split; [done|]. by exists line.
Qed.

Lemma run_help :
  import_huggingface_hub env = None → import_tqdm env = None →
  Argv.syntax argv = Argv.Help →
  (run env argv).1 = 0 ∧ log (run env argv).2 = [OutHelp].
Proof.
  intros Hhub Htqdm Hhelp.
  erewrite run_main; [| done | done |].
  2:{ unfold main. erewrite bind_Raise by (by apply parse_args_help). reflexivity. }
  done.
Qed.

Lemma run_without_hf_xet args exc :
  import_huggingface_hub env = None → import_tqdm env = None →
  parsed argv args → import_hf_xet env = Some exc →
  (run env argv).1 = 90
  ∧ log (run env argv).2 = [Out (unavailable_event ("hf_xet not available: " +:+ exc))].
Proof.
  intros Hhub Htqdm Hparsed Hxet.
  erewrite run_main; [| done | done |].
  2:{ unfold main. erewrite bind_Ok by apply Hparsed.
      erewrite bind_Ok by reflexivity. erewrite bind_Ok by reflexivity.
      erewrite bind_Raise; [reflexivity|]. unfold require_hf_xet. rewrite Hxet.
      erewrite bind_Ok by reflexivity. reflexivity. }
  done.
Qed.

Lemma run_invalid_specs args msg :
  session_opens env argv args →
  parse_file_specs (Namespace.files args) = Raise (ValueError msg) →
  (run env argv).1 = 64 ∧ log (run env argv).2 = [Out (error_event msg)].
Proof.
  intros Hopen Hspecs.
  destruct (main_opens env args argv Hopen) as (w0 & Hlog0 & Hmain).
  rewrite Hspecs in Hmain. erewrite bind_Ok in Hmain by apply emit_error.
  destruct Hopen as (Hhub & Htqdm & _).
  rewrite (run_main env argv _ _ Hhub Htqdm Hmain). cbn [fst snd].
  by rewrite log_set_log, Hlog0.
Qed.

Lemma run_unresolved args specs msg :
  session_opens env argv args →
  parse_file_specs (Namespace.files args) = Ok specs →
  resolution_failure env args = Some msg →
  (run env argv).1 = 1
  ∧ log (run env argv).2 = [Err ("Traceback (most recent call last): " +:+ msg)].
Proof.
  intros Hopen Hspecs Hres.
  destruct (main_unresolved env args argv specs msg Hopen Hspecs Hres)
    as (w0 & Hlog0 & Hmain).
  destruct Hopen as (Hhub & Htqdm & _).
  rewrite (run_main env argv _ _ Hhub Htqdm Hmain). cbn [fst snd].
  by rewrite log_set_log, Hlog0.
Qed.

Lemma run_version_missing args :
  import_huggingface_hub env = None → import_tqdm env = None →
  parsed argv args → import_hf_xet env = None →
  version env "huggingface_hub" = None →
  (run env argv).1 = 1
  ∧ log (run env argv).2 = [Err "Traceback (most recent call last): huggingface_hub"].
Proof.
  intros Hhub Htqdm Hparsed Hxet Hv.
  erewrite run_main; [| done | done |].
  2:{ unfold main. erewrite bind_Ok by apply Hparsed.
      erewrite bind_Ok by reflexivity. erewrite bind_Ok by reflexivity.
      edestruct (require_hf_xet_ok env) as [vx Hvx]; [done|].
      erewrite bind_Ok by exact Hvx. rewrite Hv.
      erewrite bind_Raise by reflexivity. reflexivity. }
  done.
Qed.

(** A plan either transfers whole or has a first file that fails. *)
Lemma first_failure_cases args specs :
  all_transfer env args specs
  ∨ ∃ pre spec post msg, specs = pre ++ spec :: post ∧ first_failure env args pre spec msg.
Proof.
  induction specs as [|x l IH] using rev_ind; [by left|].
  destruct IH as [Hall | (pre & spec & post & msg & -> & Hff)].
  - destruct (file_failure env args (length l) x) as [msg|] eqn:Hx.
    + right. exists l, x, [], msg. done.
    + left. intros j s Hj. apply lookup_app_Some in Hj as [Hj | [Hlen Hj]].
      * by apply Hall.
      * apply list_lookup_singleton_Some in Hj as [Hj ->].
        by replace j with (length l) by lia.
  - right. exists pre, spec, (post ++ [x]), msg. split; [|done].
    by rewrite <- app_assoc.
Qed.

End ExitCodes.

(** C1, as amended.  The exit status tells the outcomes apart: 97 and 98
    when [huggingface_hub], respectively [tqdm], cannot be imported, with a
    diagnostic on stderr and nothing else; 0 when the command line asks for
    help, with the help text on stdout and no protocol event; 2 when the
    command line is rejected (a required option is missing, an argument is
    malformed), with a diagnostic on stderr only; 90 when [hf_xet] cannot be
    imported, with an [unavailable] event; 1 when the version of
    [huggingface_hub] cannot be looked up, with a traceback on stderr only;
    and for a session that opens, exactly one of: 64 with an [error] event
    and no transfer started when the file-spec list is invalid, 1 with a
    traceback on stderr only when a directory of the command line does not
    resolve, 0 with [complete] as last event when every file transfers, 65
    with an [error] event naming the file as last event when a file
    fails. *)
Theorem exit_code_classifies_outcome (env : Env) (argv : Argv.t) :
  let code := (run env argv).1 in
  let w := (run env argv).2 in
  (∀ exc, import_huggingface_hub env = Some exc →
     code = 97 ∧ ∃ line, log w = [Err line])
  ∧ (∀ exc, import_huggingface_hub env = None → import_tqdm env = Some exc →
     code = 98 ∧ ∃ line, log w = [Err line])
  ∧ (import_huggingface_hub env = None → import_tqdm env = None →
     Argv.syntax argv = Argv.Help →
     code = 0 ∧ log w = [OutHelp])
  ∧ (import_huggingface_hub env = None → import_tqdm env = None →
     usage_error argv →
     code = 2 ∧ ∃ line, log w = [Err line])
  ∧ (∀ args exc, import_huggingface_hub env = None → import_tqdm env = None →
     parsed argv args → import_hf_xet env = Some exc →
     code = 90
     ∧ log w = [Out (unavailable_event ("hf_xet not available: " +:+ exc))])
  ∧ (∀ args, import_huggingface_hub env = None → import_tqdm env = None →
     parsed argv args → import_hf_xet env = None →
     version env "huggingface_hub" = None →
     code = 1 ∧ ∃ line, log w = [Err line])
  ∧ (∀ args, session_opens env argv args →
     (invalid_file_specs (Namespace.files args)
      ∧ code = 64 ∧ ∃ msg, log w = [Out (error_event msg)])
     ∨ (∃ specs msg,
          parse_file_specs (Namespace.files args) = Ok specs
          ∧ resolution_failure env args = Some msg
          ∧ code = 1 ∧ ∃ line, log w = [Err line])
     ∨ (∃ specs,
          parse_file_specs (Namespace.files args) = Ok specs
          ∧ resolution_failure env args = None
          ∧ all_transfer env args specs
          ∧ code = 0 ∧ last (stdout w) = Some complete_event)
     ∨ (∃ pre spec post msg,
          parse_file_specs (Namespace.files args) = Ok (pre ++ spec :: post)
          ∧ resolution_failure env args = None
          ∧ first_failure env args pre spec msg
          ∧ code = 65
          ∧ last (stdout w) = Some (error_event (failure_message spec msg)))).
Proof.
  intros code w. subst code w. split; [|split; [|split; [|split; [|split; [|split]]]]].
  - intros exc H. rewrite (run_without_huggingface_hub env argv exc H). eauto.
  - intros exc H1 H2. rewrite (run_without_tqdm env argv exc H1 H2). eauto.
  - intros H1 H2 Hhelp. by apply run_help.
  - intros H1 H2 Hmiss. by apply run_usage.
  - intros args exc H1 H2 Hp Hx. by apply (run_without_hf_xet env argv args exc).
  - intros args H1 H2 Hp Hx Hv.
    destruct (run_version_missing env argv args H1 H2 Hp Hx Hv) as [-> ->]. eauto.
  - intros args Hopen.
    destruct (parse_file_specs (Namespace.files args)) as [specs|e] eqn:Hspecs.
    + right. destruct (resolution_failure env args) as [m|] eqn:Hres.
      { left. exists specs, m.
        destruct (run_unresolved env argv args specs m Hopen Hspecs Hres) as [-> ->].
        eauto. }
      right. assert (session_starts env argv args) as Hstart by done.
      destruct (first_failure_cases env args specs)
        as [Hall | (pre & spec & post & msg & -> & Hff)].
      * left. exists specs.
        destruct (session_all_transfer env argv args specs Hstart Hspecs Hall)
          as (runs & blocks & Hcode & _ & _ & Hshape & _).
        repeat split; try done.
        rewrite stdout_tae, Hshape, omap_app. apply last_snoc.
      * right. exists pre, spec, post, msg.
        destruct (session_first_failure env argv args pre spec post msg Hstart Hspecs Hff)
          as (blocks & tail & Hcode & Hshape & _).
        repeat split; try done; try apply Hff.
        rewrite stdout_tae, Hshape, !omap_app, app_assoc. apply last_snoc.
    + left. assert (∃ msg, e = ValueError msg) as [msg ->].
      { apply parse_loop_Raise in Hspecs as (msg & -> & _). eauto. }
      split; [apply parse_file_specs_invalid; eauto|].
      destruct (run_invalid_specs env argv args msg Hopen Hspecs) as [-> ->]. eauto.
Qed.

(** Three runs.  An entry that is blank once trimmed: the session opens, the
    list is invalid, and the process exits 64 after its [error] event.  A
    command line with [-h]: the help text on stdout, no event, status 0.  A
    destination under the home of an unknown user, with a valid file spec:
    a traceback on stderr, no event, no transfer, status 1. *)
Lemma exit_code_classifies_outcome_witness :
  ((run sample_env (sample_argv ["  "])).1 = 64
   ∧ ∃ msg, log (run sample_env (sample_argv ["  "])).2 = [Out (error_event msg)])
  ∧ ((run sample_env help_argv).1 = 0
     ∧ log (run sample_env help_argv).2 = [OutHelp])
  ∧ ((run homeless_env homeless_argv).1 = 1
     ∧ ∃ line, log (run homeless_env homeless_argv).2 = [Err line]).
Proof.
  split; [|split].
  - destruct (exit_code_classifies_outcome sample_env (sample_argv ["  "]))
      as (_ & _ & _ & _ & _ & _ & Hsession).
    destruct (Hsession (sample_args ["  "]))
      as [(_ & Hcode & Hlog) | [(specs & m & Hs & _) | [(specs & Hs & _)
          | (pre & spec & post & msg & Hs & _)]]].
    + repeat split; try reflexivity. by eexists.
    + split; [exact Hcode | exact Hlog].
    + discriminate Hs.
    + discriminate Hs.
    + discriminate Hs.
  - destruct (exit_code_classifies_outcome sample_env help_argv)
      as (_ & _ & Hhelp & _).
    apply Hhelp; reflexivity.
  - destruct (exit_code_classifies_outcome homeless_env homeless_argv)
      as (_ & _ & _ & _ & _ & _ & Hsession).
    destruct (Hsession homeless_args)
      as [(_ & Hcode & msg & Hlog) | [(specs & m & _ & _ & Hcode & Hlog)
          | [(specs & _ & Hres & _) | (pre & spec & post & msg & _ & Hres & _)]]].
    + repeat split; try reflexivity. by eexists.
    + exfalso. vm_compute in Hlog. discriminate Hlog.
    + split; [exact Hcode | exact Hlog].
    + discriminate Hres.
    + discriminate Hres.
Defined.

(** C1 fails as stated: with both base libraries importable, a command line
    without [--file] ends the process with status 2 and no protocol event. *)
Lemma usage_error_exits_without_event :
  import_huggingface_hub sample_env = None
  ∧ import_tqdm sample_env = None
  ∧ (run sample_env (sample_argv [])).1 = 2
  ∧ stdout (run sample_env (sample_argv [])).2 = [].
Proof. repeat split; reflexivity. Qed.

(** ** What a file's progress events are *)

Lemma download_file_events (env : Env) (spec : FileSpec) (args : Namespace.t) (w : World) :
  omap out_of
    (effects_of (download_file env spec args (dest_root_of args) (cache_dir_of args)
                   (hf_token_of args)) w)
  = file_events env args spec w.
Proof.
  rewrite download_file_steps.
  rewrite <- (omap_tae out_of (file_steps env args spec w)) by done.
  rewrite file_steps_tae.
  unfold file_events. destruct (fs env _ _); [done|]. cbn. apply omap_out_Out.
Qed.

(** C3, as amended.  A bar emits unconditionally at one point only, its
    construction, whatever the clock reads; an update that falls within the
    interval of the bar's last emission sends nothing; and [download_file]
    sends no event of its own, so nothing is emitted when the transfer
    completes: the events of a file are those of the calls the library
    makes on the bar class. *)
Theorem progress_is_forced_at_construction_only :
  (∀ kw desc_attr clk w, ∃ b w',
      JsonProgressBar.__init__ kw desc_attr clk w = (Ok b, w')
      ∧ effects_of (JsonProgressBar.__init__ kw desc_attr clk) w
        = [Out (progress_event (_label b) (tqdm.initial kw)
                  (total_or_0 (tqdm.kw_total kw)))])
  ∧ (∀ self k clk w,
      too_soon (_last_emit self) (now clk) = true →
      effects_of (JsonProgressBar.update self k clk) w = [])
  ∧ (∀ env spec args w,
      omap out_of
        (effects_of (download_file env spec args (dest_root_of args)
                       (cache_dir_of args) (hf_token_of args)) w)
      = file_events env args spec w).
Proof.
  split; [|split].
  - intros kw desc_attr clk w. do 2 eexists.
    split; [apply __init___unfold | apply __init___effects].
  - intros self k clk w Hlt. rewrite update_effects. unfold throttled.
    cbn [negb andb counted _last_emit]. by rewrite Hlt.
  - apply download_file_events.
Qed.

(** The sample library reports the whole file 50 ms after it built the bar:
    that update is silent, and the file's only event is the bar's first. *)
Lemma progress_is_forced_at_construction_only_witness :
  effects_of
    (JsonProgressBar.update
       (emitted_at (fresh_bar sample_kwargs None) (ms 1000)) 100 (at_ms 1050))
    (initial_world sample_env) = []
  ∧ omap out_of
      (effects_of
         (download_file sample_env {| path := "a.bin"; size := None |}
            (sample_args ["a.bin"]) (dest_root_of (sample_args ["a.bin"]))
            (cache_dir_of (sample_args ["a.bin"])) (hf_token_of (sample_args ["a.bin"])))
         (initial_world sample_env))
    = [progress_event "a.bin" 0 100].
Proof.
  destruct progress_is_forced_at_construction_only as (_ & Hquiet & Hfile).
  split.
  - apply Hquiet. reflexivity.
  - rewrite Hfile. reflexivity.
Defined.

(** C3 fails as stated: a file of 100 bytes whose transfer succeeds within
    the interval leaves a single progress event, with [downloaded] 0 and
    [total] 100, before [complete]. *)
Lemma completion_is_not_reported :
  (run sample_env (sample_argv ["a.bin"])).1 = 0
  ∧ stdout (run sample_env (sample_argv ["a.bin"])).2
    = [progress_event "a.bin" 0 100; complete_event]
  ∧ downloads (log (run sample_env (sample_argv ["a.bin"])).2) = [0]
  ∧ totals (log (run sample_env (sample_argv ["a.bin"])).2) = [100].
Proof. repeat split; reflexivity. Qed.

(** C8, as amended.  The size hint of a spec is not used: [download_file]
    does the same whatever the hint, the bar is built by the library from
    its own keyword arguments, and the [total] of every progress event is
    the bar's own total, 0 when the bar has none; reporting never fails. *)
Theorem size_hint_is_not_used :
  (∀ env p s1 s2 args dest_root cache_dir hf_token,
      download_file env {| path := p; size := s1 |} args dest_root cache_dir hf_token
      = download_file env {| path := p; size := s2 |} args dest_root cache_dir hf_token)
  ∧ (∀ kw desc_attr clk w,
      effects_of (JsonProgressBar.__init__ kw desc_attr clk) w
      = [Out (progress_event (or_str desc_attr (or_str (tqdm.desc kw) ""))
                (tqdm.initial kw) (default 0 (tqdm.kw_total kw)))])
  ∧ (∀ self force clk w, ∃ b w',
      JsonProgressBar._emit self force clk w = (Ok b, w')
      ∧ (effects_of (JsonProgressBar._emit self force clk) w = []
         ∨ effects_of (JsonProgressBar._emit self force clk) w
           = [Out (progress_event (_label self) (tqdm.n (base self))
                     (default 0 (tqdm.total (base self))))])).
Proof.
  split; [|split].
  - reflexivity.
  - intros kw desc_attr clk w. apply __init___effects.
  - intros self force clk w. rewrite _emit_unfold.
    destruct (throttled self force clk) eqn:Ht; do 2 eexists; (split; [reflexivity|]).
    + left. apply effects_of_nil. by rewrite _emit_unfold, Ht.
    + right. apply effects_of_app. by rewrite _emit_unfold, Ht.
Qed.

(** C8 fails as stated: for the spec ["a.bin::1024"], with a library that
    does not know the size when it builds the bar, the event carries
    [total] 0, not the hint. *)
Lemma size_hint_is_not_the_fallback :
  parse_file_specs ["a.bin::1024"] = Ok [{| path := "a.bin"; size := Some 1024 |}]
  ∧ stdout (run hintless_env (sample_argv ["a.bin::1024"])).2
    = [progress_event "a.bin" 0 0; complete_event].
Proof. split; reflexivity. Qed.

(** ** The probe *)

(** C7: what the code does in probe mode.  With every dependency importable,
    the call [emit("probe", status="ok", ...)] binds [status] twice and raises
    [TypeError] before anything is written: no event is sent, the traceback
    goes to stderr and the exit status is 1. *)
Theorem probe_raises_before_any_event
    (env : Env) (argv : Argv.t) (args : Namespace.t) (v : string) :
  import_huggingface_hub env = None → import_tqdm env = None →
  import_hf_xet env = None → version env "huggingface_hub" = Some v →
  parsed argv args → Namespace.probe args = true →
  (run env argv).1 = 1
  ∧ stdout (run env argv).2 = []
  ∧ log (run env argv).2
    = [Err ("Traceback (most recent call last): "
            +:+ "emit() got multiple values for argument 'status'")].
Proof.
  intros Hhub Htqdm Hxet Hv Hparsed Hprobe.
  erewrite run_main; [| done | done |].
  2:{ unfold main. erewrite bind_Ok by apply Hparsed.
      erewrite bind_Ok by reflexivity. erewrite bind_Ok by reflexivity.
      edestruct (require_hf_xet_ok env) as [vx Hvx]; [done|].
      erewrite bind_Ok by exact Hvx.
      rewrite Hv. erewrite bind_Ok by reflexivity. rewrite Hprobe.
      erewrite bind_Raise by reflexivity. reflexivity. }
  done.
Qed.

(** The sample environment, probed. *)
Lemma probe_raises_before_any_event_witness :
  (run sample_env probe_argv).1 = 1 ∧ stdout (run sample_env probe_argv).2 = [].
Proof.
  destruct (probe_raises_before_any_event sample_env probe_argv probe_args "1.0")
    as (Hcode & Hout & _); try reflexivity.
  - intros w. reflexivity.
  - split; [exact Hcode | exact Hout].
Defined.

(** ** More on the progress bar *)

Section BarLife.

Implicit Types b self : Bar.
Implicit Types ks quiet : list (Z * Clock).
Implicit Types w : World.

Lemma updates_effects_cons self k clk rest w :
  effects_of (updates self ((k, clk) :: rest)) w =
    if throttled (counted self k) false clk
    then effects_of (updates (counted self k) rest) w
    else Out (bar_event (counted self k))
           :: effects_of (updates (emitted_at (counted self k) (now clk)) rest)
                (after_emit (bar_event (counted self k)) (later clk) w).
Proof.
  unfold effects_of at 1. rewrite updates_cons.
  destruct (throttled _ _ _); [done|].
  edestruct (updates_Ok (emitted_at (counted self k) (now clk)) rest) as (b' & w' & l & Hrun & Hl).
  rewrite (effects_of_app _ _ l) by (by rewrite Hrun).
  rewrite Hrun in *. cbn [snd]. rewrite Hl, log_after_emit, <- app_assoc.
  by rewrite drop_app_length.
Qed.

Lemma readings_spaced self ks w :
  Sorted spaced (_last_emit self :: emission_readings self ks w).
Proof.
  revert self w. induction ks as [|[k clk] rest IH]; intros self w.
  - repeat constructor.
  - rewrite emission_readings_cons. destruct (throttled _ _ _) eqn:Ht.
    + apply (IH (counted self k)).
    + specialize (IH (emitted_at (counted self k) (now clk))
                    (after_emit (bar_event (counted self k)) (later clk) w)).
      constructor; [exact IH|]. constructor. exact Ht.
Qed.

Lemma readings_count self ks w :
  length (effects_of (updates self ks) w) = length (emission_readings self ks w).
Proof.
  revert self w. induction ks as [|[k clk] rest IH]; intros self w.
  - by rewrite effects_of_nil.
  - rewrite updates_effects_cons, emission_readings_cons.
    destruct (throttled _ _ _); cbn [length]; by rewrite IH.
Qed.

Lemma updates_effects_label self ks w :
  Forall (λ e, ∃ d t, e = Out (progress_event (_label self) d t))
    (effects_of (updates self ks) w).
Proof.
  revert self w. induction ks as [|[k clk] rest IH]; intros self w.
  - rewrite effects_of_nil by done. constructor.
  - rewrite updates_effects_cons. destruct (throttled _ _ _).
    + apply (IH (counted self k)).
    + constructor; [by do 2 eexists|].
      apply (IH (emitted_at (counted self k) (now clk))).
Qed.

Lemma bar_life_effects kw desc_attr clk ks w :
  effects_of (bar_life kw desc_attr clk ks) w =
    Out (bar_event (fresh_bar kw desc_attr))
      :: effects_of (updates (emitted_at (fresh_bar kw desc_attr) (now clk)) ks)
           (after_emit (bar_event (fresh_bar kw desc_attr)) (later clk) w).
Proof.
  unfold effects_of at 1. rewrite bar_life_unfold.
  edestruct (updates_Ok (emitted_at (fresh_bar kw desc_attr) (now clk)) ks)
    as (b' & w' & l & Hrun & Hl).
  rewrite (effects_of_app _ _ l) by (by rewrite Hrun).
  rewrite Hrun. cbn [snd]. rewrite Hl, log_after_emit, <- app_assoc.
  by rewrite drop_app_length.
Qed.

Lemma updates_quiet_state self quiet w :
  Forall (λ kc : Z * Clock, too_soon (_last_emit self) (now kc.2) = true) quiet →
  ∃ b, updates self quiet w = (Ok b, w)
    ∧ tqdm.n (base b) = tqdm.n (base self) + total_bytes quiet
    ∧ tqdm.total (base b) = tqdm.total (base self)
    ∧ _label b = _label self ∧ _last_emit b = _last_emit self.
Proof.
  revert self. induction quiet as [|[k clk] rest IH]; intros self Hq.
  - exists self. cbn. repeat split; lia.
  - apply Forall_cons in Hq as [Hk Hrest]. rewrite updates_cons.
    unfold throttled. cbn [negb andb counted _last_emit snd] in *. rewrite Hk.
    destruct (IH (counted self k)) as (b & Hrun & Hn & Ht & Hl & Hlast); [done|].
    exists b. split; [done|]. unfold total_bytes in *. cbn in *.
    repeat split; try done. lia.
Qed.

End BarLife.

(** X5. Between two successive progress events of one bar the throttle test
    of the script has failed, the bar's first event being that of its
    construction: the readings at which the bar emits, one per event, are
    such that the float difference of each with the one before, as [_emit]
    computes it, is not below the minimum interval 0.2. *)
Theorem emissions_are_spaced
    (kw : tqdm.kwargs) (desc_attr : option string) (clk : Clock)
    (ks : list (Z * Clock)) (w : World) :
  Sorted spaced (life_readings kw desc_attr clk ks w)
  ∧ length (effects_of (bar_life kw desc_attr clk ks) w)
    = length (life_readings kw desc_attr clk ks w).
Proof.
  unfold life_readings. rewrite __init___unfold, bar_life_effects.
  set (b := emitted_at (fresh_bar kw desc_attr) (now clk)).
  set (w' := after_emit _ _ w).
  pose proof (readings_spaced b ks w') as Hs. change (_last_emit b) with (now clk) in Hs.
  split; [done|]. cbn [length]. by rewrite readings_count.
Qed.

(** X6. Bytes counted by silent updates are not lost: after updates that the
    throttle test of the script keeps silent (the float difference of their
    reading with that of the bar's last emission is below 0.2), the first
    update for which the test fails reports, and its event carries every byte
    counted so far. *)
Theorem first_late_update_reports_all_bytes
    (self : Bar) (quiet : list (Z * Clock)) (k : Z) (clk : Clock)
    (rest : list (Z * Clock)) (w : World) :
  Forall (λ kc : Z * Clock, too_soon (_last_emit self) (now kc.2) = true) quiet →
  too_soon (_last_emit self) (now clk) = false →
  ∃ l,
    effects_of (updates self (quiet ++ (k, clk) :: rest)) w
    = Out (progress_event (_label self)
             (tqdm.n (base self) + total_bytes quiet + k)
             (total_or_0 (tqdm.total (base self)))) :: l.
Proof.
  revert self. induction quiet as [|[k0 clk0] quiet IH]; intros self Hq Hlate.
  - cbn [app]. rewrite updates_effects_cons.
    assert (throttled (counted self k) false clk = false) as -> by exact Hlate.
    eexists. unfold bar_event. cbn [counted base _label tqdm.n tqdm.total].
    replace (tqdm.n (base self) + total_bytes [] + k) with (tqdm.n (base self) + k)
      by (cbn; lia).
    reflexivity.
  - apply Forall_cons in Hq as [Hk0 Hq]. cbn [app].
    rewrite updates_effects_cons.
    assert (throttled (counted self k0) false clk0 = true) as -> by exact Hk0.
    destruct (IH (counted self k0)) as [l Hl]; [done | done |].
    exists l. rewrite Hl. cbn [counted base _label tqdm.n tqdm.total].
    replace (tqdm.n (base self) + total_bytes ((k0, clk0) :: quiet) + k)
      with (tqdm.n (base self) + k0 + total_bytes quiet + k)
      by (unfold total_bytes; cbn; lia).
    reflexivity.
Qed.

(** A bar that last emitted at 1000 ms: 40 bytes at 1100 ms stay silent, the
    60 bytes at 1300 ms are reported together with them. *)
Lemma first_late_update_reports_all_bytes_witness :
  ∃ l,
    effects_of
      (updates (emitted_at (fresh_bar sample_kwargs None) (ms 1000))
         ([(40, at_ms 1100)] ++ (60, at_ms 1300) :: [(1, at_ms 1301)]))
      (initial_world sample_env)
    = Out (progress_event "a.bin" (0 + total_bytes [(40, at_ms 1100)] + 60) 100) :: l.
Proof.
  apply (first_late_update_reports_all_bytes
           (emitted_at (fresh_bar sample_kwargs None) (ms 1000))
           [(40, at_ms 1100)] 60 (at_ms 1300) [(1, at_ms 1301)]).
  - repeat constructor.
  - reflexivity.
Defined.

(** X7. Every progress event of a bar names the same file: the label the bar
    took at its construction, which is its [desc] attribute when that is a
    non-empty string, else the [desc] keyword argument when that is one,
    else the empty string. *)
Theorem events_of_a_bar_share_its_label
    (kw : tqdm.kwargs) (desc_attr : option string) (clk : Clock)
    (ks : list (Z * Clock)) (w : World) :
  Forall (λ e, ∃ d t, e = Out (progress_event (label_of kw desc_attr) d t))
    (effects_of (bar_life kw desc_attr clk ks) w)
  ∧ label_of kw desc_attr =
      match desc_attr, tqdm.desc kw with
      | Some (String c s), _ => String c s
      | _, Some (String c s) => String c s
      | _, _ => EmptyString
      end.
Proof.
  split.
  - rewrite bar_life_effects. constructor; [by do 2 eexists|].
    apply (updates_effects_label (emitted_at (fresh_bar kw desc_attr) (now clk))).
  - unfold label_of, or_str.
    destruct desc_attr as [[|??]|], (tqdm.desc kw) as [[|??]|]; reflexivity.
Qed.

(** ** More on the parser *)

Section ParserMore.

Implicit Types raw : string.
Implicit Types specs acc new : list FileSpec.

Lemma parse_loop_Raise_first raw_values acc e :
  parse_loop raw_values acc = Raise e →
  (acc = [] ∧ kept_entries raw_values = []
   ∧ e = ValueError "At least one --file argument is required")
  ∨ ∃ good raw rest,
      kept_entries raw_values = good ++ raw :: rest
      ∧ Forall (λ r, ¬ normalizes_to_empty r) good
      ∧ normalizes_to_empty raw
      ∧ e = ValueError ("Invalid file specification: '" +:+ raw +:+ "'").
Proof.
  revert acc. induction raw_values as [|raw0 rest IH]; intros acc; cbn [parse_loop].
  - destruct acc; [|done]. intros [= <-]. by left.
  - rewrite kept_entries_cons.
    destruct (PyStr.truthy (PyStr.strip raw0)) eqn:Htr; cbn [negb]; [|apply IH].
    destruct (split_spec_Ok (PyStr.strip raw0)) as (p & sz & Hsplit & _).
    rewrite Hsplit.
    destruct (PyStr.truthy (PyStr.lstrip "/ " p)) eqn:Hn; cbn [negb].
    + intros Hloop.
      apply IH in Hloop as [(Hacc & _) | (good & raw & rest' & Hk & Hgood & Hbad & ->)].
      * by destruct acc.
      * right. exists (PyStr.strip raw0 :: good), raw, rest'.
        split; [by rewrite Hk|]. split; [|done]. constructor; [|done].
        intros (p' & sz' & Hs' & Hempty). rewrite Hsplit in Hs'.
        injection Hs' as <- <-. by rewrite Hempty in Hn.
    + intros [= <-]. right. exists [], (PyStr.strip raw0), (kept_entries rest).
      split; [done|]. split; [constructor|]. split; [|done].
      exists p, sz. split; [done|]. by apply truthy_false.
Qed.

Lemma parse_loop_continue raw_values acc r more :
  parse_loop raw_values acc = Ok r →
  parse_loop (raw_values ++ more) acc = parse_loop more r.
Proof.
  revert acc. induction raw_values as [|raw rest IH]; intros acc; cbn [parse_loop app].
  - destruct acc; [done|]. by intros [= <-].
  - destruct (negb (PyStr.truthy (PyStr.strip raw))); [apply IH|].
    destruct (split_spec _ _) as [[p sz]|]; [|done].
    destruct (negb (PyStr.truthy (PyStr.lstrip "/ " p))); [done | apply IH].
Qed.

Lemma parse_loop_rebase raw_values acc r :
  parse_loop raw_values acc = Ok r →
  ∃ new, r = acc ++ new
    ∧ ∀ acc', acc' ≠ [] → parse_loop raw_values acc' = Ok (acc' ++ new).
Proof.
  revert acc. induction raw_values as [|raw rest IH]; intros acc; cbn [parse_loop].
  - destruct acc as [|a acc]; [done|]. intros [= <-]. exists [].
    split; [by rewrite app_nil_r|]. intros [|??] ?; [done|]. by rewrite app_nil_r.
  - destruct (negb (PyStr.truthy (PyStr.strip raw))); [apply IH|].
    destruct (split_spec _ _) as [[p sz]|]; [|done].
    destruct (negb (PyStr.truthy (PyStr.lstrip "/ " p))); [done|].
    intros Hloop. apply IH in Hloop as (new & -> & Hnew).
    eexists (_ :: new). split; [by rewrite <- app_assoc|].
    intros acc' _. rewrite Hnew by (by destruct acc'). by rewrite <- app_assoc.
Qed.

End ParserMore.

(** X1. A failed parse reports its cause: when no entry is left once the
    blank ones are dropped, the message asks for a [--file] argument;
    otherwise the message quotes, trimmed, the first entry whose path is
    empty once normalized, the entries before it being sound.  The
    exception is a [ValueError] in both cases. *)
Theorem parse_failure_names_first_bad_entry (raw_values : list string) (e : exn) :
  parse_file_specs raw_values = Raise e →
  (kept_entries raw_values = []
   ∧ e = ValueError "At least one --file argument is required")
  ∨ ∃ good raw rest,
      kept_entries raw_values = good ++ raw :: rest
      ∧ Forall (λ r, ¬ normalizes_to_empty r) good
      ∧ normalizes_to_empty raw
      ∧ e = ValueError ("Invalid file specification: '" +:+ raw +:+ "'").
Proof.
  intros Hloop. apply parse_loop_Raise_first in Hloop as [(_ & Hk & He) | Hbad]; eauto.
Qed.

(** A good entry, then one that is only a slash and spaces, then one that is
    only a size: the message quotes the second, trimmed. *)
Lemma parse_failure_names_first_bad_entry_witness :
  parse_file_specs ["a.txt"; " / / "; "::12"]
  = Raise (ValueError "Invalid file specification: '/ /'")
  ∧ ((kept_entries ["a.txt"; " / / "; "::12"] = []
      ∧ ValueError "Invalid file specification: '/ /'"
        = ValueError "At least one --file argument is required")
     ∨ ∃ good raw rest,
         kept_entries ["a.txt"; " / / "; "::12"] = good ++ raw :: rest
         ∧ Forall (λ r, ¬ normalizes_to_empty r) good
         ∧ normalizes_to_empty raw
         ∧ ValueError "Invalid file specification: '/ /'"
           = ValueError ("Invalid file specification: '" +:+ raw +:+ "'")).
Proof.
  split; [reflexivity|].
  apply (parse_failure_names_first_bad_entry ["a.txt"; " / / "; "::12"]).
  reflexivity.
Defined.

(** X2. Parsing goes entry by entry: two lists that parse give, put end to
    end, the specs of the first followed by those of the second, and an
    entry that is blank once trimmed changes nothing wherever it stands
    between them. *)
Theorem parse_file_specs_app
    (l1 l2 : list string) (blank : string) (s1 s2 : list FileSpec) :
  parse_file_specs l1 = Ok s1 →
  parse_file_specs l2 = Ok s2 →
  PyStr.strip blank = EmptyString →
  parse_file_specs (l1 ++ l2) = Ok (s1 ++ s2)
  ∧ parse_file_specs (l1 ++ blank :: l2) = Ok (s1 ++ s2).
Proof.
  unfold parse_file_specs. intros H1 H2 Hblank.
  assert (parse_loop l2 s1 = Ok (s1 ++ s2)) as H12.
  { apply parse_loop_rebase in H2 as (new & -> & Hnew). apply Hnew.
    intros ->. by apply parse_loop_nonempty in H1. }
  split.
  - by rewrite (parse_loop_continue l1 [] s1 l2 H1).
  - rewrite (parse_loop_continue l1 [] s1 (blank :: l2) H1).
    cbn [parse_loop]. by rewrite Hblank.
Qed.

(** Two one-entry lists and a blank of spaces and a tab. *)
Lemma parse_file_specs_app_witness :
  parse_file_specs (["a.bin::7"] ++ ["/b.bin"])
  = Ok ([{| path := "a.bin"; size := Some 7 |}] ++ [{| path := "b.bin"; size := None |}])
  ∧ parse_file_specs (["a.bin::7"] ++ String " " (String "009" " ") :: ["/b.bin"])
    = Ok ([{| path := "a.bin"; size := Some 7 |}] ++ [{| path := "b.bin"; size := None |}]).
Proof.
  apply (parse_file_specs_app ["a.bin::7"] ["/b.bin"] (String " " (String "009" " ")));
    reflexivity.
Defined.

(** ** What a computation leaves alone *)

Section Keeps.

Context (R : World → World → Prop) `{!PreOrder R}.

Lemma keeps_ret {A} (a : A) : keeps R (mret a : M A).
Proof. intros w. reflexivity. Qed.

Lemma keeps_raise {A} (e : exn) : keeps R (raise e : M A).
Proof. intros w. reflexivity. Qed.

Lemma keeps_of_result {A} (r : result A) : keeps R (of_result r).
Proof. intros w. destruct r; reflexivity. Qed.

Lemma keeps_bind {A B} (c : M A) (k : A → M B) :
  keeps R c → (∀ a, keeps R (k a)) → keeps R (c ≫= k).
Proof.
  intros Hc Hk w. unfold mbind, M_bind, bind. specialize (Hc w).
  destruct (c w) as [[a|e] w']; cbn [snd] in *; [|done].
  etransitivity; [exact Hc | apply Hk].
Qed.

Lemma keeps_try {A} (c : M A) : keeps R c → keeps R (try c).
Proof. intros Hc w. unfold try. specialize (Hc w). by destruct (c w). Qed.

End Keeps.

Section GrowsBy.

Context (Q : Effect → Prop).
Context (progress_allowed : ∀ m, is_progress m → Q (Out m)).

Global Instance grows_by_preorder : PreOrder (grows_by Q).
Proof.
  split.
  - intros w. split; [done|]. exists []. by rewrite app_nil_r.
  - intros w1 w2 w3 [He1 (l1 & Hl1 & HQ1)] [He2 (l2 & Hl2 & HQ2)].
    split; [congruence|]. exists (l1 ++ l2).
    split; [by rewrite Hl2, Hl1, app_assoc | by apply Forall_app].
Qed.

Lemma keeps_effect e : Q e → keeps (grows_by Q) (effect e).
Proof. intros He w. split; [done|]. exists [e]. split; [done | by constructor]. Qed.

Lemma keeps_set_bars f : keeps (grows_by Q) (modify (set_bars f)).
Proof. intros w. split; [done|]. exists []. by rewrite app_nil_r. Qed.

Lemma keeps_emit status payload :
  Q (Out (("status", JStr status) :: payload)) →
  keeps (grows_by Q) (emit status payload).
Proof.
  intros He. unfold emit. case_bool_decide.
  - apply keeps_raise, _.
  - by apply keeps_effect.
Qed.

Lemma keeps__emit self force clk :
  keeps (grows_by Q) (JsonProgressBar._emit self force clk).
Proof.
  intros w. rewrite _emit_unfold. destruct (throttled _ _ _); [reflexivity|].
  split; [done|]. exists [Out (bar_event self)]. split; [done|].
  constructor; [|done]. by apply progress_allowed.
Qed.

Lemma keeps_bar_call c : keeps (grows_by Q) (bar_call c).
Proof.
  destruct c as [i kw desc_attr clk | i k clk]; cbn [bar_call].
  - apply keeps_bind; [apply _ | apply keeps__emit |]. intros b. apply keeps_set_bars.
  - intros w. destruct (bars w !! i) as [self|]; [|reflexivity].
    apply (keeps_bind _ _ _); [apply keeps__emit|]. intros b. apply keeps_set_bars.
Qed.

Lemma keeps_bar_calls cs : keeps (grows_by Q) (bar_calls cs).
Proof.
  induction cs as [|c rest IH]; cbn [bar_calls].
  - apply keeps_ret, _.
  - apply keeps_bind; [apply _ | apply keeps_bar_call | done].
Qed.

Lemma keeps_fs_call env a : Q (Fs a) → keeps (grows_by Q) (fs_call env a).
Proof.
  intros Ha w. unfold fs_call.
  apply (keeps_bind _ _ _); [by apply keeps_effect|]. intros _.
  destruct (fs env _ a); [apply keeps_raise | apply keeps_ret]; apply _.
Qed.

Lemma keeps_hf_hub_download_call env c :
  Q (Hub c) → keeps (grows_by Q) (hf_hub_download_call env c).
Proof.
  intros Hc w. unfold hf_hub_download_call.
  apply (keeps_bind _ _ _); [by apply keeps_effect|]. intros _.
  apply keeps_bind; [apply _ | apply keeps_bar_calls |]. intros _.
  destruct (outcome _); [apply keeps_ret | apply keeps_raise]; apply _.
Qed.

Lemma keeps_download_file env spec args dest_root cache_dir hf_token :
  Q (Fs (Mkdir (Parent (Join dest_root (path spec))))) →
  Q (Hub (hub_request spec args dest_root cache_dir hf_token)) →
  (∀ src, Q (Fs (Replace src (Join dest_root (path spec))))) →
  (∀ line, Q (Err line)) →
  keeps (grows_by Q) (download_file env spec args dest_root cache_dir hf_token).
Proof.
  intros Hmk Hhub Hrep Herr w. unfold download_file, ensure_dest_dir.
  destruct (monotonic env _) as [started finished].
  apply (keeps_bind _ _ _); [by apply keeps_fs_call|]. intros _.
  apply keeps_bind; [apply _ | by apply keeps_hf_hub_download_call |]. intros p.
  apply keeps_bind; [apply _ | |].
  - unfold str_ne_path. apply keeps_bind; [apply _ | by apply keeps_fs_call |].
    intros _. by apply keeps_fs_call.
  - intros _. apply keeps_bind; [apply _ | apply keeps_of_result, _ |].
    intros d. by apply keeps_effect.
Qed.

End GrowsBy.

(** ** Every run *)

Section Runs.

Context (env : Env) (argv : Argv.t).

Implicit Types args : Namespace.t.
Implicit Types specs : list FileSpec.

Lemma require_hf_xet_value w :
  import_hf_xet env = None →
  require_hf_xet env w = (Ok (default "unknown" (version env "hf_xet")), w).
Proof.
  intros Hxet. unfold require_hf_xet. rewrite Hxet.
  by destruct (version env "hf_xet").
Qed.

Lemma main_started args :
  parsed argv args → import_hf_xet env = None →
  ∀ v, version env "huggingface_hub" = Some v →
  main env argv (initial_world env) =
    (if Namespace.probe args then
       emit "probe"
         [("status", JStr "ok"); ("huggingface_hub", JStr v);
          ("hf_xet", JStr (default "unknown" (version env "hf_xet")))];;
       mret 0
     else
       match parse_file_specs (Namespace.files args) with
       | Raise (ValueError msg) => emit "error" [("message", JStr msg)];; mret 64
       | Raise exc => raise exc
       | Ok file_specs =>
           match resolution_failure env args with
           | Some msg => raise (Failure msg)
           | None =>
               write_stderr (opening_line env args);; session_loop env args file_specs
           end
       end) (started_world env []).
Proof.
  intros Hparsed Hxet v Hv. unfold main.
  erewrite bind_Ok by apply Hparsed.
  erewrite bind_Ok by reflexivity. erewrite bind_Ok by reflexivity.
  erewrite bind_Ok by (by apply require_hf_xet_value).
  rewrite Hv. erewrite bind_Ok by reflexivity.
  destruct (Namespace.probe args); [reflexivity|].
  destruct (parse_file_specs _) as [specs|[]]; try reflexivity.
  unfold resolution_failure, resolve_path, session_loop, opening_line,
    dest_root_of, cache_dir_of.
  destruct (resolve env (Namespace.dest args)); [reflexivity|].
  destruct (Namespace.cache_dir args) as [d|]; [|reflexivity].
  destruct (PyStr.truthy d); [|reflexivity].
  destruct (resolve env d); reflexivity.
Qed.

Lemma main_xet_missing args exc :
  parsed argv args → import_hf_xet env = Some exc →
  main env argv (initial_world env) =
    (Raise (SystemExit 90),
     started_world env [Out (unavailable_event ("hf_xet not available: " +:+ exc))]).
Proof.
  intros Hparsed Hxet. unfold main.
  erewrite bind_Ok by apply Hparsed.
  erewrite bind_Ok by reflexivity. erewrite bind_Ok by reflexivity.
  erewrite bind_Raise; [reflexivity|]. unfold require_hf_xet. rewrite Hxet.
  erewrite bind_Ok by reflexivity. reflexivity.
Qed.

Lemma main_version_missing args :
  parsed argv args → import_hf_xet env = None →
  version env "huggingface_hub" = None →
  main env argv (initial_world env) =
    (Raise (PackageNotFoundError "huggingface_hub"), started_world env []).
Proof.
  intros Hparsed Hxet Hv. unfold main.
  erewrite bind_Ok by apply Hparsed.
  erewrite bind_Ok by reflexivity. erewrite bind_Ok by reflexivity.
  edestruct (require_hf_xet_ok env) as [vx Hvx]; [done|].
  erewrite bind_Ok by exact Hvx. rewrite Hv.
  erewrite bind_Raise by reflexivity. reflexivity.
Qed.

Lemma keeps_download_all args specs sub :
  sub ⊆ specs →
  keeps (grows_by (of_plan args specs))
    (download_all env sub args (dest_root_of args) (cache_dir_of args) (hf_token_of args)).
Proof.
  induction sub as [|s rest IH]; intros Hsub; cbn [download_all].
  - apply keeps_ret, _.
  - assert (s ∈ specs) as Hs by (apply Hsub; left).
    apply keeps_bind; [apply _ | |].
    + apply keeps_try, keeps_download_file; cbn; eauto.
    + intros [[]|exc].
      * apply IH. intros x Hx. apply Hsub. by right.
      * destruct (is_Exception exc); [|apply keeps_raise, _].
        apply keeps_bind; [apply _ | by apply keeps_emit |].
        intros _. apply keeps_ret, _.
Qed.

Lemma keeps_session_loop args specs :
  keeps (grows_by (of_plan args specs)) (session_loop env args specs).
Proof.
  unfold session_loop. apply keeps_bind; [apply _ | by apply keeps_download_all |].
  intros [code|]; [apply keeps_ret, _|].
  apply keeps_bind; [apply _ | by apply keeps_emit |]. intros _. apply keeps_ret, _.
Qed.

(** The final state of a run differs from that of [main] by a traceback at
    most. *)
Lemma run_world r w :
  import_huggingface_hub env = None → import_tqdm env = None →
  main env argv (initial_world env) = (r, w) →
  environ (run env argv).2 = environ w
  ∧ ∃ l, log (run env argv).2 = log w ++ l ∧ Forall (λ e, ∃ line, e = Err line) l.
Proof.
  intros Hhub Htqdm Hmain. rewrite (run_main env argv r w Hhub Htqdm Hmain).
  destruct r as [code|[]]; cbn; split; try done;
    try (exists []; by rewrite app_nil_r); eexists [_]; (split; [done|]); repeat constructor; eauto.
Qed.

(** A session whose plan parses: from the opening diagnostic on, the variables
    stay and the log grows by effects of the plan. *)
Lemma session_grows args specs :
  session_starts env argv args →
  parse_file_specs (Namespace.files args) = Ok specs →
  grows_by (of_plan args specs) (started_world env [Err (opening_line env args)])
    (run env argv).2.
Proof.
  intros [(Hhub & Htqdm & Hxet & [v Hv] & Hparsed & Hprobe) Hres] Hspecs.
  pose proof (main_started args Hparsed Hxet v Hv) as Hmain.
  rewrite Hprobe, Hspecs, Hres in Hmain. erewrite bind_Ok in Hmain by reflexivity.
  change (set_log _ (started_world env []))
    with (started_world env [Err (opening_line env args)]) in Hmain.
  pose proof (keeps_session_loop args specs
                (started_world env [Err (opening_line env args)])) as Hkeeps.
  destruct (session_loop env args specs _) as [r w] eqn:Hloop. cbn [snd] in Hkeeps.
  destruct (run_world r w Hhub Htqdm Hmain) as [Henv (l & Hl & HQ)].
  destruct Hkeeps as [Henv' (l' & Hl' & HQ')].
  split; [congruence|]. exists (l' ++ l). split; [by rewrite Hl, Hl', app_assoc|].
  apply Forall_app. split; [done|]. eapply Forall_impl; [exact HQ|].
  by intros e [line ->].
Qed.

(** The runs that start no session with a valid plan: their exit status,
    their whole log and their environment variables. *)
Lemma run_without_valid_session :
  (∀ args specs, session_starts env argv args →
                 parse_file_specs (Namespace.files args) = Ok specs → False) →
  ∃ code l,
    (run env argv).1 = code ∧ log (run env argv).2 = l
    ∧ ((code = 97 ∨ code = 98 ∨ code = 2 ∨ code = 1) ∧ (∃ line, l = [Err line])
       ∨ code = 0 ∧ l = [OutHelp] ∧ Argv.syntax argv = Argv.Help
       ∨ code = 90 ∧ (∃ reason, l = [Out (unavailable_event reason)])
       ∨ code = 64 ∧ (∃ msg, l = [Out (error_event msg)])).
Proof.
  intros Hno. do 2 eexists. split; [reflexivity|]. split; [reflexivity|].
  destruct (import_huggingface_hub env) as [exc|] eqn:Hhub.
  { rewrite (run_without_huggingface_hub env argv exc Hhub). left. eauto 10. }
  destruct (import_tqdm env) as [exc|] eqn:Htqdm.
  { rewrite (run_without_tqdm env argv exc Hhub Htqdm). left. eauto 10. }
  destruct (parse_args_cases argv) as [Hhelp | [Hmiss | [args Hparsed]]].
  { destruct (run_help env argv Hhub Htqdm Hhelp) as [-> ->]. right; left. done. }
  { destruct (run_usage env argv Hhub Htqdm Hmiss) as [-> [line ->]]. left. eauto 10. }
  destruct (import_hf_xet env) as [exc|] eqn:Hxet.
  { rewrite (run_main env argv _ _ Hhub Htqdm (main_xet_missing args exc Hparsed Hxet)).
    right; right; left. cbn. eauto. }
  destruct (version env "huggingface_hub") as [v|] eqn:Hv.
  2:{ rewrite (run_main env argv _ _ Hhub Htqdm (main_version_missing args Hparsed Hxet Hv)).
      left. cbn. eauto 10. }
  pose proof (main_started args Hparsed Hxet v Hv) as Hmain.
  destruct (Namespace.probe args) eqn:Hprobe.
  { erewrite bind_Raise in Hmain by reflexivity.
    rewrite (run_main env argv _ _ Hhub Htqdm Hmain). left. cbn. eauto 10. }
  assert (session_opens env argv args) as Hopen by (unfold session_opens; eauto 10).
  destruct (parse_file_specs (Namespace.files args)) as [specs|e] eqn:Hspecs.
  { destruct (resolution_failure env args) as [m|] eqn:Hres.
    - destruct (run_unresolved env argv args specs m Hopen Hspecs Hres) as [-> ->].
      left. eauto 10.
    - exfalso. apply (Hno args specs); [by split | done]. }
  assert (∃ msg, e = ValueError msg) as [msg ->].
  { apply parse_loop_Raise in Hspecs as (msg & -> & _). eauto. }
  destruct (run_invalid_specs env argv args msg Hopen Hspecs) as [-> ->].
  do 3 right. eauto.
Qed.

(** A run either starts no session with a valid plan, or names one. *)
Lemma valid_session_cases :
  (∀ args specs, session_starts env argv args →
                 parse_file_specs (Namespace.files args) = Ok specs → False)
  ∨ ∃ args specs, session_starts env argv args
                  ∧ parse_file_specs (Namespace.files args) = Ok specs.
Proof.
  destruct (parse_args_cases argv) as [Hhelp | [Hmiss | [args Hparsed]]].
  - left. intros args specs [(_ & _ & _ & _ & Hp & _) _] _.
    specialize (Hp (initial_world env)).
    rewrite parse_args_help in Hp by done. done.
  - left. intros args specs [(_ & _ & _ & _ & Hp & _) _] _.
    destruct (parse_args_usage argv (initial_world env) Hmiss) as [line Hline].
    specialize (Hp (initial_world env)). rewrite Hline in Hp. done.
  - destruct (parse_file_specs (Namespace.files args)) as [specs|e] eqn:Hspecs.
    + destruct (import_huggingface_hub env) eqn:?, (import_tqdm env) eqn:?,
        (import_hf_xet env) eqn:?, (version env "huggingface_hub") eqn:?,
        (Namespace.probe args) eqn:?, (resolution_failure env args) eqn:?;
        try (right; exists args, specs; unfold session_starts, session_opens; by eauto 10);
        left; intros args' specs' [(? & ? & ? & [? ?] & Hp' & ?) ?] _;
        try congruence;
        specialize (Hp' (initial_world env)); rewrite Hparsed in Hp';
        injection Hp' as <-; congruence.
    + left. intros args' specs' [(_ & _ & _ & _ & Hp' & _) _] Hs.
      specialize (Hp' (initial_world env)). rewrite Hparsed in Hp'.
      injection Hp' as <-. congruence.
Qed.

End Runs.

Lemma parsed_unique (argv : Argv.t) (args args' : Namespace.t) (w : World) :
  parsed argv args → parsed argv args' → args = args'.
Proof. intros H H'. specialize (H w). rewrite H' in H. by injection H. Qed.

Lemma session_environ_lookup (m : gmap string string) (k : string) :
  session_environ m !! k =
    if decide (k = "HF_HUB_DISABLE_TELEMETRY" ∨ k = "HF_HUB_DISABLE_SYMLINKS_WARNING")
    then Some (default "1" (m !! k))
    else m !! k.
Proof.
  unfold session_environ, setdefault_map.
  destruct (m !! "HF_HUB_DISABLE_TELEMETRY") as [t|] eqn:Ht.
  - destruct (m !! "HF_HUB_DISABLE_SYMLINKS_WARNING") as [s|] eqn:Hs.
    + case_decide as Hk; [|done]. by destruct Hk as [-> | ->]; rewrite ?Ht, ?Hs.
    + case_decide as Hk.
      * destruct Hk as [-> | ->]; [by rewrite lookup_insert_ne, Ht|].
        by rewrite lookup_insert_eq, Hs.
      * rewrite lookup_insert_ne; [done|]. intros <-. apply Hk. by right.
  - rewrite lookup_insert_ne by done.
    destruct (m !! "HF_HUB_DISABLE_SYMLINKS_WARNING") as [s|] eqn:Hs.
    + case_decide as Hk.
      * destruct Hk as [-> | ->]; [by rewrite lookup_insert_eq, Ht|].
        by rewrite lookup_insert_ne, Hs.
      * rewrite lookup_insert_ne; [done|]. intros <-. apply Hk. by left.
    + case_decide as Hk.
      * destruct Hk as [-> | ->].
        -- by rewrite lookup_insert_ne, lookup_insert_eq, Ht.
        -- by rewrite lookup_insert_eq, Hs.
      * rewrite !lookup_insert_ne; [done | |]; intros <-; apply Hk; eauto.
Qed.

Lemma main_environ (env : Env) (argv : Argv.t) (args : Namespace.t) :
  parsed argv args →
  environ (main env argv (initial_world env)).2 = session_environ (os_environ env).
Proof.
  intros Hparsed.
  destruct (import_hf_xet env) as [exc|] eqn:Hxet.
  { by rewrite (main_xet_missing env argv args exc Hparsed Hxet). }
  destruct (version env "huggingface_hub") as [v|] eqn:Hv.
  2:{ by rewrite (main_version_missing env argv args Hparsed Hxet Hv). }
  rewrite (main_started env argv args Hparsed Hxet v Hv).
  destruct (Namespace.probe args); [done|].
  destruct (parse_file_specs (Namespace.files args)) as [specs|[]]; try done.
  destruct (resolution_failure env args); [done|].
  erewrite bind_Ok by reflexivity.
  by destruct (keeps_session_loop env args specs
                 (set_log (λ l, l ++ [Err (opening_line env args)]) (started_world env [])))
    as [-> _].
Qed.

Lemma written_of_plan (args : Namespace.t) (specs : list FileSpec) (l : list Effect) :
  Forall (of_plan args specs) l →
  omap (λ e, match e with Out _ | OutHelp => Some e | _ => None end) l
  = Out <$> omap out_of l.
Proof.
  induction 1 as [|e l He _ IH]; [done|].
  destruct e; cbn [omap list_omap out_of]; rewrite ?IH; done.
Qed.

(** In a session with a valid plan, stdout holds protocol lines only. *)
Lemma session_written (env : Env) (argv : Argv.t) (args : Namespace.t)
    (specs : list FileSpec) :
  session_starts env argv args →
  parse_file_specs (Namespace.files args) = Ok specs →
  written_on_stdout (run env argv).2 = Out <$> stdout (run env argv).2.
Proof.
  intros Hstart Hspecs.
  destruct (session_grows env argv args specs Hstart Hspecs) as [_ (l & Hl & HQ)].
  unfold written_on_stdout, stdout. rewrite Hl, !omap_app, fmap_app. f_equal.
  by apply (written_of_plan args specs).
Qed.

(** X3. Whatever the environment and the command line, what the script
    writes on stdout is either the help text of argparse alone, the exit
    status being 0, or a run of progress events followed by at most one other
    event, and that event goes with the exit status: [complete] with 0, an
    [error] event with 64 and 65, an [unavailable] event with 90, and none
    with 1, 2, 97 and 98.  No other exit status occurs. *)
Theorem stream_ends_with_the_event_of_its_exit_code (env : Env) (argv : Argv.t) :
  (written_on_stdout (run env argv).2 = [OutHelp] ∧ (run env argv).1 = 0)
  ∨ ∃ evs term,
      written_on_stdout (run env argv).2 = Out <$> (evs ++ term)
      ∧ stdout (run env argv).2 = evs ++ term
      ∧ Forall is_progress evs
      ∧ terminal_of (run env argv).1 term.
Proof.
  unfold terminal_of.
  destruct (valid_session_cases env argv) as [Hno | (args & specs & Hstart & Hspecs)].
  - destruct (run_without_valid_session env argv Hno) as (code & l & <- & Hl & Hcases).
    unfold stdout, written_on_stdout. rewrite Hl.
    destruct Hcases as [[Hc [line ->]] | [[Hc [-> _]] | [[Hc [reason ->]] | [Hc [msg ->]]]]].
    + right. exists [], []. split; [done|]. split; [done|]. split; [constructor|].
      do 3 right. split; [lia | done].
    + left. done.
    + right. exists [], [unavailable_event reason]. split; [done|]. split; [done|].
      split; [constructor|]. right; right; left. eauto.
    + right. exists [], [error_event msg]. split; [done|]. split; [done|].
      split; [constructor|]. right; left. eauto.
  - right. destruct (first_failure_cases env args specs)
      as [Hall | (pre & spec & post & msg & -> & Hff)].
    + destruct (session_all_transfer env argv args specs Hstart Hspecs Hall)
        as (runs & blocks & Hcode & _ & _ & Hshape & Hblocks).
      destruct (blocks_hub args specs blocks Hblocks) as [_ Hprog].
      exists (omap out_of (concat blocks)), [complete_event].
      rewrite (session_written env argv args specs Hstart Hspecs).
      rewrite stdout_tae, Hshape, omap_app.
      split; [done|]. split; [done|]. split; [done|]. by left.
    + destruct (session_first_failure env argv args pre spec post msg Hstart Hspecs Hff)
        as (blocks & tail & Hcode & Hshape & Hblocks & Htail).
      destruct (blocks_hub args pre blocks Hblocks) as [_ Hprog].
      destruct (tail_block args spec tail Htail) as [Hprog' _].
      exists (omap out_of (concat blocks) ++ omap out_of tail),
        [error_event (failure_message spec msg)].
      rewrite (session_written env argv args _ Hstart Hspecs).
      rewrite stdout_tae, Hshape, !omap_app, app_assoc.
      split; [done|]. split; [done|].
      split; [by apply Forall_app|]. right; left. eauto.
Qed.

(** X4. [main] gives the two variables [HF_HUB_DISABLE_TELEMETRY] and
    [HF_HUB_DISABLE_SYMLINKS_WARNING] the value ["1"] unless the caller set
    them, and changes no other variable, in every run whose arguments parse,
    whatever happens next; a run that ends before (a base library missing, a
    required option missing) leaves the environment as it was. *)
Theorem environment_defaults (env : Env) (argv : Argv.t) :
  (∀ args, import_huggingface_hub env = None → import_tqdm env = None →
           parsed argv args →
     ∀ k, environ (run env argv).2 !! k =
            if decide (k = "HF_HUB_DISABLE_TELEMETRY"
                       ∨ k = "HF_HUB_DISABLE_SYMLINKS_WARNING")
            then Some (default "1" (os_environ env !! k))
            else os_environ env !! k)
  ∧ (is_Some (import_huggingface_hub env) ∨ is_Some (import_tqdm env)
     ∨ missing_required argv →
     environ (run env argv).2 = os_environ env).
Proof.
  split.
  - intros args Hhub Htqdm Hparsed k.
    destruct (main env argv (initial_world env)) as [r w] eqn:Hmain.
    destruct (run_world env argv r w Hhub Htqdm Hmain) as [-> _].
    pose proof (main_environ env argv args Hparsed) as Henv.
    rewrite Hmain in Henv. cbn [snd] in Henv. rewrite Henv.
    apply session_environ_lookup.
  - intros Hcase.
    destruct (import_huggingface_hub env) as [exc|] eqn:Hhub.
    { by rewrite (run_without_huggingface_hub env argv exc Hhub). }
    destruct (import_tqdm env) as [exc|] eqn:Htqdm.
    { by rewrite (run_without_tqdm env argv exc Hhub Htqdm). }
    destruct Hcase as [[? [=]] | [[? [=]] | Hmiss]].
    pose proof (parse_args_missing argv (initial_world env) Hmiss) as Hargs.
    assert (main env argv (initial_world env)
            = (Raise (SystemExit 2),
               set_log (λ l, l ++ [Err "error: the following arguments are required"])
                 (initial_world env))) as Hmain.
    { unfold main. by erewrite bind_Raise by exact Hargs. }
    by destruct (run_world env argv _ _ Hhub Htqdm Hmain) as [-> _].
Qed.

(** A caller that set the telemetry variable to ["0"]: it stays, the other
    variable gets its default, the rest is as it was. *)
Lemma environment_defaults_witness :
  let env :=
    {| import_huggingface_hub := None; import_tqdm := None; import_hf_xet := None;
       version := λ _, Some "1.0"; hf_hub_download := λ _ c, quick_transfer c;
       fs := λ _ _, None; resolve := λ _, None; fspath := sample_fspath;
       monotonic := λ _, (ms 1000, ms 1060);
       os_environ := {[ "HF_HUB_DISABLE_TELEMETRY" := "0"; "HOME" := "/root" ]} |} in
  environ (run env (sample_argv ["a.bin"])).2 !! "HF_HUB_DISABLE_TELEMETRY" = Some "0"
  ∧ environ (run env (sample_argv ["a.bin"])).2 !! "HF_HUB_DISABLE_SYMLINKS_WARNING"
    = Some "1"
  ∧ environ (run env (sample_argv ["a.bin"])).2 !! "HOME" = Some "/root"
  ∧ environ (run env (sample_argv ["a.bin"])).2 !! "PATH" = None.
Proof.
  intros env.
  destruct (environment_defaults env (sample_argv ["a.bin"])) as [Hset _].
  specialize (Hset (sample_args ["a.bin"]) eq_refl eq_refl (λ w, eq_refl)).
  rewrite !Hset. repeat split; reflexivity.
Defined.

(** X8. Every transfer a run starts and every file-system call it makes
    belongs to the plan: the library is asked for a file of the plan, with
    the repository, revision, token and directories of the command line, and
    the only paths touched are the destination of such a file (the root
    joined with the spec's path), as target of the move, and its parent
    directory, which is made. *)
Theorem effects_stay_in_plan
    (env : Env) (argv : Argv.t) (args : Namespace.t) (specs : list FileSpec) :
  parsed argv args →
  parse_file_specs (Namespace.files args) = Ok specs →
  Forall (of_plan args specs) (log (run env argv).2).
Proof.
  intros Hparsed Hspecs.
  destruct (valid_session_cases env argv) as [Hno | (args' & specs' & Hstart & Hspecs')].
  - destruct (run_without_valid_session env argv Hno) as (code & l & _ & -> & Hcases).
    destruct Hcases as [[_ [line ->]] | [[_ [-> Hhelp]] | [[_ [reason ->]] | [_ [msg ->]]]]];
      try by repeat constructor.
    by rewrite (parsed_plain env argv args Hparsed) in Hhelp.
  - assert (args' = args) as ->.
    { destruct Hstart as [(_ & _ & _ & _ & Hp & _) _].
      exact (parsed_unique argv args' args (initial_world env) Hp Hparsed). }
    assert (specs' = specs) as -> by congruence.
    destruct (session_grows env argv args specs Hstart Hspecs) as [_ (l & -> & HQ)].
    apply Forall_app. split; [|done]. by repeat constructor.
Qed.

(** The sample session for two files: its transfers and file-system calls
    are those of the two files, under [/dest]. *)
Lemma effects_stay_in_plan_witness :
  Forall (of_plan (sample_args ["a.bin"; "sub/b.bin::12"])
            [{| path := "a.bin"; size := None |};
             {| path := "sub/b.bin"; size := Some 12 |}])
    (log (run sample_env (sample_argv ["a.bin"; "sub/b.bin::12"])).2)
  ∧ fs_calls (run sample_env (sample_argv ["a.bin"; "sub/b.bin::12"])).2
    = [Mkdir (Parent (Join (Resolved "/dest") "a.bin"));
       Mkdir (Parent (Join (Resolved "/dest") "a.bin"));
       Replace "/dest/a.bin" (Join (Resolved "/dest") "a.bin");
       Mkdir (Parent (Join (Resolved "/dest") "sub/b.bin"));
       Mkdir (Parent (Join (Resolved "/dest") "sub/b.bin"));
       Replace "/dest/sub/b.bin" (Join (Resolved "/dest") "sub/b.bin")].
Proof.
  split; [|reflexivity].
  apply (effects_stay_in_plan sample_env (sample_argv ["a.bin"; "sub/b.bin::12"])).
  - intros w. reflexivity.
  - reflexivity.
Defined.

(** X9. No transfer is started and no file-system call is made unless a
    session starts with a valid plan: every dependency imports, the version
    of [huggingface_hub] resolves, the arguments parse and ask for no probe,
    the directories of the command line resolve, and the file specs parse. *)
Theorem transfers_need_a_valid_session (env : Env) (argv : Argv.t) :
  hub_calls (run env argv).2 ≠ [] ∨ fs_calls (run env argv).2 ≠ [] →
  ∃ args specs,
    session_starts env argv args
    ∧ parse_file_specs (Namespace.files args) = Ok specs.
Proof.
  intros Htouched.
  destruct (valid_session_cases env argv) as [Hno | Hyes]; [exfalso | done].
  destruct (run_without_valid_session env argv Hno) as (code & l & _ & Hl & Hcases).
  unfold hub_calls, fs_calls in Htouched. rewrite Hl in Htouched.
  destruct Hcases as [[_ [line ->]] | [[_ [-> _]] | [[_ [reason ->]] | [_ [msg ->]]]]];
    by destruct Htouched.
Qed.

(** The sample session for one file makes file-system calls, so it started
    with a valid plan. *)
Lemma transfers_need_a_valid_session_witness :
  ∃ args specs,
    session_starts sample_env (sample_argv ["a.bin"]) args
    ∧ parse_file_specs (Namespace.files args) = Ok specs.
Proof.
  apply (transfers_need_a_valid_session sample_env (sample_argv ["a.bin"])).
  right. discriminate.
Defined.

(** ** The steps of one download *)

(** Membership of an effect in the steps of a download, case by case. *)
Ltac in_steps H :=
  repeat first [ rewrite elem_of_cons in H | rewrite elem_of_app in H
               | rewrite list_elem_of_fmap in H | rewrite elem_of_nil in H ];
  repeat match type of H with
         | _ ∨ _ => destruct H as [H | H]
         end;
  repeat match goal with
         | H' : ∃ _, _ |- _ => destruct H' as [? [? ?]]
         | H' : False |- _ => destruct H'
         end;
  simplify_eq.

(** X10. [download_file] moves nothing it did not download: [os.replace] is
    called only once the library has returned a path and the destination
    directory was made again, from that very path onto the root joined with
    the spec's path; and the closing diagnostic is written exactly when no
    step of the download failed. *)
Theorem download_file_moves_only_what_was_downloaded
    (env : Env) (spec : FileSpec) (args : Namespace.t) (w : World) :
  let steps :=
    effects_of (download_file env spec args (dest_root_of args) (cache_dir_of args)
                  (hf_token_of args)) w in
  (∀ src dst, Fs (Replace src dst) ∈ steps →
     outcome (hf_hub_download env (length (hub_calls w)) (request args spec)) = inl src
     ∧ dst = Join (dest_root_of args) (path spec)
     ∧ fs env (length (fs_calls w) + 1) (Mkdir (Parent dst)) = None)
  ∧ ((∃ line, Err line ∈ steps)
     ↔ step_failure env args (length (fs_calls w)) (length (hub_calls w)) spec = None).
Proof.
  intros steps. subst steps. rewrite download_file_steps.
  unfold file_steps, step_failure, duration_failure.
  destruct (fs env (length (fs_calls w)) _) as [m1|] eqn:H1;
    [|destruct (outcome _) as [p|m2] eqn:H2;
      [destruct (fs env (length (fs_calls w) + 1) _) as [m3|] eqn:H3;
       [|destruct (fs env (length (fs_calls w) + 2) _) as [m4|] eqn:H4;
         [|destruct (duration_ms _ _) as [d|e] eqn:H5]]|]];
    (split; [intros src dst Hin | split; [intros [line Hin] | intros Hok]]);
    try done; try (exfalso; in_steps Hin; fail); try (in_steps Hin; done).
  exists (closing_line spec d).
  rewrite !elem_of_cons, elem_of_app, !elem_of_cons. tauto.
Qed.
(** ** The version-sync script *)

Section SyncText.

Import SyncVersions.

#[local] Arguments String.append !_ _ / : simpl nomatch.


Implicit Types s ws key v rest before : string.

Lemma str_app_assoc (a b c : string) : (a +:+ b) +:+ c = a +:+ (b +:+ c).
Proof. induction a as [|x a IH]; simpl; [done | by rewrite IH]. Qed.

Ltac str_norm := repeat first [progress simpl | rewrite str_app_assoc].

Ltac str_norm_in H := repeat first [progress simpl in H | rewrite str_app_assoc in H].

Lemma quoted_app v rest : quoted v +:+ rest = String dquote (v +:+ String dquote rest).
Proof. unfold quoted. str_norm. done. Qed.

Lemma quoted_eq v : quoted v = String dquote (v +:+ String dquote EmptyString).
Proof. done. Qed.

Opaque quoted.

Ltac unquote := rewrite ?quoted_app, ?quoted_eq.

Ltac unquote_in H := rewrite ?quoted_app, ?quoted_eq in H.

Lemma str_app_cons c (a b : string) : String c a +:+ b = String c (a +:+ b).
Proof. done. Qed.

Lemma str_app_nil_r (a : string) : a +:+ EmptyString = a.
Proof. induction a as [|x a IH]; simpl; [done | by rewrite IH]. Qed.

Lemma all_space_nil : all_space EmptyString.
Proof. constructor. Qed.

Lemma all_space_cons c s :
  all_space (String c s) ↔ PyStr.is_space c = true ∧ all_space s.
Proof. unfold all_space. simpl. by rewrite Forall_cons. Qed.

Lemma no_quote_nil : no_quote EmptyString.
Proof. unfold no_quote. simpl. apply not_elem_of_nil. Qed.

Lemma no_quote_cons c s : no_quote (String c s) ↔ c ≠ dquote ∧ no_quote s.
Proof.
  unfold no_quote. simpl. rewrite not_elem_of_cons. split; intros [? ?]; split; congruence.
Qed.

Lemma no_quote_app a b : no_quote (a +:+ b) ↔ no_quote a ∧ no_quote b.
Proof.
  induction a as [|x a IH]; simpl.
  - split; [intros ?; split; [apply no_quote_nil | done] | intros [_ ?]; done].
  - rewrite !no_quote_cons, IH. tauto.
Qed.

Lemma all_space_no_quote ws : all_space ws → no_quote ws.
Proof.
  induction ws as [|c ws IH]; [intros _; apply no_quote_nil|].
  rewrite all_space_cons, no_quote_cons. intros [Hc Hws]. split; [|auto].
  intros ->. done.
Qed.

Lemma assignment_key_no_quote key : assignment_key key → no_quote key.
Proof.
  intros (ws1 & ws2 & -> & H1 & H2).
  rewrite !no_quote_app. repeat split; auto using all_space_no_quote.
  - unfold no_quote. simpl. rewrite !not_elem_of_cons. repeat split; try done.
    apply not_elem_of_nil.
  - unfold no_quote. simpl. rewrite !not_elem_of_cons. repeat split; try done.
    apply not_elem_of_nil.
Qed.

(** A text splits at its first double quote in one way. *)
Lemma first_quote_unique a b a' b' :
  no_quote a → no_quote a' →
  a +:+ String dquote b = a' +:+ String dquote b' → a = a' ∧ b = b'.
Proof.
  revert a'. induction a as [|x a IH]; intros [|x' a']; simpl.
  - intros _ _ [= ->]. done.
  - rewrite no_quote_cons. intros _ [Hx _] [= <- _]. done.
  - rewrite no_quote_cons. intros [Hx _] _ [= -> _]. done.
  - rewrite !no_quote_cons. intros [_ Ha] [_ Ha'] [= -> Heq].
    destruct (IH _ Ha Ha' Heq) as [-> ->]. done.
Qed.

(** A text has no double quote, or it has a first one. *)
Lemma first_quote_cases s :
  no_quote s ∨ ∃ a b, s = a +:+ String dquote b ∧ no_quote a.
Proof.
  induction s as [|c s IH].
  - left. apply no_quote_nil.
  - destruct (decide (c = dquote)) as [-> | Hc].
    + right. exists EmptyString, s. split; [done | apply no_quote_nil].
    + destruct IH as [IH | (a & b & -> & Ha)].
      * left. by apply no_quote_cons.
      * right. exists (String c a), b. split; [done | by apply no_quote_cons].
Qed.

Lemma span_space_spec s ws r :
  span_space s = (ws, r) →
  s = ws +:+ r ∧ all_space ws ∧ ∀ c r', r = String c r' → PyStr.is_space c = false.
Proof.
  revert ws r. induction s as [|c s IH]; intros ws r; simpl.
  - intros [= <- <-]. split; [done|]. split; [apply all_space_nil | done].
  - destruct (PyStr.is_space c) eqn:Hc.
    + destruct (span_space s) as [ws' r'] eqn:Hs. intros [= <- <-].
      destruct (IH _ _ eq_refl) as (-> & Hws & Hr).
      split; [done|]. split; [by apply all_space_cons | done].
    + intros [= <- <-]. split; [done|]. split; [apply all_space_nil|].
      intros c' r' [= <- <-]. done.
Qed.

Lemma span_space_app ws r :
  all_space ws → (∀ c r', r = String c r' → PyStr.is_space c = false) →
  span_space (ws +:+ r) = (ws, r).
Proof.
  intros Hws Hr. induction ws as [|c ws IH]; simpl.
  - destruct r as [|c r']; [done|]. simpl. by rewrite (Hr c r' eq_refl).
  - apply all_space_cons in Hws as [Hc Hws]. rewrite Hc, (IH Hws). done.
Qed.

Lemma until_quote_spec s v r :
  until_quote s = Some (v, r) → s = v +:+ String dquote r ∧ no_quote v.
Proof.
  revert v. induction s as [|c s IH]; intros v; simpl; [done|].
  case_bool_decide as Hc.
  - intros [= <- <-]. subst c. split; [done | apply no_quote_nil].
  - destruct (until_quote s) as [[v' r']|]; [|done]. intros [= <- <-].
    destruct (IH _ eq_refl) as [-> Hv]. split; [done | by apply no_quote_cons].
Qed.

Lemma until_quote_app v r :
  no_quote v → until_quote (v +:+ String dquote r) = Some (v, r).
Proof.
  induction v as [|c v IH]; simpl.
  - intros _. done.
  - rewrite no_quote_cons. intros [Hc Hv]. rewrite bool_decide_eq_false_2 by done.
    by rewrite (IH Hv).
Qed.

Lemma assignment_here_spec s key v rest :
  assignment_here s = Some (key, v, rest) →
  s = key +:+ quoted v +:+ rest ∧ assignment_key key ∧ v ≠ EmptyString ∧ no_quote v.
Proof.
  unfold assignment_here.
  destruct (PyStr.startswith "version" s) eqn:Hst; [|done].
  apply startswith_app in Hst as [b ->].
  change 7%nat with (String.length "version"). rewrite drop_app.
  destruct (span_space b) as [ws1 r1] eqn:H1.
  apply span_space_spec in H1 as (-> & Hws1 & _).
  destruct r1 as [|c1 r2]; [done|].
  destruct (decide (c1 = "="%char)) as [-> | Hne]; cycle 1.
  { destruct c1 as [[] [] [] [] [] [] [] []]; try done. }
  destruct (span_space r2) as [ws2 r3] eqn:H2.
  apply span_space_spec in H2 as (-> & Hws2 & _).
  destruct r3 as [|c r4]; [done|].
  case_bool_decide as Hc; [subst c | done].
  destruct (until_quote r4) as [[[|v0 v'] rest']|] eqn:H3; try done.
  intros [= <- <- <-].
  apply until_quote_spec in H3 as [-> Hv].
  split; [|split; [by exists ws1, ws2 | done]].
  unquote. str_norm. done.
Qed.

Lemma assignment_here_complete key v rest :
  assignment_key key → v ≠ EmptyString → no_quote v →
  assignment_here (key +:+ quoted v +:+ rest) = Some (key, v, rest).
Proof.
  intros (ws1 & ws2 & -> & H1 & H2) Hv Hq. unfold assignment_here.
  rewrite !str_app_assoc.
  assert (PyStr.startswith "version"
            ("version" +:+ ws1 +:+ "=" +:+ ws2 +:+ quoted v +:+ rest) = true) as ->
    by (apply startswith_app; eauto).
  change 7%nat with (String.length "version"). rewrite drop_app.
  rewrite span_space_app; [|done|]; cycle 1.
  { simpl. intros c r' [= <- _]. done. }
  simpl. rewrite span_space_app; [|done|]; cycle 1.
  { unquote. simpl. intros c r' [= <- _]. done. }
  unquote. str_norm.
  rewrite until_quote_app by done. destruct v; done.
Qed.

(** Whether the pattern matches at the head of a text does not depend on
    the value of a later assignment. *)
Lemma assignment_here_stable x old v rest :
  old ≠ EmptyString → no_quote old →
  is_Some (assignment_here (x +:+ quoted v +:+ rest)) →
  is_Some (assignment_here (x +:+ quoted old +:+ rest)).
Proof.
  intros Hold Hqold [[[key' v'] rest'] H].
  apply assignment_here_spec in H as (Heq & Hkey & Hv' & Hqv').
  pose proof (assignment_key_no_quote _ Hkey) as Hqk.
  unquote_in Heq. str_norm_in Heq.
  destruct (first_quote_cases x) as [Hx | (a & b & -> & Ha)].
  - apply first_quote_unique in Heq as [-> _]; [|done..].
    rewrite assignment_here_complete; eauto.
  - str_norm_in Heq.
    apply first_quote_unique in Heq as [-> Heq]; [|done..].
    destruct (first_quote_cases b) as [Hb | (b1 & b2 & -> & Hb1)].
    + apply first_quote_unique in Heq as [-> _]; [|done..].
      replace ((key' +:+ String dquote v') +:+ quoted old +:+ rest)
        with (key' +:+ quoted v' +:+ (old +:+ String dquote rest)).
      { rewrite assignment_here_complete; eauto. }
      unquote. str_norm. done.
    + str_norm_in Heq.
      apply first_quote_unique in Heq as [-> _]; [|done..].
      replace ((key' +:+ String dquote (v' +:+ String dquote b2)) +:+ quoted old +:+ rest)
        with (key' +:+ quoted v' +:+ (b2 +:+ quoted old +:+ rest)).
      { rewrite assignment_here_complete; eauto. }
      unquote. str_norm. done.
Qed.

Lemma find_assignment_unfold bol s :
  find_assignment bol s =
  match (if bol then assignment_here s else None) with
  | Some (key, value, rest) => Some (EmptyString, key, value, rest)
  | None =>
      match s with
      | EmptyString => None
      | String c r =>
          match find_assignment (bool_decide (c = newline)) r with
          | Some (before, key, value, rest) => Some (String c before, key, value, rest)
          | None => None
          end
      end
  end.
Proof. destruct s; reflexivity. Qed.

Lemma find_assignment_spec bol s before key v rest :
  find_assignment bol s = Some (before, key, v, rest) →
  s = before +:+ key +:+ quoted v +:+ rest
  ∧ assignment_key key ∧ v ≠ EmptyString ∧ no_quote v
  ∧ ((before = EmptyString ∧ bol = true) ∨ ∃ b, before = b +:+ String newline EmptyString).
Proof.
  revert bol before. induction s as [|c s IH]; intros bol before;
    rewrite find_assignment_unfold;
    destruct (if bol then assignment_here _ else None) as [[[k v'] r]|] eqn:Hatt.
  - destruct bol; done.
  - done.
  - intros [= <- <- <- <-]. destruct bol; [|done].
    apply assignment_here_spec in Hatt as (? & ? & ? & ?). simpl. eauto 10.
  - destruct (find_assignment (bool_decide (c = newline)) s) as [[[[b k] v'] r]|] eqn:Hrec;
      [|done].
    intros [= <- <- <- <-].
    destruct (IH _ _ Hrec) as (-> & ? & ? & ? & Hb). simpl.
    repeat split; try done. right. destruct Hb as [[-> Hc] | [b' ->]].
    + apply bool_decide_eq_true in Hc as ->. by exists EmptyString.
    + by exists (String c b').
Qed.

(** The first assignment stays the first one when its value is replaced. *)
Lemma find_assignment_stable bol before key old rest v :
  v ≠ EmptyString → no_quote v →
  find_assignment bol (before +:+ key +:+ quoted old +:+ rest)
  = Some (before, key, old, rest) →
  find_assignment bol (before +:+ key +:+ quoted v +:+ rest)
  = Some (before, key, v, rest).
Proof.
  intros Hv Hqv. revert bol. induction before as [|c b IH]; intros bol H.
  - simpl in *. pose proof (find_assignment_spec _ _ _ _ _ _ H) as (_ & Hkey & _ & _ & Hb).
    destruct Hb as [[_ ->] | [[|??] ?]]; [|done..].
    rewrite find_assignment_unfold. rewrite assignment_here_complete; done.
  - pose proof (find_assignment_spec _ _ _ _ _ _ H) as (_ & Hkey & Hold & Hqold & _).
    rewrite str_app_cons in *. rewrite find_assignment_unfold in H.
    rewrite find_assignment_unfold.
    destruct (if bol then assignment_here (String c (b +:+ key +:+ quoted old +:+ rest))
              else None) as [[[k v'] r]|] eqn:Hatt; [congruence|].
    destruct (find_assignment (bool_decide (c = newline)) (b +:+ key +:+ quoted old +:+ rest))
      as [[[[b' k] v'] r]|] eqn:Hrec; [|congruence].
    injection H as -> -> -> ->.
    rewrite (IH _ Hrec).
    destruct (if bol then assignment_here (String c (b +:+ key +:+ quoted v +:+ rest))
              else None) as [[[k v'] r]|] eqn:Hnew; [|done].
    exfalso. destruct bol; [|done].
    assert (is_Some (assignment_here (String c (b +:+ key +:+ quoted old +:+ rest)))) as [? Hs];
      [|congruence].
    replace (String c (b +:+ key +:+ quoted old +:+ rest))
      with ((String c b +:+ key) +:+ quoted old +:+ rest)
      by (str_norm; done).
    apply (assignment_here_stable _ _ v); [done..|].
    replace ((String c b +:+ key) +:+ quoted v +:+ rest)
      with (String c (b +:+ key +:+ quoted v +:+ rest))
      by (str_norm; done).
    eauto.
Qed.

(** An assignment at the start of a line is found, or an earlier one is. *)
Lemma find_assignment_complete bol x key v rest :
  assignment_key key → v ≠ EmptyString → no_quote v →
  is_Some (find_assignment bol (x +:+ String newline (key +:+ quoted v +:+ rest))).
Proof.
  intros Hkey Hv Hq. revert bol. induction x as [|c x IH]; intros bol.
  - change (EmptyString +:+ ?y) with y. rewrite find_assignment_unfold.
    destruct (if bol then assignment_here _ else None) as [[[k v'] r]|]; [done|].
    rewrite bool_decide_eq_true_2 by done.
    rewrite find_assignment_unfold, assignment_here_complete by done. done.
  - rewrite str_app_cons, find_assignment_unfold.
    destruct (if bol then assignment_here _ else None) as [[[k v'] r]|]; [done|].
    destruct (IH (bool_decide (c = newline))) as [[[[b k] v'] r] ->]. done.
Qed.

Lemma find_assignment_at_start key v rest :
  assignment_key key → v ≠ EmptyString → no_quote v →
  find_assignment true (key +:+ quoted v +:+ rest) = Some (EmptyString, key, v, rest).
Proof.
  intros. rewrite find_assignment_unfold, assignment_here_complete by done. done.
Qed.

Lemma workspace_here_complete key rest :
  inheritance key → workspace_here (key +:+ rest) = true.
Proof.
  intros (ws1 & ws2 & -> & H1 & H2). unfold workspace_here.
  rewrite !str_app_assoc.
  assert (PyStr.startswith "version.workspace"
            ("version.workspace" +:+ ws1 +:+ "=" +:+ ws2 +:+ "true" +:+ rest) = true) as ->
    by (apply startswith_app; eauto).
  change 17%nat with (String.length "version.workspace"). rewrite drop_app.
  rewrite span_space_app; [|done|]; cycle 1.
  { simpl. intros c r' [= <- _]. done. }
  simpl. rewrite span_space_app; [|done|]; cycle 1.
  { simpl. intros c r' [= <- _]. done. }
  reflexivity.
Qed.

Lemma line_start_cons c b :
  line_start (String c b) →
  (b = EmptyString ∧ c = newline) ∨ (b ≠ EmptyString ∧ line_start b).
Proof.
  intros [? | [[|c0 b0] Heq]]; [done|..]; simpl in Heq.
  - injection Heq as -> ->. by left.
  - injection Heq as -> ->. right. split; [by destruct b0 | right; eauto].
Qed.

Lemma uses_workspace_unfold bol s :
  uses_workspace bol s =
  (bol && workspace_here s) ||
  match s with
  | EmptyString => false
  | String c r => uses_workspace (bool_decide (c = newline)) r
  end.
Proof. destruct s; reflexivity. Qed.

Lemma uses_workspace_complete bol before key rest :
  inheritance key → line_start before → (before = EmptyString → bol = true) →
  uses_workspace bol (before +:+ key +:+ rest) = true.
Proof.
  intros Hkey. revert bol. induction before as [|c b IH]; intros bol Hls Hbol.
  - change (EmptyString +:+ ?y) with y.
    rewrite uses_workspace_unfold, (Hbol eq_refl), workspace_here_complete by done.
    done.
  - rewrite str_app_cons, uses_workspace_unfold.
    apply line_start_cons in Hls as [[-> ->] | [Hb Hls]].
    + rewrite IH; [apply orb_true_r | by left | done].
    + rewrite IH; [apply orb_true_r | done | done].
Qed.

Lemma partition_Some sep s p q :
  partition sep s = Some (p, q) → s = p +:+ sep +:+ q.
Proof.
  revert p. induction s as [|c s IH]; intros p.
  - destruct sep; [|done]. intros [= <- <-]. done.
  - cbn [partition]. destruct (PyStr.startswith sep (String c s)) eqn:Hst.
    + intros [= <- <-]. apply startswith_app in Hst as [b Hb].
      rewrite Hb, drop_app. done.
    + destruct (partition sep s) as [[p' q']|]; [|done]. intros [= <- <-].
      by rewrite (IH _ eq_refl) at 1.
Qed.

Lemma partition_None sep s :
  partition sep s = None ↔ ∀ i, ¬ occurs_at sep s i.
Proof.
  induction s as [|c s IH]; cbn [partition].
  - destruct (PyStr.startswith sep EmptyString) eqn:Hst.
    + split; [done|]. intros Hno. exfalso. apply (Hno 0%nat). by apply occurs_at_0.
    + split; [|done]. intros _ i (a & b & Heq & _).
      destruct a; [|done]. simpl in Heq.
      assert (PyStr.startswith sep EmptyString = true); [|congruence].
      apply startswith_app. eauto.
  - destruct (PyStr.startswith sep (String c s)) eqn:Hst.
    + split; [done|]. intros Hno. exfalso. apply (Hno 0%nat). by apply occurs_at_0.
    + destruct (partition sep s) as [[p q]|].
      * split; [done|]. intros Hno. exfalso.
        assert (¬ ∀ i, ¬ occurs_at sep s i) as Hn by (rewrite <- IH; done).
        apply Hn. intros i Hi. apply (Hno (S i)). by apply occurs_at_S.
      * split; [|done]. intros _ [|i] Hi.
        -- apply occurs_at_0 in Hi. congruence.
        -- apply occurs_at_S in Hi. revert Hi. by apply IH.
Qed.

Lemma str_length_app (a b : string) :
  String.length (a +:+ b) = (String.length a + String.length b)%nat.
Proof. induction a as [|x a IH]; simpl; [done | by rewrite IH]. Qed.

Lemma drop_app_le n (a b : string) :
  (n ≤ String.length a)%nat → PyStr.drop n (a +:+ b) = PyStr.drop n a +:+ b.
Proof.
  revert a. induction n as [|n IH]; intros a Hn; [done|].
  destruct a as [|x a]; simpl in *; [lia|]. apply IH. lia.
Qed.

(** The text after the first occurrence of [sep] ends with what follows any
    occurrence. *)
Lemma partition_unfold sep s :
  partition sep s =
  if PyStr.startswith sep s then Some (EmptyString, PyStr.drop (String.length sep) s)
  else
    match s with
    | EmptyString => None
    | String c r =>
        match partition sep r with
        | Some (p, q) => Some (String c p, q)
        | None => None
        end
    end.
Proof. destruct s; reflexivity. Qed.

Lemma partition_suffix sep pre r :
  ∃ p x, partition sep (pre +:+ sep +:+ r) = Some (p, x +:+ r).
Proof.
  induction pre as [|c pre IH].
  - change (EmptyString +:+ ?y) with y. exists EmptyString, EmptyString.
    assert (PyStr.startswith sep (sep +:+ r) = true) as Hst
      by (apply startswith_app; eauto).
    rewrite partition_unfold, Hst, drop_app. done.
  - rewrite str_app_cons, partition_unfold.
    destruct (PyStr.startswith sep (String c (pre +:+ sep +:+ r))) eqn:Hst.
    + exists EmptyString, (PyStr.drop (String.length sep) (String c pre +:+ sep)).
      f_equal. f_equal.
      replace (String c (pre +:+ sep +:+ r)) with ((String c pre +:+ sep) +:+ r)
        by (str_norm; done).
      apply drop_app_le. rewrite str_length_app. lia.
    + destruct IH as (p & x & ->). eauto.
Qed.

Lemma workspace_here_spec s :
  workspace_here s = true → ∃ key rest, s = key +:+ rest ∧ inheritance key.
Proof.
  unfold workspace_here. intros [Hst H]%andb_true_iff.
  apply startswith_app in Hst as [b ->]. revert H.
  change 17%nat with (String.length "version.workspace"). rewrite drop_app.
  destruct (span_space b) as [ws1 r1] eqn:H1.
  apply span_space_spec in H1 as (-> & Hws1 & _).
  destruct r1 as [|c1 r2]; [done|].
  destruct (decide (c1 = "="%char)) as [-> | Hne]; cycle 1.
  { destruct c1 as [[] [] [] [] [] [] [] []]; try done. }
  destruct (span_space r2) as [ws2 r3] eqn:H2.
  apply span_space_spec in H2 as (-> & Hws2 & _).
  intros [rest ->]%startswith_app.
  exists ("version.workspace" +:+ ws1 +:+ "=" +:+ ws2 +:+ "true"), rest. split.
  - str_norm. done.
  - by exists ws1, ws2.
Qed.

Lemma uses_workspace_spec bol s :
  uses_workspace bol s = true →
  ∃ before key rest,
    s = before +:+ key +:+ rest ∧ inheritance key
    ∧ ((before = EmptyString ∧ bol = true) ∨ ∃ b, before = b +:+ String newline EmptyString).
Proof.
  revert bol. induction s as [|c s IH]; intros bol; rewrite uses_workspace_unfold;
    intros [[-> H]%andb_true_iff | H]%orb_true_iff; try done.
  - apply workspace_here_spec in H as (key & rest & ? & ?).
    exists EmptyString, key, rest. eauto.
  - apply IH in H as (b & key & rest & -> & Hkey & Hb).
    exists (String c b), key, rest. split; [done|]. split; [done|]. right.
    destruct Hb as [[-> Hc] | [b' ->]].
    + apply bool_decide_eq_true in Hc as ->. by exists EmptyString.
    + by exists (String c b').
Qed.

Lemma uses_workspace_inherits content :
  uses_workspace true content = true ↔ inherits content.
Proof.
  split.
  - intros (before & key & rest & -> & Hkey & Hb)%uses_workspace_spec.
    exists before, key, rest. split; [done|]. split; [|done].
    destruct Hb as [[-> _] | ?]; [by left | by right].
  - intros (before & key & rest & -> & Hls & Hkey).
    by apply uses_workspace_complete.
Qed.

(** No assignment starts a line before the one that is found. *)
Lemma find_assignment_leftmost bol s before key v rest b1 b2 :
  find_assignment bol s = Some (before, key, v, rest) →
  before = b1 +:+ b2 → b2 ≠ EmptyString →
  (b1 = EmptyString → bol = true) → line_start b1 →
  assignment_here (b2 +:+ key +:+ quoted v +:+ rest) = None.
Proof.
  revert bol before b1. induction s as [|c s IH]; intros bol before b1;
    rewrite find_assignment_unfold;
    destruct (if bol then assignment_here _ else None) as [[[k v'] r]|] eqn:Hatt.
  - destruct bol; done.
  - done.
  - intros [= <- <- <- <-] Hb Hb2. destruct b1, b2; done.
  - destruct (find_assignment (bool_decide (c = newline)) s) as [[[[b k] v'] r]|] eqn:Hrec;
      [|done].
    intros [= <- <- <- <-] Hb Hb2 Hbol Hls.
    pose proof (find_assignment_spec _ _ _ _ _ _ Hrec) as (Hs & _).
    destruct b1 as [|c1 b1].
    + simpl in Hb. subst b2. rewrite (Hbol eq_refl) in Hatt.
      rewrite str_app_cons, <- Hs. done.
    + rewrite str_app_cons in Hb. injection Hb as <- ->.
      apply (IH _ _ b1 Hrec eq_refl Hb2).
      * intros ->. apply line_start_cons in Hls as [[_ ->] | [? _]]; [|done].
        by apply bool_decide_eq_true_2.
      * apply line_start_cons in Hls as [[-> _] | [_ ?]]; [by left | done].
Qed.

(** Two ways to cut a text: the shorter head is a head of the longer. *)
Lemma str_app_cut (a x b y : string) :
  a +:+ x = b +:+ y → (String.length a < String.length b)%nat →
  ∃ d, d ≠ EmptyString ∧ b = a +:+ d ∧ x = d +:+ y.
Proof.
  revert b. induction a as [|c a IH]; intros b Heq Hlen.
  - exists b. simpl in *. split; [|done]. destruct b; simpl in Hlen; [lia | done].
  - destruct b as [|c' b]; simpl in Hlen; [lia|].
    rewrite !str_app_cons in Heq. injection Heq as -> Heq.
    destruct (IH b Heq ltac:(lia)) as (d & ? & -> & ->). by exists d.
Qed.

Lemma find_assignment_first content before key v rest :
  find_assignment true content = Some (before, key, v, rest) →
  first_assignment content before key v rest.
Proof.
  intros H. pose proof (find_assignment_spec _ _ _ _ _ _ H) as (Hs & Hkey & Hv & Hq & Hb).
  split.
  { split; [done|]. split; [|done]. destruct Hb as [[-> _] | ?]; [by left | by right]. }
  intros b' k' v' r' (Hs' & Hls' & Hkey' & Hv' & Hq').
  destruct (decide (String.length before ≤ String.length b')%nat) as [|Hlt]; [done|].
  exfalso. rewrite Hs in Hs'. symmetry in Hs'.
  apply str_app_cut in Hs' as (d & Hd & -> & Hd'); [|lia].
  pose proof (find_assignment_leftmost _ _ _ _ _ _ b' d H eq_refl Hd (λ _, eq_refl) Hls')
    as Hnone.
  rewrite <- Hd', assignment_here_complete in Hnone; done.
Qed.

Lemma find_assignment_found content before key v rest :
  assignment_at content before key v rest →
  is_Some (find_assignment true content).
Proof.
  intros (-> & [-> | [b ->]] & Hkey & Hv & Hq).
  - change (EmptyString +:+ ?y) with y. rewrite find_assignment_at_start; done.
  - rewrite str_app_assoc. change (String newline EmptyString +:+ ?y) with (String newline y).
    by apply find_assignment_complete.
Qed.

Lemma search_sound content v :
  search_workspace_version content = Some v → version_line_after_header content v.
Proof.
  unfold search_workspace_version.
  destruct (partition "[workspace.package]" content) as [[p after]|] eqn:Hp; [|done].
  destruct (find_assignment false after) as [[[[before key] v'] rest]|] eqn:Hf; [|done].
  intros [= ->]. apply partition_Some in Hp as ->.
  apply find_assignment_spec in Hf as (-> & Hkey & Hv & Hq & [[_ ?] | [b ->]]); [done|].
  exists p, b, key, rest. split; [|done]. str_norm. done.
Qed.

Lemma search_complete content v :
  version_line_after_header content v →
  ∃ v', search_workspace_version content = Some v'.
Proof.
  intros (pre & mid & key & post & -> & Hkey & Hv & Hq).
  unfold search_workspace_version.
  destruct (partition_suffix "[workspace.package]" pre
              (mid +:+ String newline (key +:+ quoted v +:+ post))) as (p & x & ->).
  rewrite <- str_app_assoc.
  destruct (find_assignment_complete false (x +:+ mid) key v post Hkey Hv Hq)
    as [[[[b k] v'] r] ->].
  eauto.
Qed.

Transparent quoted.

End SyncText.
(** *** The steps of the sync script *)

Section SyncRun.

Import SyncVersions.

#[local] Arguments String.append !_ _ / : simpl nomatch.

Context (lib : Lib).

Implicit Types st : State.

Lemma get_workspace_version_run st :
  get_workspace_version st =
  match files st !! "Cargo.toml" with
  | Some content => (Ok (search_workspace_version content), st)
  | None => (Raise (Failure "FileNotFoundError"), st)
  end.
Proof.
  unfold get_workspace_version, mbind, M_bind, read.
  by destruct (files st !! "Cargo.toml").
Qed.

Lemma check_cargo_toml_needs_sync_run path st :
  check_cargo_toml_needs_sync path st =
  match files st !! path with
  | Some content =>
      (Ok (negb (uses_workspace true content)
           && bool_decide (is_Some (find_assignment true content))), st)
  | None => (Raise (Failure "FileNotFoundError"), st)
  end.
Proof.
  unfold check_cargo_toml_needs_sync, mbind, M_bind, read.
  destruct (files st !! path) as [content|]; [|done].
  by destruct (uses_workspace true content).
Qed.

Lemma update_cargo_toml_run path version st :
  update_cargo_toml lib path version st =
  match files st !! path with
  | None => (Raise (Failure "FileNotFoundError"), st)
  | Some content =>
      if negb (uses_workspace true content)
         && bool_decide (is_Some (find_assignment true content))
      then
        match sub_version lib version content with
        | Raise e => (Raise e, st)
        | Ok new =>
            (Ok (), {| files := <[path := new]> (files st);
                       printed := printed st ++ [Synced path] |})
        end
      else (Ok (), {| files := files st; printed := printed st ++ [Skipped path] |})
  end.
Proof.
  unfold update_cargo_toml. unfold mbind at 1. unfold M_bind at 1.
  rewrite check_cargo_toml_needs_sync_run.
  destruct (files st !! path) as [content|] eqn:Hl; [|done].
  destruct (negb (uses_workspace true content)
            && bool_decide (is_Some (find_assignment true content))); [|done].
  cbn [negb]. unfold mbind, M_bind, read. rewrite Hl.
  by destruct (sub_version lib version content).
Qed.

Lemma update_json_run path version st :
  update_json lib path version st =
  match files st !! path with
  | None => (Raise (Failure "FileNotFoundError"), st)
  | Some content =>
      match json_load lib content with
      | Raise e => (Raise e, st)
      | Ok data =>
          match set_version data version with
          | Raise e => (Raise e, st)
          | Ok data' =>
              (Ok (), {| files := <[path := json_dumps lib data'
                                            +:+ String newline EmptyString]> (files st);
                         printed := printed st ++ [Synced path] |})
          end
      end
  end.
Proof.
  unfold update_json, mbind, M_bind, read.
  destruct (files st !! path) as [content|]; [|done].
  destruct (json_load lib content) as [data|]; [|done].
  by destruct (set_version data version).
Qed.

Lemma sub_version_plain version content before key old rest :
  PyStr.contains "\" version = false →
  find_assignment true content = Some (before, key, old, rest) →
  sub_version lib version content = Ok (before +:+ key +:+ quoted version +:+ rest).
Proof.
  intros Hb Hf. unfold sub_version, expand. rewrite Hf, Hb.
  f_equal. rewrite quoted_app. by rewrite !str_app_assoc.
Qed.

Lemma set_item_keys key value members : (set_item key value members).*1 = members.*1.
Proof.
  induction members as [|[k v] members IH]; [done|]. simpl.
  destruct (decide (k = key)); simpl; [done | by f_equal].
Qed.

Lemma member_set_item_ne key k value members :
  k ≠ key → member k (set_item key value members) = member k members.
Proof.
  intros Hk. induction members as [|[k' v] members IH]; [done|]. simpl.
  destruct (decide (k' = key)) as [-> | ?]; simpl.
  - by rewrite !decide_False by done.
  - destruct (decide (k' = k)); [done | by rewrite IH].
Qed.

Lemma member_set_item key value members :
  key ∈ members.*1 → member key (set_item key value members) = Some value.
Proof.
  induction members as [|[k v] members IH]; simpl; [by intros ?%elem_of_nil|].
  intros [-> | Hin]%elem_of_cons.
  - rewrite decide_True by done. simpl. by rewrite decide_True.
  - destruct (decide (k = key)) as [-> | ?]; simpl.
    + by rewrite decide_True.
    + rewrite decide_False by done. auto.
Qed.

Lemma member_None key members : key ∉ members.*1 → member key members = None.
Proof.
  induction members as [|[k v] members IH]; simpl; [done|].
  rewrite not_elem_of_cons. intros [? ?]. rewrite decide_False by done. auto.
Qed.

(** **** What a step may change *)

Lemma within_refl targets st : within targets st st.
Proof. split; [done|]. split; [done|]. exists []. by rewrite app_nil_r. Qed.

Lemma within_trans targets st1 st2 st3 :
  within targets st1 st2 → within targets st2 st3 → within targets st1 st3.
Proof.
  intros (Hd1 & Hf1 & l1 & Hp1) (Hd2 & Hf2 & l2 & Hp2). split; [congruence|].
  split.
  - intros p Hp. rewrite Hf2, Hf1; done.
  - exists (l1 ++ l2). rewrite Hp2, Hp1, app_assoc. done.
Qed.

Lemma within_print targets line st : within targets st (print line st).2.
Proof. split; [done|]. split; [done|]. by exists [line]. Qed.

Lemma within_rewrite targets path new line st :
  path ∈ targets → is_Some (files st !! path) →
  within targets st {| files := <[path := new]> (files st);
                       printed := printed st ++ [line] |}.
Proof.
  intros Hin Hsome. split; [|split]; simpl.
  - by apply dom_insert_lookup_L.
  - intros p Hp. apply lookup_insert_ne. congruence.
  - by exists [line].
Qed.

Lemma within_bind {A B} targets (c : M A) (k : A → M B) :
  (∀ st, within targets st (c st).2) →
  (∀ a st, within targets st (k a st).2) →
  ∀ st, within targets st ((c ≫= k) st).2.
Proof.
  intros Hc Hk st. unfold mbind, M_bind. specialize (Hc st).
  destruct (c st) as [[a|e] st1]; simpl in *; [|done].
  eapply within_trans; [done | apply Hk].
Qed.

Lemma update_cargo_toml_within targets path version st :
  path ∈ targets → within targets st (update_cargo_toml lib path version st).2.
Proof.
  intros Hin. rewrite update_cargo_toml_run.
  destruct (files st !! path) as [content|] eqn:Hl; [|apply within_refl].
  destruct (negb _ && _).
  - destruct (sub_version lib version content); [|apply within_refl].
    apply within_rewrite; [done | by rewrite Hl].
  - apply (within_print _ (Skipped path)).
Qed.

Lemma update_json_within targets path version st :
  path ∈ targets → within targets st (update_json lib path version st).2.
Proof.
  intros Hin. rewrite update_json_run.
  destruct (files st !! path) as [content|] eqn:Hl; [|apply within_refl].
  destruct (json_load lib content) as [data|]; [|apply within_refl].
  destruct (set_version data version); [|apply within_refl].
  apply within_rewrite; [done | by rewrite Hl].
Qed.

Lemma update_all_within targets tomls version st :
  tomls ⊆ targets → within targets st (update_all lib tomls version st).2.
Proof.
  revert st. induction tomls as [|toml tomls IH]; intros st Hsub; [apply within_refl|].
  cbn [update_all]. apply within_bind.
  - intros st'. apply update_cargo_toml_within. apply Hsub. by left.
  - intros _ st'. apply IH. intros p Hp. apply Hsub. by right.
Qed.

Lemma elem_of_insert_sorted x y l : x ∈ insert_sorted y l ↔ x = y ∨ x ∈ l.
Proof.
  induction l as [|z l IH]; simpl.
  - rewrite list_elem_of_singleton, elem_of_nil. tauto.
  - destruct (str_le y z); rewrite !elem_of_cons; [tauto|]. rewrite IH. tauto.
Qed.

Lemma elem_of_sorted x l : x ∈ sorted l ↔ x ∈ l.
Proof.
  induction l as [|y l IH]; simpl; [done|].
  unfold sorted in *. simpl. rewrite elem_of_insert_sorted, elem_of_cons, IH. done.
Qed.

(** **** Steps that find nothing to change *)

Lemma bind_Ok_inv {A B} (c : M A) (k : A → M B) st b st' :
  (c ≫= k) st = (Ok b, st') → ∃ a s, c st = (Ok a, s) ∧ k a s = (Ok b, st').
Proof.
  unfold mbind, M_bind. destruct (c st) as [[a|e] s]; [eauto | done].
Qed.

Lemma print_files line st st' : print line st = (Ok (), st') → files st' = files st.
Proof. by intros [= <-]. Qed.

Lemma settled_at_lookup version (fs fs' : gmap string string) path :
  fs' !! path = fs !! path → settled_at version fs path → settled_at version fs' path.
Proof. intros Heq (content & Hl & Hs). exists content. by rewrite Heq. Qed.

Lemma json_settled_at_lookup version (fs fs' : gmap string string) path :
  fs' !! path = fs !! path →
  json_settled_at lib version fs path → json_settled_at lib version fs' path.
Proof. intros Heq (content & data & Hl & Hs). exists content, data. by rewrite Heq. Qed.

Lemma settled_run version path st :
  PyStr.contains "\" version = false →
  settled_at version (files st) path →
  ∃ line, update_cargo_toml lib path version st
          = (Ok (), {| files := files st; printed := printed st ++ [line] |}).
Proof.
  intros Hb (content & Hl & Hs). rewrite update_cargo_toml_run, Hl.
  destruct (negb _ && _) eqn:Hc; [|by exists (Skipped path)].
  destruct Hs as [Hs | (before & key & rest & Hf)]; [congruence|].
  exists (Synced path). rewrite (sub_version_plain _ _ _ _ _ _ Hb Hf).
  apply find_assignment_spec in Hf as (<- & _). by rewrite insert_id.
Qed.

Lemma update_cargo_toml_settles version path st st' :
  version ≠ EmptyString → no_quote version → PyStr.contains "\" version = false →
  update_cargo_toml lib path version st = (Ok (), st') →
  settled_at version (files st') path
  ∧ ∀ q, q ≠ path → files st' !! q = files st !! q.
Proof.
  intros Hv Hq Hb. rewrite update_cargo_toml_run.
  destruct (files st !! path) as [content|] eqn:Hl; [|done].
  destruct (negb (uses_workspace true content) && _) eqn:Hc.
  - apply andb_true_iff in Hc as [_ [[[[before key] old] rest] Hf]%bool_decide_eq_true].
    rewrite (sub_version_plain _ _ _ _ _ _ Hb Hf). intros [= <-]. simpl. split.
    + eexists. split; [apply lookup_insert_eq|]. right. exists before, key, rest.
      pose proof (find_assignment_spec _ _ _ _ _ _ Hf) as (-> & _).
      by apply (find_assignment_stable _ _ _ old).
    + intros q Hne. by apply lookup_insert_ne.
  - intros [= <-]. simpl. split; [|done]. exists content. split; [done | by left].
Qed.

Lemma update_cargo_toml_keeps_settled version path st st' q :
  version ≠ EmptyString → no_quote version → PyStr.contains "\" version = false →
  update_cargo_toml lib path version st = (Ok (), st') →
  settled_at version (files st) q → settled_at version (files st') q.
Proof.
  intros Hv Hq Hb Hu Hs.
  destruct (update_cargo_toml_settles _ _ _ _ Hv Hq Hb Hu) as [Hp Hother].
  destruct (decide (q = path)) as [-> | Hne]; [done|].
  eapply settled_at_lookup; [by apply Hother | done].
Qed.

Lemma update_all_settles version tomls st st' :
  version ≠ EmptyString → no_quote version → PyStr.contains "\" version = false →
  update_all lib tomls version st = (Ok (), st') →
  (∀ q, q ∈ tomls → settled_at version (files st') q)
  ∧ (∀ q, settled_at version (files st) q → settled_at version (files st') q)
  ∧ (∀ q, q ∉ tomls → files st' !! q = files st !! q).
Proof.
  intros Hv Hq Hb. revert st. induction tomls as [|toml tomls IH]; intros st.
  - intros [= <-]. split; [by intros q ?%elem_of_nil | done].
  - cbn [update_all]. intros ([] & s & Hu & Hrest)%bind_Ok_inv.
    destruct (IH _ Hrest) as (IH1 & IH2 & IH3).
    destruct (update_cargo_toml_settles _ _ _ _ Hv Hq Hb Hu) as [Hp Hother].
    split; [|split].
    + intros q [-> | Hin]%elem_of_cons; [by apply IH2 | by apply IH1].
    + intros q Hs. apply IH2. by eapply update_cargo_toml_keeps_settled.
    + intros q [Hne Hnin]%not_elem_of_cons. rewrite IH3, Hother; done.
Qed.

Lemma set_item_idem key value members :
  set_item key value (set_item key value members) = set_item key value members.
Proof.
  induction members as [|[k v] members IH]; [done|]. simpl.
  destruct (decide (k = key)) as [-> | Hne]; simpl.
  - by rewrite decide_True.
  - rewrite decide_False by done. by rewrite IH.
Qed.

Lemma set_version_idem data version data' :
  set_version data version = Ok data' → set_version data' version = Ok data'.
Proof.
  destruct data as [| | | s | items | members]; simpl; try done.
  - destruct (PyStr.contains "version" s) eqn:Hc; [done|]. intros [= <-]. simpl.
    by rewrite Hc.
  - destruct (existsb _ items) eqn:Hc; [done|]. intros [= <-]. simpl. by rewrite Hc.
  - case_bool_decide as Hin; intros [= <-]; simpl.
    + rewrite set_item_keys, bool_decide_eq_true_2 by done. by rewrite set_item_idem.
    + by rewrite bool_decide_eq_false_2.
Qed.

Lemma update_json_settles version path st st' :
  update_json lib path version st = (Ok (), st') →
  (∀ content data data',
     files st !! path = Some content → json_load lib content = Ok data →
     set_version data version = Ok data' →
     json_load lib (json_dumps lib data' +:+ String newline EmptyString) = Ok data') →
  json_settled_at lib version (files st') path
  ∧ ∀ q, q ≠ path → files st' !! q = files st !! q.
Proof.
  rewrite update_json_run.
  destruct (files st !! path) as [content|] eqn:Hl; [|done].
  destruct (json_load lib content) as [data|] eqn:Hj; [|done].
  destruct (set_version data version) as [data'|] eqn:Hs; [|done].
  intros [= <-] Hback. simpl. split.
  - eexists _, data'. split; [apply lookup_insert_eq|].
    split; [by eapply Hback|]. split; [by eapply set_version_idem | done].
  - intros q Hne. by apply lookup_insert_ne.
Qed.

Lemma json_settled_run version path st :
  json_settled_at lib version (files st) path →
  update_json lib path version st
  = (Ok (), {| files := files st; printed := printed st ++ [Synced path] |}).
Proof.
  intros (content & data & Hl & Hj & Hs & Hd).
  rewrite update_json_run, Hl, Hj, Hs, Hd. by rewrite insert_id.
Qed.

Lemma quiet_print fs line : quiet fs (print line).
Proof. intros st <-. by exists [line]. Qed.

Lemma quiet_bind fs (c k : M unit) : quiet fs c → quiet fs k → quiet fs (c ≫= λ _, k).
Proof.
  intros Hc Hk st Hst. destruct (Hc st Hst) as [l1 H1].
  unfold mbind, M_bind. rewrite H1.
  destruct (Hk {| files := fs; printed := printed st ++ l1 |} eq_refl) as [l2 H2].
  rewrite H2. simpl. exists (l1 ++ l2). by rewrite app_assoc.
Qed.

Lemma quiet_update_cargo_toml fs version path :
  PyStr.contains "\" version = false → settled_at version fs path →
  quiet fs (update_cargo_toml lib path version).
Proof.
  intros Hb Hs st <-. destruct (settled_run _ _ _ Hb Hs) as [line ->]. by exists [line].
Qed.

Lemma quiet_update_json fs version path :
  json_settled_at lib version fs path → quiet fs (update_json lib path version).
Proof.
  intros Hs st <-. rewrite (json_settled_run _ _ _ Hs). by exists [Synced path].
Qed.

Lemma quiet_update_all fs version tomls :
  PyStr.contains "\" version = false →
  (∀ q, q ∈ tomls → settled_at version fs q) →
  quiet fs (update_all lib tomls version).
Proof.
  intros Hb. induction tomls as [|toml tomls IH]; intros Hs.
  - intros st <-. exists []. unfold update_all, mret, M_ret.
    rewrite app_nil_r. by destruct st.
  - cbn [update_all]. apply quiet_bind.
    + apply quiet_update_cargo_toml; [done|]. apply Hs. by left.
    + apply IH. intros q Hq. apply Hs. by right.
Qed.

Lemma main_within st : within (main_targets lib) st (main lib st).2.
Proof.
  revert st. unfold main. apply within_bind.
  { intros st. rewrite get_workspace_version_run.
    destruct (files st !! "Cargo.toml"); apply within_refl. }
  assert (∀ st, within (main_targets lib) st
                  ((print NotFound ≫= λ _, raise (SystemExit 1) : M unit) st).2) as Hstop.
  { apply within_bind; [apply within_print | intros; apply within_refl]. }
  intros [[|c version]|]; [apply Hstop| |apply Hstop].
  cbv zeta. repeat (apply within_bind; [|intros _]); try apply within_print.
  - intros st. apply update_all_within. intros p Hp.
    unfold main_targets. apply elem_of_app. left. by apply elem_of_sorted.
  - intros st. apply update_cargo_toml_within.
    unfold main_targets. apply elem_of_app. right. set_solver.
  - intros st. apply update_json_within.
    unfold main_targets. apply elem_of_app. right. set_solver.
  - intros st. apply update_json_within.
    unfold main_targets. apply elem_of_app. right. set_solver.
Qed.

End SyncRun.
(** *** What the sync script does *)

Section SyncTheorems.

Import SyncVersions.

#[local] Arguments String.append !_ _ / : simpl nomatch.

Ltac space_key := exists " ", " "; split; [reflexivity | split; repeat constructor].

Ltac quote_free := unfold no_quote; apply (bool_decide_unpack _); vm_compute; exact I.

(** X11. The version [get_workspace_version] returns is read off the root
    manifest: the manifest has the header [[workspace.package]] and, on a
    line after it, [version = Q...Q] with the returned text between the
    quotes; that text is not empty and holds no double quote.  Nothing is
    written or printed. *)
Theorem workspace_version_is_read_from_the_manifest st v st' :
  get_workspace_version st = (Ok (Some v), st') →
  st' = st
  ∧ ∃ content,
      files st !! "Cargo.toml" = Some content ∧ version_line_after_header content v.
Proof.
  rewrite get_workspace_version_run.
  destruct (files st !! "Cargo.toml") as [content|]; [|done].
  intros [= Hs <-]. split; [done|]. exists content. split; [done|].
  by apply search_sound.
Qed.

Lemma workspace_version_is_read_from_the_manifest_witness :
  sample_state = sample_state
  ∧ ∃ content,
      files sample_state !! "Cargo.toml" = Some content
      ∧ version_line_after_header content "1.2.3".
Proof.
  apply (workspace_version_is_read_from_the_manifest sample_state "1.2.3" sample_state).
  vm_compute. reflexivity.
Defined.

(** X12. A version line after the header is enough: when the root manifest
    has the header and, on a later line, an assignment of a non-empty text
    to [version], [get_workspace_version] returns a version, which is that
    of such a line. *)
Theorem workspace_version_is_found st content v :
  files st !! "Cargo.toml" = Some content →
  version_line_after_header content v →
  ∃ v', get_workspace_version st = (Ok (Some v'), st)
        ∧ version_line_after_header content v'.
Proof.
  intros Hl Hv. rewrite get_workspace_version_run, Hl.
  destruct (search_complete _ _ Hv) as [v' Hs]. exists v'. rewrite Hs.
  split; [done | by apply search_sound].
Qed.

Lemma root_manifest_version_line : version_line_after_header root_manifest "1.2.3".
Proof.
  exists (text ["[workspace]"; "members = [" +:+ quoted "crates/*" +:+ "]"; ""]),
    (String newline ("edition = " +:+ quoted "2021")), "version = ",
    (String newline EmptyString).
  split; [reflexivity|]. split; [space_key|]. split; [done | quote_free].
Qed.

Lemma workspace_version_is_found_witness :
  ∃ v', get_workspace_version sample_state = (Ok (Some v'), sample_state)
        ∧ version_line_after_header root_manifest v'.
Proof.
  apply (workspace_version_is_found sample_state root_manifest "1.2.3").
  - reflexivity.
  - exact root_manifest_version_line.
Defined.

(** X13. Without such a line [main] stops at once: it prints that it could
    not find the version, exits with status 1, and has written no file. *)
Theorem main_stops_without_a_version lib st content :
  files st !! "Cargo.toml" = Some content →
  (∀ v, ¬ version_line_after_header content v) →
  main lib st
  = (Raise (SystemExit 1), {| files := files st; printed := printed st ++ [NotFound] |}).
Proof.
  intros Hl Hno. unfold main. unfold mbind at 1. unfold M_bind at 1.
  rewrite get_workspace_version_run, Hl.
  destruct (search_workspace_version content) as [v|] eqn:Hs; [|done].
  apply search_sound in Hs. by apply Hno in Hs.
Qed.

Lemma main_stops_without_a_version_witness :
  main sample_lib bare_state
  = (Raise (SystemExit 1),
     {| files := files bare_state; printed := printed bare_state ++ [NotFound] |}).
Proof.
  apply (main_stops_without_a_version sample_lib bare_state bare_manifest).
  - reflexivity.
  - intros v Hv. destruct (search_complete _ _ Hv) as [v' Hs].
    vm_compute in Hs. discriminate Hs.
Defined.

(** X14. [check_cargo_toml_needs_sync] answers yes exactly for a manifest
    that has no line starting with [version.workspace = true] and has a line
    starting with an assignment of a non-empty text to [version]; it changes
    nothing. *)
Theorem needs_sync_iff path st content :
  files st !! path = Some content →
  ∃ b, check_cargo_toml_needs_sync path st = (Ok b, st)
       ∧ (b = true ↔
          ¬ inherits content
          ∧ ∃ before key v rest, assignment_at content before key v rest).
Proof.
  intros Hl. rewrite check_cargo_toml_needs_sync_run, Hl. eexists. split; [done|].
  rewrite andb_true_iff, negb_true_iff, bool_decide_eq_true, <- uses_workspace_inherits.
  rewrite not_true_iff_false. apply and_iff_compat_l. split.
  - intros [[[[before key] v] rest] Hf].
    exists before, key, v, rest. by apply find_assignment_first.
  - intros (before & key & v & rest & Hat). by eapply find_assignment_found.
Qed.

Lemma needs_sync_iff_witness :
  ∃ b, check_cargo_toml_needs_sync "crates/b/Cargo.toml" sample_state = (Ok b, sample_state)
       ∧ (b = true ↔
          ¬ inherits pinned_manifest
          ∧ ∃ before key v rest, assignment_at pinned_manifest before key v rest).
Proof.
  apply (needs_sync_iff "crates/b/Cargo.toml" sample_state pinned_manifest).
  reflexivity.
Defined.

(** X15. A manifest that inherits its version is left alone: when some line
    of it starts with [version.workspace = true], [update_cargo_toml] writes
    no file and reports the manifest as skipped, whatever else the manifest
    holds. *)
Theorem inheriting_manifest_is_left_alone lib path version st before key rest :
  files st !! path = Some (before +:+ key +:+ rest) →
  line_start before → inheritance key →
  update_cargo_toml lib path version st
  = (Ok (), {| files := files st; printed := printed st ++ [Skipped path] |}).
Proof.
  intros Hl Hls Hkey. rewrite update_cargo_toml_run, Hl.
  rewrite uses_workspace_complete; done.
Qed.

Lemma inheriting_manifest_is_left_alone_witness :
  update_cargo_toml sample_lib "crates/a/Cargo.toml" "1.2.3" sample_state
  = (Ok (), {| files := files sample_state;
               printed := printed sample_state ++ [Skipped "crates/a/Cargo.toml"] |}).
Proof.
  apply (inheriting_manifest_is_left_alone sample_lib "crates/a/Cargo.toml" "1.2.3"
           sample_state
           (text ["[package]"; "name = " +:+ quoted "gglib-core"])
           "version.workspace = true" (String newline EmptyString)).
  - reflexivity.
  - right. exists ("[package]" +:+ String newline ("name = " +:+ quoted "gglib-core")).
    reflexivity.
  - space_key.
Defined.

(** X16. What [update_cargo_toml] writes, in terms of the text [read()]
    returns for the manifest (its line ends are those of text mode, not
    those of the bytes on disk): for a version without a backslash it either
    skips the manifest, writing nothing, or writes that text with the part
    between the quotes of its first line-starting [version = Q...Q] replaced
    by the version and every other character of the text kept, and leaves
    every other file as it was. *)
Theorem update_cargo_toml_replaces_first_value lib path version st content :
  files st !! path = Some content →
  PyStr.contains "\" version = false →
  update_cargo_toml lib path version st
  = (Ok (), {| files := files st; printed := printed st ++ [Skipped path] |})
  ∨ ∃ before key old rest,
      first_assignment content before key old rest
      ∧ update_cargo_toml lib path version st
        = (Ok (), {| files := <[path := before +:+ key +:+ quoted version +:+ rest]>
                                (files st);
                     printed := printed st ++ [Synced path] |}).
Proof.
  intros Hl Hb. rewrite update_cargo_toml_run, Hl.
  destruct (negb _ && _) eqn:Hc; [|by left]. right.
  apply andb_true_iff in Hc as [_ [[[[before key] old] rest] Hf]%bool_decide_eq_true].
  exists before, key, old, rest. split; [by apply find_assignment_first|].
  by rewrite (sub_version_plain _ _ _ _ _ _ _ Hb Hf).
Qed.

Lemma update_cargo_toml_replaces_first_value_witness :
  update_cargo_toml sample_lib "crates/b/Cargo.toml" "1.2.3" sample_state
  = (Ok (), {| files := files sample_state;
               printed := printed sample_state ++ [Skipped "crates/b/Cargo.toml"] |})
  ∨ ∃ before key old rest,
      first_assignment pinned_manifest before key old rest
      ∧ update_cargo_toml sample_lib "crates/b/Cargo.toml" "1.2.3" sample_state
        = (Ok (), {| files := <["crates/b/Cargo.toml" :=
                                  before +:+ key +:+ quoted "1.2.3" +:+ rest]>
                                (files sample_state);
                     printed := printed sample_state ++ [Synced "crates/b/Cargo.toml"] |}).
Proof.
  apply (update_cargo_toml_replaces_first_value sample_lib "crates/b/Cargo.toml" "1.2.3"
           sample_state pinned_manifest); reflexivity.
Defined.

(** X17. [update_cargo_toml] settles a manifest: after it has run with a
    version that is not empty and holds no double quote and no backslash, a
    second run with the same version leaves every file as the first run left
    it, and only adds a line to the report. *)
Theorem update_cargo_toml_twice lib path version st st1 :
  version ≠ EmptyString → no_quote version → PyStr.contains "\" version = false →
  update_cargo_toml lib path version st = (Ok (), st1) →
  ∃ line,
    update_cargo_toml lib path version st1
    = (Ok (), {| files := files st1; printed := printed st1 ++ [line] |}).
Proof.
  intros Hv Hq Hb. rewrite !update_cargo_toml_run.
  destruct (files st !! path) as [content|] eqn:Hl; [|done].
  destruct (negb (uses_workspace true content) && _) eqn:Hc.
  - apply andb_true_iff in Hc as [_ [[[[before key] old] rest] Hf]%bool_decide_eq_true].
    rewrite (sub_version_plain _ _ _ _ _ _ _ Hb Hf). intros [= <-]. simpl.
    rewrite lookup_insert_eq.
    destruct (negb _ && _) eqn:Hc'; [|by exists (Skipped path)].
    exists (Synced path).
    pose proof (find_assignment_spec _ _ _ _ _ _ Hf) as (-> & _).
    apply (find_assignment_stable _ _ _ _ _ version Hv Hq) in Hf.
    rewrite (sub_version_plain _ _ _ _ _ _ _ Hb Hf), insert_insert_eq. done.
  - intros [= <-]. simpl. rewrite Hl, Hc. by exists (Skipped path).
Qed.

Lemma update_cargo_toml_twice_witness :
  ∃ line,
    update_cargo_toml sample_lib "crates/b/Cargo.toml" "1.2.3"
      (update_cargo_toml sample_lib "crates/b/Cargo.toml" "1.2.3" sample_state).2
    = (Ok (),
       {| files :=
            files (update_cargo_toml sample_lib "crates/b/Cargo.toml" "1.2.3" sample_state).2;
          printed :=
            printed (update_cargo_toml sample_lib "crates/b/Cargo.toml" "1.2.3" sample_state).2
            ++ [line] |}).
Proof.
  apply (update_cargo_toml_twice sample_lib "crates/b/Cargo.toml" "1.2.3" sample_state).
  - done.
  - quote_free.
  - reflexivity.
  - vm_compute. reflexivity.
Defined.

(** X18. [update_json] on a file that holds an object writes the object back
    with the same keys in the same order and the same values, but for the
    member [version], which is set to the version when the object has one; no
    such member is added to an object that has none. *)
Theorem update_json_sets_only_version lib path version st content members :
  files st !! path = Some content →
  json_load lib content = Ok (JObject members) →
  ∃ members',
    update_json lib path version st
    = (Ok (), {| files := <[path := json_dumps lib (JObject members')
                                     +:+ String newline EmptyString]> (files st);
                 printed := printed st ++ [Synced path] |})
    ∧ members'.*1 = members.*1
    ∧ (∀ k, k ≠ "version" → member k members' = member k members)
    ∧ member "version" members'
      = match member "version" members with
        | Some _ => Some (JString version)
        | None => None
        end.
Proof.
  intros Hl Hj. rewrite update_json_run, Hl, Hj. cbn [set_version].
  case_bool_decide as Hin.
  - exists (set_item "version" (JString version) members).
    split; [done|]. split; [apply set_item_keys|].
    split; [intros k Hk; by apply member_set_item_ne|].
    rewrite member_set_item by done.
    destruct (member "version" members) eqn:Hm; [done|].
    exfalso. clear -Hin Hm. induction members as [|[k v] members IH]; simpl in *.
    + by apply elem_of_nil in Hin.
    + destruct (decide (k = "version")); [done|].
      apply elem_of_cons in Hin as [? | ?]; [congruence | auto].
  - exists members. split; [done|]. split; [done|]. split; [done|].
    by rewrite member_None.
Qed.

Lemma update_json_sets_only_version_witness :
  ∃ members',
    update_json sample_lib "package.json" "1.2.3" sample_state
    = (Ok (), {| files := <["package.json" :=
                              json_dumps sample_lib (JObject members')
                              +:+ String newline EmptyString]> (files sample_state);
                 printed := printed sample_state ++ [Synced "package.json"] |})
    ∧ members'.*1 = sample_package.*1
    ∧ (∀ k, k ≠ "version" → member k members' = member k sample_package)
    ∧ member "version" members'
      = match member "version" sample_package with
        | Some _ => Some (JString "1.2.3")
        | None => None
        end.
Proof.
  apply (update_json_sets_only_version sample_lib "package.json" "1.2.3" sample_state
           (sample_dumps (JObject sample_package)) sample_package); reflexivity.
Defined.

(** X20. [main] stays on its targets, whatever happens: the only files whose
    text can differ after a run, complete or not, are the manifests the glob
    returned, [src-tauri/Cargo.toml], [package.json] and
    [src-tauri/tauri.conf.json]; no file is created or removed; and the
    report only grows. *)
Theorem main_changes_only_its_targets lib st r st' :
  main lib st = (r, st') →
  dom (files st') = dom (files st)
  ∧ (∀ p, p ∉ glob_crates lib → p ≠ "src-tauri/Cargo.toml" → p ≠ "package.json" →
          p ≠ "src-tauri/tauri.conf.json" → files st' !! p = files st !! p)
  ∧ ∃ lines, printed st' = printed st ++ lines.
Proof.
  intros Hm. pose proof (main_within lib st) as (Hd & Hf & Hp). rewrite Hm in *.
  split; [done|]. split; [|done].
  intros p ? ? ? ?. apply Hf. unfold main_targets.
  rewrite elem_of_app, !elem_of_cons, elem_of_nil. tauto.
Qed.

Lemma main_changes_only_its_targets_witness :
  dom (files (main sample_lib sample_state).2) = dom (files sample_state)
  ∧ (∀ p, p ∉ glob_crates sample_lib → p ≠ "src-tauri/Cargo.toml" → p ≠ "package.json" →
          p ≠ "src-tauri/tauri.conf.json" →
          files (main sample_lib sample_state).2 !! p = files sample_state !! p)
  ∧ ∃ lines, printed (main sample_lib sample_state).2 = printed sample_state ++ lines.
Proof.
  apply (main_changes_only_its_targets sample_lib sample_state
           (main sample_lib sample_state).1).
  by destruct (main sample_lib sample_state).
Defined.

(** X21. A second run changes nothing.  When [main] has run to its end with
    a version that holds no backslash, the glob returning neither the root
    manifest nor a JSON target, and [json.load] reading back what the run
    wrote, then [main] run again on the result runs to its end too and
    leaves every file as it is. *)
Theorem main_twice lib st version st1 :
  get_workspace_version st = (Ok (Some version), st) →
  PyStr.contains "\" version = false →
  "Cargo.toml" ∉ glob_crates lib →
  (∀ p, p ∈ json_targets → p ∉ glob_crates lib) →
  reads_back lib version st →
  main lib st = (Ok (), st1) →
  ∃ lines,
    main lib st1 = (Ok (), {| files := files st1; printed := printed st1 ++ lines |}).
Proof.
  intros Hg Hb Hroot Hjson Hback Hmain.
  assert ("package.json" ∉ glob_crates lib) as Hpkg by (apply Hjson; set_solver).
  assert ("src-tauri/tauri.conf.json" ∉ glob_crates lib) as Htau
    by (apply Hjson; set_solver).
  pose proof (main_within lib st) as (_ & Hframe & _). rewrite Hmain in Hframe.
  assert (files st1 !! "Cargo.toml" = files st !! "Cargo.toml") as Hcargo.
  { apply Hframe. unfold main_targets.
    rewrite elem_of_app, !elem_of_cons, elem_of_nil. intros [?|[?|[?|[?|[]]]]]; done. }
  clear Hframe. rewrite get_workspace_version_run in Hg.
  destruct (files st !! "Cargo.toml") as [content|] eqn:Hl; [|done].
  injection Hg as Hs.
  pose proof (search_sound _ _ Hs) as (? & ? & ? & ? & _ & _ & Hv & Hq).
  unfold main in Hmain. apply bind_Ok_inv in Hmain as (ver & s0 & Hg' & Hmain).
  rewrite get_workspace_version_run, Hl, Hs in Hg'. injection Hg' as <- <-.
  destruct version as [|c v]; [done|]. cbv zeta in Hmain.
  apply bind_Ok_inv in Hmain as ([] & s1 & Hp1%print_files & Hmain).
  apply bind_Ok_inv in Hmain as ([] & s2 & Hp2%print_files & Hmain).
  apply bind_Ok_inv in Hmain as ([] & s3 & Hall & Hmain).
  apply bind_Ok_inv in Hmain as ([] & s4 & Hp4%print_files & Hmain).
  apply bind_Ok_inv in Hmain as ([] & s5 & Hsrc & Hmain).
  apply bind_Ok_inv in Hmain as ([] & s6 & Hp6%print_files & Hmain).
  apply bind_Ok_inv in Hmain as ([] & s7 & Hj1 & Hmain).
  apply bind_Ok_inv in Hmain as ([] & s8 & Hj2 & Hmain).
  apply bind_Ok_inv in Hmain as ([] & s9 & Hp9%print_files & Hp10%print_files).
  destruct (update_all_settles _ _ _ _ _ Hv Hq Hb Hall) as (A1 & _ & A3).
  destruct (update_cargo_toml_settles _ _ _ _ _ Hv Hq Hb Hsrc) as (B1 & B2).
  pose proof (λ q, update_cargo_toml_keeps_settled _ _ _ _ _ q Hv Hq Hb Hsrc) as B3.
  rewrite Hp2, Hp1 in A3. rewrite Hp4 in B2, B3.
  assert (∀ q, q ∉ glob_crates lib → q ≠ "src-tauri/Cargo.toml" →
               files s6 !! q = files st !! q) as E6.
  { intros q Hq1 Hq2. rewrite Hp6, B2, A3; [done | by rewrite elem_of_sorted | done]. }
  destruct (update_json_settles _ _ _ _ _ Hj1) as (C1 & C2).
  { intros content0 data data' Hl0. apply (Hback "package.json"); [set_solver|].
    by rewrite <- E6. }
  destruct (update_json_settles _ _ _ _ _ Hj2) as (D1 & D2).
  { intros content0 data data' Hl0. apply (Hback "src-tauri/tauri.conf.json"); [set_solver|].
    rewrite <- E6, <- C2; done. }
  assert (files st1 = files s8) as F1 by congruence.
  assert (∀ q, q ∈ sorted (glob_crates lib) → settled_at (String c v) (files st1) q) as T1.
  { intros q Hin. rewrite F1.
    assert (q ∈ glob_crates lib) as Hin' by (by apply elem_of_sorted).
    eapply settled_at_lookup; [apply D2; by intros ->|].
    eapply settled_at_lookup; [apply C2; by intros ->|].
    rewrite Hp6. by apply B3, A1. }
  assert (settled_at (String c v) (files st1) "src-tauri/Cargo.toml") as T2.
  { rewrite F1.
    eapply settled_at_lookup; [by apply D2|].
    eapply settled_at_lookup; [by apply C2|].
    by rewrite Hp6. }
  assert (json_settled_at lib (String c v) (files st1) "package.json") as T3.
  { rewrite F1. eapply json_settled_at_lookup; [by apply D2 | done]. }
  assert (json_settled_at lib (String c v) (files st1) "src-tauri/tauri.conf.json") as T4.
  { by rewrite F1. }
  unfold main. unfold mbind at 1. unfold M_bind at 1.
  rewrite get_workspace_version_run, Hcargo, Hs. cbv zeta.
  match goal with
  | |- ∃ lines, ?run st1 = _ => assert (quiet (files st1) run) as Hquiet
  end.
  { repeat apply quiet_bind; try apply quiet_print.
    - by apply quiet_update_all.
    - by apply quiet_update_cargo_toml.
    - by apply quiet_update_json.
    - by apply quiet_update_json. }
  destruct (Hquiet st1 eq_refl) as [lines ->]. by exists lines.
Qed.

Lemma sample_reads_back : reads_back sample_lib "1.2.3" sample_state.
Proof.
  intros path content data data' Hin Hl Hj Hs.
  apply elem_of_cons in Hin as [-> | Hin];
    [|apply elem_of_cons in Hin as [-> | Hin]; [|by apply elem_of_nil in Hin]].
  - vm_compute in Hl. injection Hl as <-.
    vm_compute in Hj. injection Hj as <-.
    vm_compute in Hs. injection Hs as <-. vm_compute. reflexivity.
  - vm_compute in Hl. injection Hl as <-.
    vm_compute in Hj. injection Hj as <-.
    vm_compute in Hs. injection Hs as <-. vm_compute. reflexivity.
Qed.

Lemma main_twice_witness :
  ∃ lines,
    main sample_lib (main sample_lib sample_state).2
    = (Ok (), {| files := files (main sample_lib sample_state).2;
                 printed := printed (main sample_lib sample_state).2 ++ lines |}).
Proof.
  apply (main_twice sample_lib sample_state "1.2.3").
  - vm_compute. reflexivity.
  - reflexivity.
  - unfold glob_crates, sample_lib. rewrite !not_elem_of_cons.
    repeat split; try done. apply not_elem_of_nil.
  - intros p Hp. unfold glob_crates, sample_lib. rewrite !not_elem_of_cons.
    apply elem_of_cons in Hp as [-> | Hp];
      [|apply elem_of_cons in Hp as [-> | Hp]; [|by apply elem_of_nil in Hp]];
      repeat split; try done; apply not_elem_of_nil.
  - exact sample_reads_back.
  - vm_compute. reflexivity.
Defined.

End SyncTheorems.
